(** * fluke: FedAVGM and FedDyn, a shallow embedding

    The two algorithm modules [fluke/algorithms/fedavgm.py] and
    [fluke/algorithms/feddyn.py] are embedded as Rocq functions.

    Numeric domain.  Tensor elements are exact rationals ([Qc], the
    canonical rationals, so that equality is plain [=]).  IEEE rounding is
    abstracted: every identity below is an identity of the exact algorithm.
    Division is the total division of [Qc] ([x / 0 = 0]); numpy and torch do
    not raise on a zero divisor either (they yield inf or nan), so the
    control flow agrees, and every statement about a quotient carries the
    hypothesis that the divisor is not zero.

    Exceptions.  A computation that can raise returns a [result]; Python's
    [None] is [option]'s [None]. *)

From Stdlib Require Import String Ascii Bool Arith ZArith Lia List.
From Stdlib Require Import QArith Qcanon.
Import ListNotations.

Set Implicit Arguments.

(* ------------------------------------------------------------------ *)
(** ** Python exceptions as an error monad *)

Inductive exn : Type :=
| TypeError | AttributeError | KeyError | IndexError
| RuntimeError | AssertionError | ZeroDivisionError | ValueError.

Inductive result (A : Type) : Type :=
| Ok (a : A)
| Raise (e : exn).

Arguments Ok {A} a.
Arguments Raise {A} e.

Definition bind {A B : Type} (m : result A) (k : A -> result B) : result B :=
  match m with
  | Ok a => k a
  | Raise e => Raise e
  end.

Notation "x <- m ;; k" := (bind m (fun x => k))
  (at level 61, m at next level, right associativity).
Notation "' p <- m ;; k" := (bind m (fun x => match x with p => k end))
  (at level 61, p pattern, m at next level, right associativity).

(** [for x in xs: acc = body(acc, x)], stopping at the first exception. *)
Fixpoint for_each {A S : Type} (xs : list A) (body : S -> A -> result S) (acc : S)
  : result S :=
  match xs with
  | [] => Ok acc
  | x :: xs' => acc' <- body acc x ;; for_each xs' body acc'
  end.

(* ------------------------------------------------------------------ *)
(** ** Scalars and flat vectors *)

Abbreviation scalar := Qc (only parsing).
Definition vec := list scalar.

Open Scope Qc_scope.

Definition vsum (v : vec) : scalar := fold_right Qcplus 0 v.

(** [zip_with f a b]: the element-wise loop of a binary tensor operation on
    operands of one shape. *)
Fixpoint zip_with (f : scalar -> scalar -> scalar) (a b : vec) : vec :=
  match a, b with
  | x :: a', y :: b' => f x y :: zip_with f a' b'
  | _, _ => []
  end.

(** Element-wise binary operation on 1-D tensors.  Operands of different
    lengths raise: torch's broadcasting of a length-1 operand is outside the
    model, and every statement below is about operands of equal length. *)
Definition vbin (f : scalar -> scalar -> scalar) (a b : vec) : result vec :=
  if Nat.eqb (length a) (length b) then Ok (zip_with f a b) else Raise RuntimeError.

Definition vadd := vbin Qcplus.
Definition vsub := vbin Qcminus.
Definition vmul := vbin Qcmult.
Definition vscale (c : scalar) (v : vec) : vec := map (Qcmult c) v.
Definition vneg (v : vec) : vec := map Qcopp v.
Definition vdiv_scalar (v : vec) (c : scalar) : vec := map (fun x => x / c) v.

(** Python slice [v[i:j]] for [0 <= i <= j]: out-of-range bounds are clamped. *)
Definition py_slice {A : Type} (v : list A) (i j : nat) : list A :=
  firstn (j - i) (skipn i v).

(* ------------------------------------------------------------------ *)
(** ** Tensors *)

Module Tensor.

Record t : Type := mk { shape : list nat; data : vec }.

Definition numel_of (sh : list nat) : nat := fold_right Nat.mul 1%nat sh.

(** A tensor holds as many elements as its shape says. *)
Definition wf (x : t) : Prop := length (data x) = numel_of (shape x).

Definition wfb (x : t) : bool := Nat.eqb (length (data x)) (numel_of (shape x)).

(** [x.reshape(-1)]: the elements in row-major order. *)
Definition flat (x : t) : vec := data x.

(** [v.reshape(sh)] of a 1-D tensor [v]: raises unless the sizes agree. *)
Definition reshape (v : vec) (sh : list nat) : result t :=
  if Nat.eqb (length v) (numel_of sh) then Ok (mk sh v) else Raise RuntimeError.

(** [x.clone().detach()]: a fresh tensor with the same value. *)
Definition clone_detach (x : t) : t := x.
Definition clone (x : t) : t := x.

Definition shape_eqb (s1 s2 : list nat) : bool :=
  if list_eq_dec Nat.eq_dec s1 s2 then true else false.

(** Element-wise binary operation; operands of different shapes raise
    (broadcasting is outside the model, see [vbin]). *)
Definition bin (f : scalar -> scalar -> scalar) (a b : t) : result t :=
  if shape_eqb (shape a) (shape b)
  then Ok (mk (shape a) (zip_with f (data a) (data b)))
  else Raise RuntimeError.

Definition add := bin Qcplus.
Definition sub := bin Qcminus.
Definition scale (c : scalar) (x : t) : t := mk (shape x) (map (Qcmult c) (data x)).

(** The element at flat position [e] (0 beyond the end). *)
Definition at_ (x : t) (e : nat) : scalar := nth e (data x) 0.

End Tensor.

(* ------------------------------------------------------------------ *)
(** ** torch.nn.Module: named parameters and buffers *)

(** An entry of a module's state: a parameter (with its [requires_grad]
    flag) or a buffer. *)
Inductive kind : Type :=
| KParameter (requires_grad : bool)
| KBuffer.

Record entry : Type := mkEntry { key : string; knd : kind; value : Tensor.t }.

(** A module is the ordered list of its entries; [state_dict()] lists all of
    them, [named_parameters()] the parameters among them, in this order. *)
Definition nnModule := list entry.

Record Param : Type := mkParam { requires_grad_of : bool; pdata : Tensor.t }.

Definition OrderedDict (V : Type) := list (string * V).

Fixpoint od_get {V : Type} (d : OrderedDict V) (k : string) : option V :=
  match d with
  | [] => None
  | (k', v) :: d' => if String.eqb k' k then Some v else od_get d' k
  end.

(** [d[k]]: raises [KeyError] on a missing key. *)
Definition od_lookup {V : Type} (d : OrderedDict V) (k : string) : result V :=
  match od_get d k with
  | Some v => Ok v
  | None => Raise KeyError
  end.

(** [d[k] = v]: replaces in place, or appends a new key at the end. *)
Fixpoint od_set {V : Type} (d : OrderedDict V) (k : string) (v : V) : OrderedDict V :=
  match d with
  | [] => [(k, v)]
  | (k', v') :: d' => if String.eqb k' k then (k', v) :: d' else (k', v') :: od_set d' k v
  end.

Definition od_keys {V : Type} (d : OrderedDict V) : list string := map fst d.

Definition state_dict (m : nnModule) : OrderedDict Tensor.t :=
  map (fun e => (key e, value e)) m.

Fixpoint named_parameters (m : nnModule) : OrderedDict Param :=
  match m with
  | [] => []
  | e :: m' =>
      match knd e with
      | KParameter rg => (key e, mkParam rg (value e)) :: named_parameters m'
      | KBuffer => named_parameters m'
      end
  end.

Definition parameters (m : nnModule) : list Param := map snd (named_parameters m).

Definition keys_of (m : nnModule) : list string := map key m.

(** The invariants of a module: names are unique and every tensor is
    well-formed. *)
Definition wf_module (m : nnModule) : Prop :=
  NoDup (keys_of m) /\ Forall (fun e => Tensor.wf (value e)) m.

(** Two modules of one architecture: same names, kinds and shapes, in the
    same order. *)
Definition same_arch (m1 m2 : nnModule) : Prop :=
  Forall2 (fun e1 e2 => key e1 = key e2 /\ knd e1 = knd e2 /\
                        Tensor.shape (value e1) = Tensor.shape (value e2)) m1 m2.

(** [dst.copy_(src)]: overwrites the elements of [dst]; the shapes must agree
    (broadcasting is outside the model). *)
Definition copy_ (dst src : Tensor.t) : result Tensor.t :=
  if Tensor.shape_eqb (Tensor.shape dst) (Tensor.shape src)
  then Ok (Tensor.mk (Tensor.shape dst) (Tensor.data src))
  else Raise RuntimeError.

Fixpoint map_result {A B : Type} (f : A -> result B) (xs : list A) : result (list B) :=
  match xs with
  | [] => Ok []
  | x :: xs' => y <- f x ;; ys <- map_result f xs' ;; Ok (y :: ys)
  end.

(** [model.load_state_dict(sd, strict)]: every entry of the module found in
    [sd] is overwritten with [copy_] (a shape mismatch raises, strict or
    not); under [strict] a missing or an unexpected key raises. *)
Definition load_state_dict (model : nnModule) (sd : OrderedDict Tensor.t) (strict : bool)
  : result nnModule :=
  m' <- map_result
          (fun e =>
             match od_get sd (key e) with
             | Some v => v' <- copy_ (value e) v ;; Ok (mkEntry (key e) (knd e) v')
             | None => if strict then Raise RuntimeError else Ok e
             end) model ;;
  if strict && negb (forallb (fun k => existsb (String.eqb k) (keys_of model)) (od_keys sd))
  then Raise RuntimeError
  else Ok m'.

(* ------------------------------------------------------------------ *)
(** ** fedavgm.py: the FedAVGM server *)

Module FedAVGM.

(** [s.endswith(suffix)]. *)
Definition endswith (s suffix : string) : bool :=
  let n := String.length s in
  let m := String.length suffix in
  Nat.leb m n && String.eqb (substring (n - m) m s) suffix.

(** [s.endswith(suffixes)] for a tuple of suffixes. *)
Definition endswith_any (s : string) (suffixes : list string) : bool :=
  existsb (endswith s) suffixes.

Record Server : Type := mkServer {
  model : nnModule;
  momentum_vector : option (OrderedDict Tensor.t);
  hyper_momentum : scalar          (* hyper_params.momentum *)
}.

(** [FedAVGMServer.__init__]: the base class keeps the model, [momentum] goes
    to the hyper-parameters and the momentum buffer starts as [None]. *)
Definition __init__ (model_ : nnModule) (momentum : scalar) : Server :=
  mkServer model_ None momentum.

Section Aggregate.

(** The tuple [STATE_DICT_KEYS_TO_IGNORE] of fluke/utils/model.py, which is
    not part of the sources at hand. *)
Variable STATE_DICT_KEYS_TO_IGNORE : list string.

(** Modelled from the spec: [diff_model] of fluke/utils/model.py, which is not
    part of the sources at hand.  [diff(reference_state, client_state)]
    returns, for every key not in the ignore set,
    [reference[key] - client[key]]; ignored keys are omitted.  A key that the
    client lacks, or a shape mismatch, is fatal. *)
Definition diff_model (model_dict1 model_dict2 : OrderedDict Tensor.t)
  : result (OrderedDict Tensor.t) :=
  map_result
    (fun kv => c <- od_lookup model_dict2 (fst kv) ;;
               d <- Tensor.sub (snd kv) c ;;
               Ok (fst kv, d))
    (filter (fun kv => negb (endswith_any (fst kv) STATE_DICT_KEYS_TO_IGNORE)) model_dict1).

(** [weights[i]]. *)
Definition index_weights (weights : list scalar) (i : nat) : result scalar :=
  match nth_error weights i with
  | Some w => Ok w
  | None => Raise IndexError
  end.

(** The body of [for i, client_diff in enumerate(clients_diff)]; the state is
    [(avg_model_sd, i)]. *)
Definition accumulate (weights : list scalar) (key_ : string)
  (st : OrderedDict Tensor.t * nat) (client_diff : OrderedDict Tensor.t)
  : result (OrderedDict Tensor.t * nat) :=
  let '(avg_model_sd, i) := st in
  w <- index_weights weights i ;;
  d <- od_lookup client_diff key_ ;;
  match od_get avg_model_sd key_ with
  | None => Ok (od_set avg_model_sd key_ (Tensor.scale w d), S i)
  | Some a =>
      s <- Tensor.add a (Tensor.scale w d) ;;
      Ok (od_set avg_model_sd key_ s, S i)
  end.

(** The body of [for key in self.model.state_dict().keys()]. *)
Definition average_key (msd : OrderedDict Tensor.t)
  (clients_diff : list (OrderedDict Tensor.t)) (weights : list scalar)
  (avg_model_sd : OrderedDict Tensor.t) (key_ : string)
  : result (OrderedDict Tensor.t) :=
  if endswith_any key_ STATE_DICT_KEYS_TO_IGNORE
  then v <- od_lookup msd key_ ;; Ok (od_set avg_model_sd key_ (Tensor.clone v))
  else st <- for_each clients_diff (accumulate weights key_) (avg_model_sd, 0%nat) ;;
       Ok (fst st).

(** Lines 65-79: [avg_model_sd]. *)
Definition average_model (m : nnModule) (clients_sd : list (OrderedDict Tensor.t))
  (weights : list scalar) : result (OrderedDict Tensor.t) :=
  clients_diff <- map_result (diff_model (state_dict m)) clients_sd ;;
  for_each (od_keys (state_dict m)) (average_key (state_dict m) clients_diff weights) [].

(** Lines 81-87: the momentum buffer after this round. *)
Definition update_momentum (mu : scalar) (m : nnModule)
  (momentum_vector_ : option (OrderedDict Tensor.t)) (avg_model_sd : OrderedDict Tensor.t)
  : result (OrderedDict Tensor.t) :=
  match momentum_vector_ with
  | None => Ok avg_model_sd                      (* deepcopy(avg_model_sd) *)
  | Some mv =>
      for_each (od_keys (state_dict m))
        (fun mv key_ =>
           old <- od_lookup mv key_ ;;
           a <- od_lookup avg_model_sd key_ ;;
           s <- Tensor.add (Tensor.scale mu old) a ;;
           Ok (od_set mv key_ s))
        mv
  end.

(** Lines 89-90: [param.data = param.data - self.momentum_vector[key].data]
    for every named parameter; buffers are not visited. *)
Definition apply_momentum (m : nnModule) (mv : OrderedDict Tensor.t) : result nnModule :=
  map_result
    (fun e =>
       match knd e with
       | KParameter _ =>
           mom <- od_lookup mv (key e) ;;
           v <- Tensor.sub (value e) mom ;;
           Ok (mkEntry (key e) (knd e) v)
       | KBuffer => Ok e
       end) m.

(** [FedAVGMServer.aggregate(eligible)].  [clients_sd] is what
    [get_client_models(eligible)] returns and [weights] what
    [_get_client_weights(eligible)] returns (both belong to the base class
    [Server], which is not part of the sources at hand). *)
Definition aggregate (self : Server) (clients_sd : list (OrderedDict Tensor.t))
  (weights : list scalar) : result Server :=
  avg_model_sd <- average_model (model self) clients_sd weights ;;
  mv <- update_momentum (hyper_momentum self) (model self) (momentum_vector self)
          avg_model_sd ;;
  m' <- apply_momentum (model self) mv ;;
  Ok (mkServer m' (Some mv) (hyper_momentum self)).

(** A run of aggregation rounds; each round brings the client models and the
    client weights.  Returns the server after each round. *)
Fixpoint run (self : Server)
  (rounds : list (list (OrderedDict Tensor.t) * list scalar)) : result (list Server) :=
  match rounds with
  | [] => Ok []
  | r :: rest =>
      s1 <- aggregate self (fst r) (snd r) ;;
      tl <- run s1 rest ;;
      Ok (s1 :: tl)
  end.

End Aggregate.

End FedAVGM.

(* ------------------------------------------------------------------ *)
(** ** Decidable well-formedness and literals *)

(** The rational [n/d]. *)
Definition qc (n : Z) (d : positive) : scalar := Q2Qc (n # d).

(** A 0-dimensional tensor. *)
Definition scalar_tensor (x : scalar) : Tensor.t := Tensor.mk [] [x].

(** A 1-dimensional tensor. *)
Definition vector_tensor (v : vec) : Tensor.t := Tensor.mk [length v] v.

Fixpoint nodupb (l : list string) : bool :=
  match l with
  | [] => true
  | k :: l' => negb (existsb (String.eqb k) l') && nodupb l'
  end.

Definition wf_moduleb (m : nnModule) : bool :=
  nodupb (keys_of m) && forallb (fun e => Tensor.wfb (value e)) m.

(* ------------------------------------------------------------------ *)
(** ** feddyn.py: flattening and loading the trainable parameters *)

Module FedDyn.

(** The loop of [get_all_params_of]: [result_] is the running [result]. *)
Fixpoint get_all_params_loop (ps : list Param) (copy : bool) (result_ : option vec)
  : option vec :=
  match ps with
  | [] => result_
  | param :: ps' =>
      if negb (requires_grad_of param) then get_all_params_loop ps' copy result_
      else
        match result_ with
        | None =>
            get_all_params_loop ps' copy
              (Some (if copy
                     then Tensor.flat (Tensor.clone_detach (pdata param))
                     else Tensor.flat (pdata param)))
        | Some r =>
            get_all_params_loop ps' copy
              (Some (if copy
                     then r ++ Tensor.flat (Tensor.clone_detach (pdata param))
                     else r ++ Tensor.flat (pdata param)))
        end
  end.

(** [get_all_params_of(model, copy)]: [None] is Python's [None]. *)
Definition get_all_params_of (model : nnModule) (copy : bool) : option vec :=
  get_all_params_loop (parameters model) copy None.

(** [params[i:j]] of the argument of [load_all_params]: slicing [None]
    raises [TypeError]. *)
Definition tensor_slice (params : option vec) (i j : nat) : result vec :=
  match params with
  | Some v => Ok (py_slice v i j)
  | None => Raise TypeError
  end.

(** [dict_param[name].data.copy_(t)]. *)
Fixpoint copy_into (dict_param : OrderedDict Param) (name : string) (t : Tensor.t)
  : result (OrderedDict Param) :=
  match dict_param with
  | [] => Raise KeyError
  | (k, p) :: d' =>
      if String.eqb k name
      then v <- copy_ (pdata p) t ;; Ok ((k, mkParam (requires_grad_of p) v) :: d')
      else d'' <- copy_into d' name t ;; Ok ((k, p) :: d'')
  end.

(** One iteration of the loop of [load_all_params]; the state is
    [(dict_param, idx)]. *)
Definition load_step (params : option vec)
  (st : OrderedDict Param * nat) (np : string * Param)
  : result (OrderedDict Param * nat) :=
  let '(dict_param, idx) := st in
  let '(name, param) := np in
  if negb (requires_grad_of param) then Ok (dict_param, idx)
  else
    let weights := pdata param in
    let length_ := length (Tensor.flat weights) in
    sl <- tensor_slice params idx (idx + length_) ;;
    t <- Tensor.reshape sl (Tensor.shape weights) ;;
    dict_param' <- copy_into dict_param name t ;;
    Ok (dict_param', (idx + length_)%nat).

(** [load_all_params(device, model, params)]; the device does not change
    values and is left out.  Returns the model as the call leaves it. *)
Definition load_all_params (model : nnModule) (params : option vec) : result nnModule :=
  let dict_param := named_parameters model in
  st <- for_each (named_parameters model) (load_step params) (dict_param, 0%nat) ;;
  load_state_dict model (map (fun np => (fst np, pdata (snd np))) (fst st)) false.

(** The number of elements of the trainable parameters. *)
Definition trainable_numel (model : nnModule) : nat :=
  fold_right Nat.add 0%nat
    (map (fun p => Tensor.numel_of (Tensor.shape (pdata p)))
         (filter requires_grad_of (parameters model))).

(** [x.to(device)] of the result of [get_all_params_of]: the device does not
    change values; on [None] the attribute look-up raises. *)
Definition to_device (x : option vec) : result vec :=
  match x with
  | Some v => Ok v
  | None => Raise AttributeError
  end.

(** [torch.zeros_like(x)]: raises [TypeError] on [None]. *)
Definition zeros_like (x : option vec) : result vec :=
  match x with
  | Some v => Ok (map (fun _ => 0) v)
  | None => Raise TypeError
  end.

(** [for params in model.parameters(): params.requires_grad = True]. *)
Definition set_requires_grad (m : nnModule) : nnModule :=
  map (fun e => match knd e with
                | KParameter _ => mkEntry (key e) (KParameter true) (value e)
                | KBuffer => e
                end) m.

(** Modelled from the spec: [safe_load_state_dict] of fluke/utils/model.py,
    which is not part of the sources at hand.  It loads the received state
    into the local model: the local model stays the object it is, only
    parameters are overwritten (buffers keep their local values), and a
    parameter whose key the received state does not have is left as it is. *)
Definition safe_load_state_dict (m : nnModule) (sd : OrderedDict Tensor.t)
  : result nnModule :=
  map_result
    (fun e =>
       match knd e with
       | KParameter _ =>
           match od_get sd (key e) with
           | Some v => v' <- copy_ (value e) v ;; Ok (mkEntry (key e) (knd e) v')
           | None => Ok e
           end
       | KBuffer => Ok e
       end) m.

(** *** The channel *)

(** The name of a party: ["server"] or a client's [index]. *)
Inductive Id : Type :=
| ServerId
| ClientId (index : nat).

Definition Id_eqb (a b : Id) : bool :=
  match a, b with
  | ServerId, ServerId => true
  | ClientId i, ClientId j => Nat.eqb i j
  | _, _ => false
  end.

Inductive Payload : Type :=
| PCount (n : nat)                        (* an example count *)
| PWeight (w : scalar)                    (* a normalised weight *)
| PModels (model_ cld_mdl : nnModule)     (* [(self.model, self.cld_mdl)] *)
| PModel (model_ : option nnModule)       (* a client's [self.model] *)
| PGrads (g : option vec).                (* a client's [prev_grads] *)

(** [Message(payload, msg_type, sender)]. *)
Record Message : Type := mkMessage {
  payload : Payload;
  msg_type : string;
  sender : Id
}.

(** An entry of the message log: who sent to whom, or who received from
    whom, a message of which type. *)
Inductive event : Type :=
| Sent (from to : Id) (mtype : string)
| Received (by_ from : Id) (mtype : string).

(** Modelled from the spec: the [Channel] of fluke/comm.py, which is not part
    of the sources at hand.  Message passing is a synchronous in-process
    hand-off keyed by (sender, recipient, type); a message is consumed exactly
    once; receiving a message that is not pending is fatal.  [log] is the
    message log of the channel. *)
Record Channel : Type := mkChannel {
  pending : list (Id * Message);        (* (recipient, message), oldest first *)
  log : list event
}.

Definition send (msg : Message) (recipient : Id) (ch : Channel) : Channel :=
  mkChannel (pending ch ++ [(recipient, msg)])
            (log ch ++ [Sent (sender msg) recipient (msg_type msg)]).

Definition matches (recipient sender_ : Id) (mtype : string) (rm : Id * Message) : bool :=
  Id_eqb (fst rm) recipient && Id_eqb (sender (snd rm)) sender_ &&
  String.eqb (msg_type (snd rm)) mtype.

(** The oldest pending message that matches, and the others. *)
Fixpoint take_first (recipient sender_ : Id) (mtype : string) (q : list (Id * Message))
  : option (Message * list (Id * Message)) :=
  match q with
  | [] => None
  | rm :: q' =>
      if matches recipient sender_ mtype rm then Some (snd rm, q')
      else match take_first recipient sender_ mtype q' with
           | Some (m, rest) => Some (m, rm :: rest)
           | None => None
           end
  end.

Definition receive (recipient sender_ : Id) (mtype : string) (ch : Channel)
  : result (Message * Channel) :=
  match take_first recipient sender_ mtype (pending ch) with
  | Some (m, rest) => Ok (m, mkChannel rest (log ch ++ [Received recipient sender_ mtype]))
  | None => Raise ValueError
  end.

(** [channel.broadcast(msg, to)]. *)
Definition broadcast (msg : Message) (to : list nat) (ch : Channel) : Channel :=
  fold_left (fun c i => send msg (ClientId i) c) to ch.

(** *** The data loader *)

(** The [FastDataLoader] of fluke/data, which is not part of the sources at
    hand, as far as the client reads it: [_send_weight] reads
    [tensors[0].shape[0]], [fit] iterates over the loader and divides the
    summed minibatch losses by [epochs * len(train_set)]. *)
Record FastDataLoader (Batch : Type) : Type := mkLoader {
  tensors0_shape0 : nat;               (* [tensors[0].shape[0]]: the number of examples *)
  epoch_batches : nat -> list Batch;   (* the batches of the e-th iteration over the loader *)
  len_ : nat                           (* [len(train_set)] *)
}.

(** *** The client and the server *)

Section Algorithm.

(** What the algorithm takes from the rest of fluke: the batches, the
    optimizer (with its scheduler), the task loss [loss_fn(model(X), y)] as a
    function of the model and the batch, the optimizer configurator, one
    optimisation step ([loss.backward()], [_clip_grads], [optimizer.step()])
    as a function of the loss to differentiate and the model, and one
    scheduler step. *)
Variable Batch : Type.
Variable OptState : Type.
Variable loss_fn : nnModule -> Batch -> scalar.
Variable optimizer_cfg : nnModule -> scalar -> OptState.
Variable optimizer_step :
  OptState -> (nnModule -> result scalar) -> nnModule -> nnModule * OptState.
Variable scheduler_step : OptState -> OptState.

Record Client : Type := mkClient {
  index : nat;
  train_set : FastDataLoader Batch;
  model : option nnModule;
  prev_grads : option vec;
  weight : option scalar;
  alpha : scalar;                    (* hyper_params.alpha *)
  local_epochs : Z;                  (* hyper_params.local_epochs *)
  weight_decay : scalar;
  optimizer : option OptState        (* self.optimizer and self.scheduler *)
}.

Definition with_model (self : Client) (m : option nnModule) : Client :=
  mkClient (index self) (train_set self) m (prev_grads self) (weight self) (alpha self)
           (local_epochs self) (weight_decay self) (optimizer self).

Definition with_prev_grads (self : Client) (g : option vec) : Client :=
  mkClient (index self) (train_set self) (model self) g (weight self) (alpha self)
           (local_epochs self) (weight_decay self) (optimizer self).

Definition with_weight (self : Client) (w : option scalar) : Client :=
  mkClient (index self) (train_set self) (model self) (prev_grads self) w (alpha self)
           (local_epochs self) (weight_decay self) (optimizer self).

Definition with_optimizer (self : Client) (o : option OptState) : Client :=
  mkClient (index self) (train_set self) (model self) (prev_grads self) (weight self)
           (alpha self) (local_epochs self) (weight_decay self) o.


(** [FedDynClient.receive_model]. *)
Definition receive_model (self : Client) (ch : Channel) : result (Client * Channel) :=
  r <- receive (ClientId (index self)) ServerId "model" ch ;;
  match payload (fst r) with
  | PModels model_ cld_mdl =>
      match model self with
      | None =>
          pg <- zeros_like (get_all_params_of model_ true) ;;
          Ok (with_prev_grads (with_model self (Some model_)) (Some pg), snd r)
      | Some m =>
          m' <- safe_load_state_dict m (state_dict cld_mdl) ;;
          Ok (with_model self (Some m'), snd r)
      end
  | _ => Raise TypeError
  end.

(** [FedDynClient._receive_weights]; a payload that is not a weight is a
    protocol violation. *)
Definition _receive_weights (self : Client) (ch : Channel) : result (Client * Channel) :=
  r <- receive (ClientId (index self)) ServerId "weight" ch ;;
  match payload (fst r) with
  | PWeight w => Ok (with_weight self (Some w), snd r)
  | _ => Raise TypeError
  end.

(** [FedDynClient._send_weight]. *)
Definition _send_weight (self : Client) (ch : Channel) : Channel :=
  send (mkMessage (PCount (tensors0_shape0 (train_set self))) "weight"
                  (ClientId (index self)))
       ServerId ch.

(** [FedDynClient.send_model]: [self.model] and [self.prev_grads] are sent as
    they are, [None] included. *)
Definition send_model (self : Client) (ch : Channel) : Channel :=
  let ch1 := send (mkMessage (PModel (model self)) "model" (ClientId (index self)))
                  ServerId ch in
  send (mkMessage (PGrads (prev_grads self)) "grads" (ClientId (index self))) ServerId ch1.

(** Lines 152-161: the loss of one minibatch as a function of the model; the
    current parameters are read from the model with [copy=False], so the
    penalty varies with the model, while [server_params] and [prev_grads]
    are constants. *)
Definition minibatch_loss (alpha_coef_adpt : scalar) (server_params : vec)
  (prev_grads_ : option vec) (batch : Batch) (theta : nnModule) : result scalar :=
  let loss := loss_fn theta batch in
  curr_params <- to_device (get_all_params_of theta false) ;;
  pg <- match prev_grads_ with Some g => Ok g | None => Raise TypeError end ;;
  t <- vadd (vneg server_params) pg ;;
  prod <- vmul curr_params t ;;
  let penalty := alpha_coef_adpt * vsum prod in
  Ok (loss + penalty).

(** The loop over the minibatches of one epoch; the state is the model, the
    optimizer and [running_loss], kept as they are when a step raises. *)
Fixpoint train_batches (alpha_coef_adpt : scalar) (server_params : vec)
  (prev_grads_ : option vec) (bs : list Batch)
  (m : nnModule) (opt : OptState) (running_loss : scalar)
  : nnModule * OptState * result scalar :=
  match bs with
  | [] => (m, opt, Ok running_loss)
  | b :: bs' =>
      match minibatch_loss alpha_coef_adpt server_params prev_grads_ b m with
      | Raise e => (m, opt, Raise e)
      | Ok loss =>
          let mo := optimizer_step opt
                      (minibatch_loss alpha_coef_adpt server_params prev_grads_ b) m in
          train_batches alpha_coef_adpt server_params prev_grads_ bs'
                        (fst mo) (snd mo) (running_loss + loss)
      end
  end.

(** [for _ in range(epochs)]: [e] is the number of the epoch, [n] the number
    of epochs still to run. *)
Fixpoint train_epochs (alpha_coef_adpt : scalar) (server_params : vec)
  (prev_grads_ : option vec) (ts : FastDataLoader Batch) (n e : nat)
  (m : nnModule) (opt : OptState) (running_loss : scalar)
  : nnModule * OptState * result scalar :=
  match n with
  | O => (m, opt, Ok running_loss)
  | S n' =>
      match train_batches alpha_coef_adpt server_params prev_grads_
                          (epoch_batches ts e) m opt running_loss with
      | (m', opt', Ok rl) =>
          train_epochs alpha_coef_adpt server_params prev_grads_ ts n' (S e)
                       m' (scheduler_step opt') rl
      | r => r
      end
  end.

(** Lines 171-172: the update of [prev_grads] after training. *)
Definition update_prev_grads (alpha_coef_adpt : scalar) (server_params : vec)
  (prev_grads_ : option vec) (m : nnModule) : result vec :=
  curr_params <- to_device (get_all_params_of m true) ;;
  d <- vsub server_params curr_params ;;
  pg <- match prev_grads_ with Some g => Ok g | None => Raise TypeError end ;;
  vadd pg (vscale alpha_coef_adpt d).

(** [FedDynClient.fit(override_local_epochs)]: the client as the call leaves
    it, and the returned loss or the exception raised. *)
Definition fit (self : Client) (override_local_epochs : Z) : Client * result scalar :=
  let epochs := if (0 <? override_local_epochs)%Z
                then override_local_epochs else local_epochs self in
  match model self with
  | None => (self, Raise AttributeError)
  | Some m =>
  match weight self with
  | None => (self, Raise TypeError)
  | Some w =>
  let alpha_coef_adpt := alpha self / w in
  match to_device (get_all_params_of m true) with
  | Raise e => (self, Raise e)
  | Ok server_params =>
  let m1 := set_requires_grad m in
  let opt := match optimizer self with
             | Some o => o
             | None => optimizer_cfg m1 (alpha_coef_adpt + weight_decay self)
             end in
  let '(m2, opt2, trained) :=
    train_epochs alpha_coef_adpt server_params (prev_grads self) (train_set self)
                 (Z.to_nat epochs) 0%nat m1 opt 0 in
  let self2 := with_optimizer (with_model self (Some m2)) (Some opt2) in
  match trained with
  | Raise e => (self2, Raise e)
  | Ok running_loss =>
  match update_prev_grads alpha_coef_adpt server_params (prev_grads self) m2 with
  | Raise e => (self2, Raise e)
  | Ok pg' =>
      let self3 := with_prev_grads self2 (Some pg') in
      let n := (epochs * Z.of_nat (len_ (train_set self)))%Z in
      if (n =? 0)%Z then (self3, Raise ZeroDivisionError)
      else (self3, Ok (running_loss / Q2Qc (inject_Z n)))
  end end end end end.

Record Server : Type := mkServer {
  clients : list Client;
  channel : Channel;
  smodel : nnModule;               (* self.model *)
  cld_mdl : nnModule;
  lr : scalar;                     (* hyper_params.lr *)
  weighted : bool                  (* hyper_params.weighted *)
}.

(** [FedDynServer.__init__], on the server [base] that [super().__init__] has
    built: [cld_mdl] starts as a deep copy of the model. *)
Definition Server__init__ (base : Server) : Server :=
  mkServer (clients base) (channel base) (smodel base) (smodel base) (lr base)
           (weighted base).

(** [FedDynServer.broadcast_model]. *)
Definition broadcast_model (self : Server) (eligible : list Client) : Server :=
  mkServer (clients self)
           (broadcast (mkMessage (PModels (smodel self) (cld_mdl self)) "model" ServerId)
                      (map index eligible) (channel self))
           (smodel self) (cld_mdl self) (lr self) (weighted self).

Definition count_to_scalar (n : nat) : scalar := Q2Qc (inject_Z (Z.of_nat n)).

(** Line 213: [weights / np.sum(weights) * self.n_clients]. *)
Definition normalize_weights (counts : list nat) (n_clients : nat) : list scalar :=
  let total := vsum (map count_to_scalar counts) in
  map (fun c => count_to_scalar c / total * count_to_scalar n_clients) counts.

(** Lines 207-212: the counts received from the clients, in their order. *)
Definition receive_counts (cs : list Client) (ch : Channel) : result (list nat * Channel) :=
  for_each cs
    (fun st client =>
       r <- receive ServerId (ClientId (index client)) "weight" (snd st) ;;
       match payload (fst r) with
       | PCount n => Ok (fst st ++ [n], snd r)
       | _ => Raise TypeError
       end)
    ([], ch).

(** Lines 215-216. *)
Fixpoint send_weights (cs : list Client) (weights : list scalar) (i : nat) (ch : Channel)
  : result Channel :=
  match cs with
  | [] => Ok ch
  | client :: cs' =>
      match nth_error weights i with
      | Some w =>
          send_weights cs' weights (S i)
            (send (mkMessage (PWeight w) "weight" ServerId) (ClientId (index client)) ch)
      | None => Raise IndexError
      end
  end.

(** Lines 218-219. *)
Definition receive_all_weights (cs : list Client) (ch : Channel)
  : result (list Client * Channel) :=
  for_each cs
    (fun st client =>
       r <- _receive_weights client (snd st) ;;
       Ok (fst st ++ [fst r], snd r))
    ([], ch).

(** Lines 203-219: the weight exchange. *)
Definition weight_exchange (self : Server) : result Server :=
  let ch1 := fold_left (fun ch client => _send_weight client ch) (clients self)
                       (channel self) in
  r2 <- receive_counts (clients self) ch1 ;;
  let weights := normalize_weights (fst r2) (length (clients self)) in
  ch3 <- send_weights (clients self) weights 0%nat (snd r2) ;;
  r4 <- receive_all_weights (clients self) ch3 ;;
  Ok (mkServer (fst r4) (snd r4) (smodel self) (cld_mdl self) (lr self) (weighted self)).

(** Modelled from the spec: [Server._get_client_weights] of the base class,
    which is not part of the sources at hand.  The weights are
    weighted-average weights: sample-count-proportional in "weighted" mode,
    else uniform [1/N], over the eligible clients; this is how the spec
    describes them at the same call in [FedAVGMServer.aggregate].  What is
    proved of [FedDynServer.aggregate] below (the gradients it collects, the
    cloud model, what it leaves untouched) does not depend on the values of
    these weights. *)
Definition _get_client_weights (self : Server) (eligible : list Client) : list scalar :=
  if weighted self
  then let tot_ex := vsum (map (fun c => count_to_scalar (tensors0_shape0 (train_set c)))
                               eligible) in
       map (fun c => count_to_scalar (tensors0_shape0 (train_set c)) / tot_ex) eligible
  else map (fun _ => 1 / count_to_scalar (length eligible)) eligible.

(** The weighted sum [sum_i weight_i * (client_model_i[key] - v)]. *)
Fixpoint weighted_delta (k : string) (v : Tensor.t)
  (cms : list nnModule) (weights : list scalar) (acc : Tensor.t) : result Tensor.t :=
  match cms, weights with
  | cm :: cms', w :: weights' =>
      c <- od_lookup (state_dict cm) k ;;
      d <- Tensor.sub c v ;;
      acc' <- Tensor.add acc (Tensor.scale w d) ;;
      weighted_delta k v cms' weights' acc'
  | [], _ => Ok acc
  | _ :: _, [] => Raise IndexError
  end.

(** Modelled from the spec: [aggregate_models] of fluke/utils/model.py, which
    is not part of the sources at hand, called with [inplace=False].  Per
    parameter, [agg = model + lr * sum_i weight_i * (client_model_i - model)];
    the other entries are those of the target model. *)
Definition aggregate_models (target : nnModule) (models : list nnModule)
  (weights : list scalar) (eta : scalar) : result nnModule :=
  map_result
    (fun e =>
       match knd e with
       | KParameter _ =>
           delta <- weighted_delta (key e) (value e) models weights
                      (Tensor.scale 0 (value e)) ;;
           v <- Tensor.add (value e) (Tensor.scale eta delta) ;;
           Ok (mkEntry (key e) (knd e) v)
       | KBuffer => Ok e
       end) target.

(** Lines 230-239: the state is [(avg_grad, grad_count)] and the channel. *)
Definition collect_grads (eligible : list Client) (ch : Channel)
  : result (option vec * nat * Channel) :=
  for_each eligible
    (fun st client =>
       let '(avg_grad, grad_count, ch0) := st in
       r <- receive ServerId (ClientId (index client)) "grads" ch0 ;;
       match payload (fst r) with
       | PGrads None => Ok (avg_grad, grad_count, snd r)
       | PGrads (Some pg) =>
           match avg_grad with
           | None => Ok (Some pg, S grad_count, snd r)
           | Some a => s <- vadd a pg ;; Ok (Some s, S grad_count, snd r)
           end
       | _ => Raise TypeError
       end)
    (None, 0%nat, ch).

(** Lines 241-242: [if grad_count > 0: avg_grad /= grad_count]. *)
Definition mean_grad (avg_grad : option vec) (grad_count : nat) : option vec :=
  if Nat.ltb 0 grad_count
  then option_map (fun a => vdiv_scalar a (count_to_scalar grad_count)) avg_grad
  else avg_grad.

(** Lines 245-249: the new cloud model. *)
Definition reconstruct_cloud (cld : nnModule) (m : nnModule) (avg_grad : option vec)
  : result nnModule :=
  flat <- to_device (get_all_params_of m true) ;;
  ag <- to_device avg_grad ;;
  v <- vadd flat ag ;;
  load_all_params cld (Some v).

(** [FedDynServer.aggregate(eligible, client_models)]. *)
Definition aggregate (self : Server) (eligible : list Client) (client_models : list nnModule)
  : result Server :=
  let weights := _get_client_weights self eligible in
  agg <- aggregate_models (smodel self) client_models weights (lr self) ;;
  let agg_model_sd := state_dict agg in
  g <- collect_grads eligible (channel self) ;;
  let avg_grad := mean_grad (fst (fst g)) (snd (fst g)) in
  m' <- load_state_dict (smodel self) agg_model_sd true ;;
  cld' <- reconstruct_cloud (cld_mdl self) m' avg_grad ;;
  Ok (mkServer (clients self) (snd g) m' cld' (lr self) (weighted self)).

(** *** The rounds *)

(** The choice of the clients of a round, which the base class makes at
    random: whether the client of this [index] takes part in round [rnd] of a
    run with this [eligible_perc]. *)
Variable selected : nat -> scalar -> nat -> bool.

(** Modelled from the spec: [Server.get_eligible_clients] of the base class,
    which is not part of the sources at hand (the round-orchestration loop
    selects the eligible clients). *)
Definition get_eligible_clients (cs : list Client) (rnd : nat) (eligible_perc : scalar)
  : list Client :=
  filter (fun c => selected rnd eligible_perc (index c)) cs.

(** Modelled from the spec: [Client.local_update] of the base class, which is
    not part of the sources at hand.  In a round a client receives the model
    ([receive_model]), trains locally ([fit], with its own number of epochs)
    and sends back its model and its gradient surrogate ([send_model]); an
    exception of the training aborts the round.  [_send_weight] and
    [_receive_weights] are not called here: [FedDynServer.fit] calls them
    itself (lines 204-205 and 218-219). *)
Definition local_update (self : Client) (ch : Channel) : result (Client * Channel) :=
  r <- receive_model self ch ;;
  match fit (fst r) 0%Z with
  | (c, Ok _) => Ok (c, send_model c (snd r))
  | (_, Raise e) => Raise e
  end.

(** Modelled from the spec: the loop of [Server.fit] of the base class over
    the eligible clients of a round, which is not part of the sources at
    hand: their local updates, one after the other.  The clients are objects
    that the server and the list of eligible clients share, so [cs] is the
    server's list and the result is that list with the eligible clients as
    their updates leave them. *)
Fixpoint local_updates (cs : list Client) (rnd : nat) (eligible_perc : scalar)
  (ch : Channel) : result (list Client * Channel) :=
  match cs with
  | [] => Ok ([], ch)
  | c :: cs' =>
      if selected rnd eligible_perc (index c)
      then r <- local_update c ch ;;
           r' <- local_updates cs' rnd eligible_perc (snd r) ;;
           Ok (fst r :: fst r', snd r')
      else r' <- local_updates cs' rnd eligible_perc ch ;;
           Ok (c :: fst r', snd r')
  end.

(** Modelled from the spec: [Server.get_client_models] of the base class,
    which is not part of the sources at hand.  The server receives the model
    message of every eligible client, in their order; a model that is [None]
    has no state to aggregate. *)
Definition get_client_models (eligible : list Client) (ch : Channel)
  : result (list nnModule * Channel) :=
  for_each eligible
    (fun st client =>
       r <- receive ServerId (ClientId (index client)) "model" (snd st) ;;
       match payload (fst r) with
       | PModel (Some m) => Ok (fst st ++ [m], snd r)
       | PModel None => Raise AttributeError
       | _ => Raise TypeError
       end)
    ([], ch).

(** Modelled from the spec: one round of [Server.fit] of the base class, which
    is not part of the sources at hand.  The server broadcasts the global and
    the cloud model to the eligible clients, each eligible client trains
    locally and sends back its model and its gradient surrogate, and the
    server aggregates. *)
Definition round (self : Server) (rnd : nat) (eligible_perc : scalar) : result Server :=
  let eligible := get_eligible_clients (clients self) rnd eligible_perc in
  let s1 := broadcast_model self eligible in
  r2 <- local_updates (clients s1) rnd eligible_perc (channel s1) ;;
  let eligible2 := get_eligible_clients (fst r2) rnd eligible_perc in
  r3 <- get_client_models eligible2 (snd r2) ;;
  aggregate (mkServer (fst r2) (snd r3) (smodel s1) (cld_mdl s1) (lr s1) (weighted s1))
            eligible2 (fst r3).

(** Modelled from the spec: [Server.fit(n_rounds, eligible_perc)] of the base
    class, which is not part of the sources at hand: [n_rounds] rounds, one
    after the other; [rnd] is the number of the next round.  The loop is the
    one of every algorithm of the framework; what [FedDynServer.fit] adds to
    it, the weight exchange, is in [server_fit] below. *)
Fixpoint Server_fit (self : Server) (n_rounds : nat) (rnd : nat) (eligible_perc : scalar)
  : result Server :=
  match n_rounds with
  | O => Ok self
  | S n => s <- round self rnd eligible_perc ;; Server_fit s n (S rnd) eligible_perc
  end.

(** [FedDynServer.fit(n_rounds, eligible_perc)]: the weight exchange of lines
    203-219, then [super().fit(n_rounds, eligible_perc)]. *)
Definition server_fit (self : Server) (n_rounds : nat) (eligible_perc : scalar)
  : result Server :=
  s1 <- weight_exchange self ;;
  Server_fit s1 n_rounds 0%nat eligible_perc.

End Algorithm.

End FedDyn.

(* ================================================================== *)
(** * Theorems *)

Unset Implicit Arguments.

(** ** Generic facts: the error monad, dictionaries, vectors *)

Lemma bind_Ok_inv {A B : Type} (m : result A) (k : A -> result B) (b : B) :
  bind m k = Ok b -> exists a, m = Ok a /\ k a = Ok b.
Proof.
  destruct m as [a|e]; simpl; intros H; [eauto | discriminate].
Qed.

Lemma od_get_notin {V : Type} (d : OrderedDict V) (k : string) :
  ~ In k (od_keys d) -> od_get d k = None.
Proof.
  induction d as [|[k' v] d IH]; simpl; intros H; [reflexivity|].
  destruct (String.eqb_spec k' k) as [->|Hne].
  - exfalso; apply H; now left.
  - apply IH; intros Hin; apply H; now right.
Qed.

Lemma od_get_app_notin {V : Type} (d1 d2 : OrderedDict V) (k : string) :
  ~ In k (od_keys d1) -> od_get (d1 ++ d2) k = od_get d2 k.
Proof.
  induction d1 as [|[k' v] d1 IH]; simpl; intros H; [reflexivity|].
  destruct (String.eqb_spec k' k) as [->|Hne].
  - exfalso; apply H; now left.
  - apply IH; intros Hin; apply H; now right.
Qed.

Lemma od_get_in_nodup {V : Type} (d : OrderedDict V) (k : string) (v : V) :
  NoDup (od_keys d) -> In (k, v) d -> od_get d k = Some v.
Proof.
  induction d as [|[k' v'] d IH]; simpl; intros Hnd Hin; [contradiction|].
  inversion Hnd as [|? ? Hnotin Hnd']; subst.
  destruct Hin as [Heq|Hin].
  - inversion Heq; subst. now rewrite String.eqb_refl.
  - destruct (String.eqb_spec k' k) as [->|Hne].
    + exfalso; apply Hnotin. unfold od_keys. apply in_map_iff. now exists (k, v).
    + now apply IH.
Qed.

Lemma shape_eqb_refl (s : list nat) : Tensor.shape_eqb s s = true.
Proof.
  unfold Tensor.shape_eqb. destruct (list_eq_dec Nat.eq_dec s s); congruence.
Qed.

Lemma shape_eqb_eq (s1 s2 : list nat) : Tensor.shape_eqb s1 s2 = true -> s1 = s2.
Proof.
  unfold Tensor.shape_eqb. destruct (list_eq_dec Nat.eq_dec s1 s2); congruence.
Qed.

Lemma zip_with_length (f : scalar -> scalar -> scalar) (a b : vec) :
  length a = length b -> length (zip_with f a b) = length a.
Proof.
  revert b; induction a as [|x a IH]; intros [|y b]; simpl; intros H; try reflexivity; try discriminate.
  f_equal. apply IH. now injection H.
Qed.

(* ------------------------------------------------------------------ *)
(** ** feddyn.py: [get_all_params_of] and [load_all_params] *)

(** The concatenation that [get_all_params_of] builds. *)
Definition flat_trainable (ps : list Param) : vec :=
  concat (map (fun p => Tensor.flat (pdata p)) (filter requires_grad_of ps)).

Lemma get_all_params_loop_some (ps : list Param) (copy : bool) (r : vec) :
  FedDyn.get_all_params_loop ps copy (Some r) = Some (r ++ flat_trainable ps).
Proof.
  revert r; induction ps as [|p ps IH]; intros r; simpl.
  - unfold flat_trainable; simpl. now rewrite app_nil_r.
  - unfold flat_trainable; simpl.
    destruct (requires_grad_of p); simpl.
    + destruct copy; rewrite IH; unfold flat_trainable, Tensor.clone_detach;
        now rewrite <- app_assoc.
    + apply IH.
Qed.

Lemma get_all_params_loop_none (ps : list Param) (copy : bool) :
  FedDyn.get_all_params_loop ps copy None =
  match filter requires_grad_of ps with
  | [] => None
  | _ :: _ => Some (flat_trainable ps)
  end.
Proof.
  induction ps as [|p ps IH]; simpl; [reflexivity|].
  unfold flat_trainable; simpl.
  destruct (requires_grad_of p); simpl.
  - destruct copy; now rewrite get_all_params_loop_some.
  - exact IH.
Qed.

Lemma flat_trainable_length (ps : list Param) :
  Forall (fun p => Tensor.wf (pdata p)) ps ->
  length (flat_trainable ps) =
  fold_right Nat.add 0%nat
    (map (fun p => Tensor.numel_of (Tensor.shape (pdata p))) (filter requires_grad_of ps)).
Proof.
  induction 1 as [|p ps Hp _ IH]; [reflexivity|].
  unfold flat_trainable in *; simpl.
  destruct (requires_grad_of p); simpl; [|exact IH].
  rewrite length_app, IH. unfold Tensor.flat. now rewrite Hp.
Qed.

(** What [load_all_params] computes, by recursion on the entries: each
    trainable parameter takes the next [numel] elements of the vector. *)
Fixpoint unflat_params (nps : OrderedDict Param) (v : vec) : OrderedDict Param :=
  match nps with
  | [] => []
  | (k, p) :: nps' =>
      if requires_grad_of p
      then let n := length (Tensor.data (pdata p)) in
           (k, mkParam true (Tensor.mk (Tensor.shape (pdata p)) (firstn n v)))
             :: unflat_params nps' (skipn n v)
      else (k, p) :: unflat_params nps' v
  end.

Fixpoint unflatten (m : nnModule) (v : vec) : nnModule :=
  match m with
  | [] => []
  | e :: m' =>
      match knd e with
      | KParameter true =>
          let n := length (Tensor.data (value e)) in
          mkEntry (key e) (knd e) (Tensor.mk (Tensor.shape (value e)) (firstn n v))
            :: unflatten m' (skipn n v)
      | _ => e :: unflatten m' v
      end
  end.

Lemma named_parameters_unflatten (m : nnModule) (v : vec) :
  named_parameters (unflatten m v) = unflat_params (named_parameters m) v.
Proof.
  revert v; induction m as [|e m IH]; intros v; simpl; [reflexivity|].
  destruct (knd e) as [[|]|] eqn:Hk; simpl; rewrite ?Hk; simpl; now rewrite IH.
Qed.

Lemma unflat_params_keys (nps : OrderedDict Param) (v : vec) :
  od_keys (unflat_params nps v) = od_keys nps.
Proof.
  revert v; induction nps as [|[k p] nps IH]; intros v; simpl; [reflexivity|].
  destruct (requires_grad_of p); simpl; now rewrite IH.
Qed.

Lemma copy_into_app (d1 d2 : OrderedDict Param) (k : string) (p : Param) (t : Tensor.t) :
  ~ In k (od_keys d1) ->
  FedDyn.copy_into (d1 ++ (k, p) :: d2) k t =
  (v <- copy_ (pdata p) t ;; Ok (d1 ++ (k, mkParam (requires_grad_of p) v) :: d2)).
Proof.
  induction d1 as [|[k' p'] d1 IH]; simpl; intros H.
  - now rewrite String.eqb_refl.
  - destruct (String.eqb_spec k' k) as [->|Hne].
    + exfalso; apply H; now left.
    + rewrite IH by (intros Hin; apply H; now right).
      destruct (copy_ (pdata p) t); reflexivity.
Qed.

Definition trainable_len (nps : OrderedDict Param) : nat :=
  length (flat_trainable (map snd nps)).

Lemma trainable_len_cons (k : string) (p : Param) (nps : OrderedDict Param) :
  trainable_len ((k, p) :: nps) =
  if requires_grad_of p
  then (length (Tensor.data (pdata p)) + trainable_len nps)%nat
  else trainable_len nps.
Proof.
  unfold trainable_len, flat_trainable; simpl.
  destruct (requires_grad_of p); simpl; [|reflexivity].
  now rewrite length_app.
Qed.

(** The loop of [load_all_params], started at any point of the iteration. *)
Lemma load_loop_spec (v : vec) (todo done : OrderedDict Param) (idx : nat) :
  NoDup (od_keys (done ++ todo)) ->
  Forall (fun np => Tensor.wf (pdata (snd np))) todo ->
  (idx + trainable_len todo <= length v)%nat ->
  for_each todo (FedDyn.load_step (Some v)) (done ++ todo, idx) =
  Ok (done ++ unflat_params todo (skipn idx v), (idx + trainable_len todo)%nat).
Proof.
  revert done idx; induction todo as [|[k p] todo IH]; intros done idx Hnd Hwf Hlen.
  - simpl. unfold trainable_len; simpl. now rewrite Nat.add_0_r.
  - rewrite trainable_len_cons in *.
    inversion Hwf as [|? ? Hp Hwf']; subst; simpl in Hp.
    cbn [for_each FedDyn.load_step unflat_params].
    destruct (requires_grad_of p) eqn:Hrg; cbn [negb].
    + cbn [bind FedDyn.tensor_slice]. unfold py_slice, Tensor.flat.
      replace (idx + length (Tensor.data (pdata p)) - idx)%nat
        with (length (Tensor.data (pdata p))) by lia.
      set (n := length (Tensor.data (pdata p))) in *.
      assert (Hsl : length (firstn n (skipn idx v)) = n).
      { rewrite length_firstn, length_skipn. lia. }
      unfold Tensor.reshape. rewrite Hsl.
      replace (Nat.eqb n (Tensor.numel_of (Tensor.shape (pdata p)))) with true
        by (symmetry; apply Nat.eqb_eq; exact Hp).
      cbn [bind].
      rewrite copy_into_app.
      2:{ unfold od_keys in Hnd. rewrite map_app in Hnd. simpl in Hnd.
          apply NoDup_remove_2 in Hnd. intros Hin; apply Hnd.
          apply in_or_app; now left. }
      unfold copy_; cbn [Tensor.shape Tensor.data]. rewrite shape_eqb_refl. cbn [bind].
      rewrite Hrg.
      specialize (IH (done ++ [(k, mkParam true
                        (Tensor.mk (Tensor.shape (pdata p)) (firstn n (skipn idx v))))])
                     (idx + n)%nat).
      rewrite <- !app_assoc in IH. simpl in IH.
      etransitivity; [apply IH|].
      * unfold od_keys in *. rewrite map_app in *. simpl in *. exact Hnd.
      * exact Hwf'.
      * lia.
      * rewrite skipn_skipn. rewrite (Nat.add_comm n idx). f_equal. f_equal. lia.
    + cbn [bind].
      specialize (IH (done ++ [(k, p)]) idx).
      rewrite <- !app_assoc in IH. simpl in IH.
      apply IH; assumption.
Qed.

(** With no trainable parameter the loop never reads [params]. *)
Lemma load_loop_frozen (params : option vec) (todo : OrderedDict Param)
  (st : OrderedDict Param * nat) :
  filter requires_grad_of (map snd todo) = [] ->
  for_each todo (FedDyn.load_step params) st = Ok st.
Proof.
  revert st; induction todo as [|[k p] todo IH]; intros [d idx] H; [reflexivity|].
  simpl in H. simpl. destruct (requires_grad_of p); [discriminate|]. simpl.
  now apply IH.
Qed.

Lemma named_parameters_keys_incl (m : nnModule) (k : string) :
  In k (od_keys (named_parameters m)) -> In k (keys_of m).
Proof.
  induction m as [|e m IH]; simpl; [tauto|].
  destruct (knd e); simpl; intuition.
Qed.

Lemma named_parameters_nodup (m : nnModule) :
  NoDup (keys_of m) -> NoDup (od_keys (named_parameters m)).
Proof.
  induction m as [|e m IH]; simpl; intros H; [constructor|].
  inversion H as [|? ? Hnotin Hnd]; subst.
  destruct (knd e); simpl; [|now apply IH].
  constructor; [|now apply IH].
  intros Hin; apply Hnotin. now apply named_parameters_keys_incl.
Qed.

Lemma named_parameters_in (m : nnModule) (e : entry) (rg : bool) :
  In e m -> knd e = KParameter rg ->
  In (key e, mkParam rg (value e)) (named_parameters m).
Proof.
  induction m as [|e' m IH]; simpl; intros Hin Hk; [contradiction|].
  destruct Hin as [->|Hin].
  - rewrite Hk. now left.
  - destruct (knd e'); [right|]; now apply IH.
Qed.

Lemma named_parameters_key_kind (m : nnModule) (k : string) :
  In k (od_keys (named_parameters m)) ->
  exists e rg, In e m /\ key e = k /\ knd e = KParameter rg.
Proof.
  induction m as [|e m IH]; simpl; [tauto|].
  destruct (knd e) as [rg|] eqn:Hk; simpl.
  - intros [<-|Hin].
    + exists e, rg. auto.
    + destruct (IH Hin) as (e' & rg' & ? & ? & ?). exists e', rg'. auto.
  - intros Hin. destruct (IH Hin) as (e' & rg' & ? & ? & ?). exists e', rg'. auto.
Qed.

Lemma key_injective (m : nnModule) (e1 e2 : entry) :
  NoDup (keys_of m) -> In e1 m -> In e2 m -> key e1 = key e2 -> e1 = e2.
Proof.
  induction m as [|e m IH]; simpl; intros Hnd H1 H2 Hk; [contradiction|].
  inversion Hnd as [|? ? Hnotin Hnd']; subst.
  destruct H1 as [->|H1], H2 as [->|H2]; auto.
  - exfalso; apply Hnotin. rewrite Hk. now apply in_map.
  - exfalso; apply Hnotin. rewrite <- Hk. now apply in_map.
Qed.

Definition tensors_of (d : OrderedDict Param) : OrderedDict Tensor.t :=
  map (fun np => (fst np, pdata (snd np))) d.

Lemma tensors_of_keys (d : OrderedDict Param) : od_keys (tensors_of d) = od_keys d.
Proof.
  unfold od_keys, tensors_of. rewrite map_map. reflexivity.
Qed.

(** The look-up of a module's own entry in the state of its parameters. *)
Lemma od_get_own_parameters (m : nnModule) (e : entry) :
  NoDup (keys_of m) -> In e m ->
  od_get (tensors_of (named_parameters m)) (key e) =
  match knd e with
  | KParameter _ => Some (value e)
  | KBuffer => None
  end.
Proof.
  intros Hnd Hin. destruct (knd e) as [rg|] eqn:Hk.
  - apply od_get_in_nodup.
    + rewrite tensors_of_keys. now apply named_parameters_nodup.
    + unfold tensors_of. apply in_map_iff.
      exists (key e, mkParam rg (value e)). split; [reflexivity|].
      now apply named_parameters_in.
  - apply od_get_notin. rewrite tensors_of_keys. intros Hin'.
    destruct (named_parameters_key_kind _ _ Hin') as (e' & rg & He' & Hkey & Hkind).
    assert (e' = e) by (eapply key_injective; eauto). subst e'. congruence.
Qed.

(** One architecture, and the buffers are the same. *)
Definition same_layout (e e2 : entry) : Prop :=
  key e2 = key e /\ knd e2 = knd e /\
  Tensor.shape (value e2) = Tensor.shape (value e) /\
  (knd e = KBuffer -> e2 = e).

(** Loading the parameters of [m2] without [strict] into a module of the same
    layout yields [m2]. *)
Lemma load_entries_of (m2 l l2 : nnModule) :
  NoDup (keys_of m2) -> Forall2 same_layout l l2 -> incl l2 m2 ->
  map_result
    (fun e =>
       match od_get (tensors_of (named_parameters m2)) (key e) with
       | Some v => v' <- copy_ (value e) v ;; Ok (mkEntry (key e) (knd e) v')
       | None => Ok e
       end) l = Ok l2.
Proof.
  intros Hnd HF; induction HF as [|e e2 l l2 (Hkey & Hknd & Hsh & Hbuf) _ IH];
    intros Hincl; [reflexivity|].
  cbn [map_result].
  assert (Hin2 : In e2 m2) by (apply Hincl; now left).
  rewrite <- Hkey, (od_get_own_parameters m2 e2 Hnd Hin2), Hknd.
  rewrite IH by (intros x Hx; apply Hincl; now right).
  destruct (knd e) as [rg|] eqn:Hk.
  - unfold copy_. rewrite <- Hsh, shape_eqb_refl. cbn [bind].
    do 2 f_equal. destruct e2 as [k2 kd2 [sh2 d2]]; simpl in *. congruence.
  - cbn [bind]. now rewrite (Hbuf eq_refl).
Qed.

Lemma load_state_dict_parameters (m m2 : nnModule) :
  NoDup (keys_of m2) -> Forall2 same_layout m m2 ->
  load_state_dict m (tensors_of (named_parameters m2)) false = Ok m2.
Proof.
  intros Hnd HF. unfold load_state_dict.
  rewrite (load_entries_of _ _ _ Hnd HF) by apply incl_refl. reflexivity.
Qed.

Lemma unflatten_layout (m : nnModule) (v : vec) :
  Forall2 same_layout m (unflatten m v).
Proof.
  revert v; induction m as [|e m IH]; intros v; simpl; [constructor|].
  destruct (knd e) as [[|]|] eqn:Hk; constructor; try apply IH;
    unfold same_layout; simpl; rewrite ?Hk; repeat split; auto; discriminate.
Qed.

Lemma unflatten_keys (m : nnModule) (v : vec) : keys_of (unflatten m v) = keys_of m.
Proof.
  revert v; induction m as [|e m IH]; intros v; simpl; [reflexivity|].
  destruct (knd e) as [[|]|]; simpl; now rewrite IH.
Qed.

Lemma wf_named_parameters (m : nnModule) :
  Forall (fun e => Tensor.wf (value e)) m ->
  Forall (fun np => Tensor.wf (pdata (snd np))) (named_parameters m).
Proof.
  induction 1 as [|e m He _ IH]; simpl; [constructor|].
  destruct (knd e); [constructor|]; auto.
Qed.

(** [load_all_params] on a vector that is long enough: the structural
    reading. *)
Lemma load_all_params_unflatten (m : nnModule) (v : vec) :
  wf_module m ->
  (trainable_len (named_parameters m) <= length v)%nat ->
  FedDyn.load_all_params m (Some v) = Ok (unflatten m v).
Proof.
  intros [Hnd Hwf] Hlen. unfold FedDyn.load_all_params.
  pose proof (load_loop_spec v (named_parameters m) [] 0%nat) as Hloop.
  simpl in Hloop. unfold OrderedDict in *.
  rewrite Hloop; auto using named_parameters_nodup, wf_named_parameters.
  cbn [bind fst]. rewrite <- named_parameters_unflatten.
  apply load_state_dict_parameters.
  - now rewrite unflatten_keys.
  - apply unflatten_layout.
Qed.

Lemma firstn_length_app {A : Type} (a b : list A) : firstn (length a) (a ++ b) = a.
Proof.
  induction a; simpl; congruence.
Qed.

Lemma skipn_length_app {A : Type} (a b : list A) : skipn (length a) (a ++ b) = b.
Proof.
  induction a; simpl; congruence.
Qed.

Lemma unflatten_flat (m : nnModule) (rest : vec) :
  unflatten m (flat_trainable (parameters m) ++ rest) = m.
Proof.
  induction m as [|e m IH]; simpl; [reflexivity|].
  unfold parameters in *.
  destruct e as [k kd [sh d]]; simpl.
  destruct kd as [[|]|]; simpl.
  - unfold flat_trainable in *; simpl. unfold Tensor.flat at 1; simpl.
    rewrite <- !app_assoc, firstn_length_app, skipn_length_app.
    now rewrite IH.
  - unfold flat_trainable in *; simpl. now rewrite IH.
  - now rewrite IH.
Qed.

Lemma same_layout_refl (m : nnModule) : Forall2 same_layout m m.
Proof.
  induction m; constructor; auto. unfold same_layout; auto.
Qed.

(* ------------------------------------------------------------------ *)
(** ** fedavgm.py: tensors and dictionaries, element by element *)

Lemma Qc_plus_0_0 : Qcplus 0 0 = 0.
Proof. ring. Qed.

Lemma Qc_minus_0_0 : Qcminus 0 0 = 0.
Proof. ring. Qed.

(** [t] has the shape of [g] and is well-formed. *)
Definition like (g t : Tensor.t) : Prop :=
  Tensor.shape t = Tensor.shape g /\ Tensor.wf t.

(** The element of [d[k]] at flat position [e] (0 when there is none). *)
Definition at_sd (d : OrderedDict Tensor.t) (k : string) (e : nat) : scalar :=
  match od_get d k with
  | Some t => Tensor.at_ t e
  | None => 0
  end.

Lemma nth_zip_with (f : scalar -> scalar -> scalar) (a b : vec) (e : nat) :
  length a = length b -> f 0 0 = 0 ->
  nth e (zip_with f a b) 0 = f (nth e a 0) (nth e b 0).
Proof.
  intros Hlen Hf. revert b e Hlen.
  induction a as [|x a IH]; intros [|y b] e Hlen; simpl in *; try discriminate.
  - destruct e; auto.
  - destruct e; [reflexivity|]. apply IH. now injection Hlen.
Qed.

Lemma like_refl (g : Tensor.t) : Tensor.wf g -> like g g.
Proof. now split. Qed.

Lemma bin_like (f : scalar -> scalar -> scalar) (g a b : Tensor.t) :
  f 0 0 = 0 -> like g a -> like g b ->
  exists t, Tensor.bin f a b = Ok t /\ like g t /\
            forall e, Tensor.at_ t e = f (Tensor.at_ a e) (Tensor.at_ b e).
Proof.
  intros Hf [Hsa Hwa] [Hsb Hwb]. unfold Tensor.bin.
  rewrite Hsa, Hsb, shape_eqb_refl.
  assert (Hlen : length (Tensor.data a) = length (Tensor.data b)).
  { unfold Tensor.wf in *. congruence. }
  eexists; split; [reflexivity|]. split.
  - split; [reflexivity|]. unfold Tensor.wf in *; simpl.
    rewrite zip_with_length by exact Hlen. congruence.
  - intros e. unfold Tensor.at_; simpl. now apply nth_zip_with.
Qed.

Lemma add_like (g a b : Tensor.t) :
  like g a -> like g b ->
  exists t, Tensor.add a b = Ok t /\ like g t /\
            forall e, Tensor.at_ t e = Tensor.at_ a e + Tensor.at_ b e.
Proof. apply bin_like, Qc_plus_0_0. Qed.

Lemma sub_like (g a b : Tensor.t) :
  like g a -> like g b ->
  exists t, Tensor.sub a b = Ok t /\ like g t /\
            forall e, Tensor.at_ t e = Tensor.at_ a e - Tensor.at_ b e.
Proof. apply bin_like, Qc_minus_0_0. Qed.

Lemma scale_like (c : scalar) (g a : Tensor.t) : like g a -> like g (Tensor.scale c a).
Proof.
  intros [Hs Hw]. split; [exact Hs|]. unfold Tensor.wf in *; simpl.
  now rewrite length_map.
Qed.

Lemma at_scale (c : scalar) (a : Tensor.t) (e : nat) :
  Tensor.at_ (Tensor.scale c a) e = c * Tensor.at_ a e.
Proof.
  unfold Tensor.at_, Tensor.scale; simpl.
  replace 0 with (c * 0) at 1 by ring. apply map_nth.
Qed.

Lemma like_trans (g h t : Tensor.t) : like g h -> like h t -> like g t.
Proof.
  intros [H1 _] [H2 H3]. split; congruence.
Qed.

Lemma od_get_set_same {V : Type} (d : OrderedDict V) (k : string) (v : V) :
  od_get (od_set d k v) k = Some v.
Proof.
  induction d as [|[k' v'] d IH]; simpl.
  - now rewrite String.eqb_refl.
  - destruct (String.eqb k' k) eqn:E; simpl; rewrite E; auto.
Qed.

Lemma od_get_set_other {V : Type} (d : OrderedDict V) (k k' : string) (v : V) :
  k <> k' -> od_get (od_set d k v) k' = od_get d k'.
Proof.
  intros Hne. induction d as [|[k0 v0] d IH]; simpl.
  - destruct (String.eqb_spec k k'); congruence.
  - destruct (String.eqb_spec k0 k) as [->|Hk]; simpl.
    + destruct (String.eqb_spec k k'); congruence.
    + destruct (String.eqb_spec k0 k'); auto.
Qed.

Lemma od_set_set {V : Type} (d : OrderedDict V) (k : string) (v1 v2 : V) :
  od_set (od_set d k v1) k v2 = od_set d k v2.
Proof.
  induction d as [|[k0 v0] d IH]; simpl.
  - now rewrite String.eqb_refl.
  - destruct (String.eqb k0 k) eqn:E; simpl; rewrite E; congruence.
Qed.

Lemma state_dict_get (g : nnModule) (e : entry) :
  NoDup (keys_of g) -> In e g -> od_get (state_dict g) (key e) = Some (value e).
Proof.
  intros Hnd Hin. apply od_get_in_nodup.
  - unfold od_keys, state_dict. rewrite map_map. exact Hnd.
  - unfold state_dict. apply in_map_iff. now exists e.
Qed.

(** A loop over distinct keys whose body stores one value under its key and
    reads the dictionary at that key only. *)
Lemma for_each_od_set {V : Type} (P : string -> V -> Prop)
  (body : OrderedDict V -> string -> result (OrderedDict V)) (d0 : OrderedDict V)
  (todo : list string) :
  forall d,
  NoDup todo ->
  (forall k, In k todo -> od_get d k = od_get d0 k) ->
  (forall d k, In k todo -> od_get d k = od_get d0 k ->
               exists t, body d k = Ok (od_set d k t) /\ P k t) ->
  exists d', for_each todo body d = Ok d' /\
             (forall k, In k todo -> exists t, od_get d' k = Some t /\ P k t) /\
             (forall k, ~ In k todo -> od_get d' k = od_get d k).
Proof.
  induction todo as [|k todo IH]; intros d Hnd Hd Hbody.
  - exists d. simpl. repeat split; auto. intros k [].
  - inversion Hnd as [|? ? Hnotin Hnd']; subst.
    destruct (Hbody d k (or_introl eq_refl) (Hd k (or_introl eq_refl))) as (t & Hb & HP).
    destruct (IH (od_set d k t) Hnd') as (d' & Hrun & Hin & Hout).
    + intros k' Hk'. rewrite od_get_set_other by (intros ->; contradiction).
      apply Hd. now right.
    + intros d1 k' Hk'. apply Hbody. now right.
    + exists d'. simpl. rewrite Hb. cbn [bind]. split; [exact Hrun|]. split.
      * intros k' [<-|Hk']; [|now apply Hin].
        exists t. split; [|exact HP]. rewrite (Hout k Hnotin). apply od_get_set_same.
      * intros k' Hk'. rewrite Hout by (intros H; apply Hk'; now right).
        apply od_get_set_other. intros ->. apply Hk'. now left.
Qed.

Lemma map_result_Forall2 {A B : Type} (R : A -> B -> Prop) (f : A -> result B) (l : list A) :
  (forall x, In x l -> exists y, f x = Ok y /\ R x y) ->
  exists l', map_result f l = Ok l' /\ Forall2 R l l'.
Proof.
  induction l as [|x l IH]; intros H.
  - exists []. split; [reflexivity|constructor].
  - destruct (H x (or_introl eq_refl)) as (y & Hy & HR).
    destruct IH as (l' & Hl' & HF); [intros z Hz; apply H; now right|].
    exists (y :: l'). simpl. rewrite Hy. cbn [bind]. rewrite Hl'. cbn [bind].
    split; [reflexivity|now constructor].
Qed.

Lemma od_lookup_some {V : Type} (d : OrderedDict V) (k : string) (v : V) :
  od_get d k = Some v -> od_lookup d k = Ok v.
Proof.
  unfold od_lookup. now intros ->.
Qed.

Lemma od_set_get_id {V : Type} (d : OrderedDict V) (k : string) (v : V) :
  od_get d k = Some v -> od_set d k v = d.
Proof.
  induction d as [|[k0 v0] d IH]; simpl; [discriminate|].
  destruct (String.eqb k0 k) eqn:E; intros H.
  - congruence.
  - now rewrite IH.
Qed.

Lemma skipn_nth_error {A : Type} (l : list A) (n : nat) (x : A) :
  nth_error l n = Some x -> skipn n l = x :: skipn (S n) l.
Proof.
  revert n; induction l as [|y l IH]; intros [|n]; simpl; try discriminate.
  - congruence.
  - intros H. now rewrite (IH n H).
Qed.

Lemma Forall2_in_l {A B : Type} (R : A -> B -> Prop) (l : list A) (l' : list B) (x : A) :
  Forall2 R l l' -> In x l -> exists y, In y l' /\ R x y.
Proof.
  induction 1 as [|a b l l' Hab _ IH]; simpl; [tauto|].
  intros [<-|Hin]; [exists b; auto|].
  destruct (IH Hin) as (y & ? & ?). exists y; auto.
Qed.

Lemma Forall2_in_r {A B : Type} (R : A -> B -> Prop) (l : list A) (l' : list B) (y : B) :
  Forall2 R l l' -> In y l' -> exists x, In x l /\ R x y.
Proof.
  induction 1 as [|a b l l' Hab _ IH]; simpl; [tauto|].
  intros [<-|Hin]; [exists a; auto|].
  destruct (IH Hin) as (x & ? & ?). exists x; auto.
Qed.

(* ------------------------------------------------------------------ *)
(** ** fedavgm.py: one call of [aggregate] *)

(** The weighted diff of a round at key [k], element [i]:
    [sum_c weight_c * (global[k][i] - client_c[k][i])]. *)
Definition weighted_diff_at (g : nnModule) (cs : list (OrderedDict Tensor.t))
  (ws : list scalar) (k : string) (i : nat) : scalar :=
  vsum (map (fun cw => snd cw * (at_sd (state_dict g) k i - at_sd (fst cw) k i))
            (combine cs ws)).

(** Every entry of the model has a tensor of its shape in [d]. *)
Definition dict_like (g : nnModule) (d : OrderedDict Tensor.t) : Prop :=
  forall e, In e g -> exists t, od_get d (key e) = Some t /\ like (value e) t.

Section FedAVGM_round.

Variable ignore : list string.

(** A client state of the architecture of [g]: it has every key that is not
    ignored, with the shape the server has. *)
Definition client_ok (g : nnModule) (c : OrderedDict Tensor.t) : Prop :=
  forall e, In e g -> FedAVGM.endswith_any (key e) ignore = false ->
  exists t, od_get c (key e) = Some t /\ like (value e) t.

Definition diff_of (g : nnModule) (c d : OrderedDict Tensor.t) : Prop :=
  forall e, In e g -> FedAVGM.endswith_any (key e) ignore = false ->
  exists t, od_get d (key e) = Some t /\ like (value e) t /\
            forall i, Tensor.at_ t i = Tensor.at_ (value e) i - at_sd c (key e) i.

Lemma diff_model_ok (g : nnModule) (c : OrderedDict Tensor.t) :
  wf_module g -> client_ok g c ->
  exists d, FedAVGM.diff_model ignore (state_dict g) c = Ok d /\ diff_of g c d.
Proof.
  induction g as [|e g IH]; intros [Hnd Hwf] Hok.
  - exists []. split; [reflexivity|]. intros e [].
  - inversion Hnd as [|? ? Hnotin Hnd']; inversion Hwf as [|? ? He Hwf']; subst.
    destruct IH as (d & Hd & Hdiff);
      [split; assumption | intros e' Hin; apply Hok; now right |].
    unfold FedAVGM.diff_model in *. simpl.
    destruct (FedAVGM.endswith_any (key e) ignore) eqn:E; simpl.
    + exists d. split; [exact Hd|].
      intros e' [<-|Hin] Hni; [congruence|now apply Hdiff].
    + destruct (Hok e (or_introl eq_refl) E) as (t & Ht & Hlike).
      rewrite (od_lookup_some _ _ _ Ht). cbn [bind].
      destruct (sub_like (value e) (value e) t) as (s & Hs & Hls & Hat);
        [now apply like_refl | exact Hlike |].
      rewrite Hs. cbn [bind]. rewrite Hd. cbn [bind].
      eexists; split; [reflexivity|].
      intros e' [<-|Hin] Hni.
      * exists s. simpl. rewrite String.eqb_refl. repeat split; try apply Hls.
        intros i. rewrite Hat. unfold at_sd. now rewrite Ht.
      * simpl. destruct (String.eqb_spec (key e) (key e')) as [Heq|Hne].
        -- exfalso. apply Hnotin. rewrite Heq. now apply in_map.
        -- now apply Hdiff.
Qed.

Lemma diffs_ok (g : nnModule) (cs : list (OrderedDict Tensor.t)) :
  wf_module g -> Forall (client_ok g) cs ->
  exists ds, map_result (FedAVGM.diff_model ignore (state_dict g)) cs = Ok ds /\
             Forall2 (diff_of g) cs ds.
Proof.
  intros Hwf Hcs. apply map_result_Forall2.
  intros c Hc. apply diff_model_ok; [exact Hwf|].
  rewrite Forall_forall in Hcs. now apply Hcs.
Qed.

(** The inner loop, once [avg_model_sd] has the key. *)
Lemma accumulate_loop (ws : list scalar) (k : string) (v : Tensor.t)
  (ds : list (OrderedDict Tensor.t)) :
  forall (n : nat) (avg : OrderedDict Tensor.t) (a : Tensor.t),
  od_get avg k = Some a -> like v a ->
  Forall (fun d => exists t, od_get d k = Some t /\ like v t) ds ->
  (n + length ds <= length ws)%nat ->
  exists a',
    for_each ds (FedAVGM.accumulate ws k) (avg, n) = Ok (od_set avg k a', (n + length ds)%nat) /\
    like v a' /\
    forall i, Tensor.at_ a' i =
              Tensor.at_ a i +
              vsum (map (fun dw => snd dw * at_sd (fst dw) k i) (combine ds (skipn n ws))).
Proof.
  induction ds as [|d ds IH]; intros n avg a Hget Hla Hds Hlen.
  - exists a. simpl. rewrite od_set_get_id by exact Hget. rewrite Nat.add_0_r.
    repeat split; try apply Hla. intros i. ring.
  - inversion Hds as [|? ? (t & Ht & Hlt) Hds']; subst. simpl in Hlen.
    destruct (nth_error ws n) as [w|] eqn:Hw.
    2:{ apply nth_error_None in Hw. lia. }
    destruct (add_like v a (Tensor.scale w t)) as (s & Hs & Hls & Hat);
      [exact Hla | now apply scale_like |].
    destruct (IH (S n) (od_set avg k s) s) as (a' & Hrun & Hla' & Hat');
      [apply od_get_set_same | exact Hls | exact Hds' | lia |].
    exists a'. split; [|split; [exact Hla'|]].
    + cbn [for_each FedAVGM.accumulate]. unfold FedAVGM.index_weights, od_lookup.
      rewrite Hw, Ht. cbn [bind]. rewrite Hget, Hs. cbn [bind].
      rewrite Hrun, od_set_set. simpl length. now rewrite Nat.add_succ_r.
    + intros i. rewrite Hat', Hat, at_scale, (skipn_nth_error _ _ _ Hw). simpl.
      unfold at_sd at 2. rewrite Ht. ring.
Qed.

Lemma average_key_not_ignored (g : nnModule) (e : entry)
  (ds : list (OrderedDict Tensor.t)) (ws : list scalar) (avg : OrderedDict Tensor.t) :
  FedAVGM.endswith_any (key e) ignore = false ->
  od_get avg (key e) = None ->
  ds <> [] -> (length ds <= length ws)%nat ->
  Forall (fun d => exists t, od_get d (key e) = Some t /\ like (value e) t) ds ->
  exists t,
    FedAVGM.average_key ignore (state_dict g) ds ws avg (key e) = Ok (od_set avg (key e) t) /\
    like (value e) t /\
    forall i, Tensor.at_ t i =
              vsum (map (fun dw => snd dw * at_sd (fst dw) (key e) i) (combine ds ws)).
Proof.
  intros Hni Hnone Hne Hlen Hds. unfold FedAVGM.average_key. rewrite Hni.
  destruct ds as [|d ds]; [congruence|].
  inversion Hds as [|? ? (t & Ht & Hlt) Hds']; subst. simpl in Hlen.
  destruct ws as [|w ws]; [simpl in Hlen; lia|]. simpl in Hlen.
  destruct (accumulate_loop (w :: ws) (key e) (value e) ds 1
              (od_set avg (key e) (Tensor.scale w t)) (Tensor.scale w t))
    as (a' & Hrun & Hla' & Hat');
    [apply od_get_set_same | now apply scale_like | exact Hds' | simpl; lia |].
  exists a'. split; [|split; [exact Hla'|]].
  - cbn [for_each FedAVGM.accumulate]. unfold FedAVGM.index_weights, od_lookup. simpl nth_error.
    rewrite Ht. cbn [bind]. rewrite Hnone. cbn [bind].
    rewrite Hrun. cbn [bind fst]. now rewrite od_set_set.
  - intros i. rewrite Hat', at_scale. simpl. unfold at_sd at 2. now rewrite Ht.
Qed.

Lemma diffs_sum (g : nnModule) (e : entry) (i : nat)
  (cs ds : list (OrderedDict Tensor.t)) :
  wf_module g -> In e g -> FedAVGM.endswith_any (key e) ignore = false ->
  Forall2 (diff_of g) cs ds ->
  forall ws,
  vsum (map (fun dw => snd dw * at_sd (fst dw) (key e) i) (combine ds ws)) =
  weighted_diff_at g cs ws (key e) i.
Proof.
  intros [Hnd _] Hin Hni HF. unfold weighted_diff_at.
  induction HF as [|c d cs ds Hcd _ IH]; intros ws; [reflexivity|].
  destruct ws as [|w ws]; [reflexivity|]. simpl. rewrite IH. f_equal.
  destruct (Hcd e Hin Hni) as (t & Ht & _ & Hat).
  unfold at_sd at 1. rewrite Ht, Hat.
  unfold at_sd at 2. now rewrite (state_dict_get g e Hnd Hin).
Qed.

(** Lines 65-79.  With at least one client, [avg_model_sd] holds, for every
    key of the server, a tensor of the server's shape: the server's own value
    under an ignored key, the weighted diff under any other. *)
Lemma average_model_ok (g : nnModule) (cs : list (OrderedDict Tensor.t)) (ws : list scalar) :
  wf_module g -> Forall (client_ok g) cs -> cs <> [] -> (length cs <= length ws)%nat ->
  exists avg,
    FedAVGM.average_model ignore g cs ws = Ok avg /\
    forall e, In e g ->
      exists t, od_get avg (key e) = Some t /\ like (value e) t /\
        (FedAVGM.endswith_any (key e) ignore = true -> t = value e) /\
        (FedAVGM.endswith_any (key e) ignore = false ->
         forall i, Tensor.at_ t i = weighted_diff_at g cs ws (key e) i).
Proof.
  intros Hwf Hcs Hne Hlen.
  destruct (diffs_ok g cs Hwf Hcs) as (ds & Hds & HF).
  unfold FedAVGM.average_model. rewrite Hds. cbn [bind].
  assert (Hlends : length ds = length cs) by (symmetry; eapply Forall2_length; eauto).
  set (P := fun (k : string) (t : Tensor.t) =>
              forall e, In e g -> key e = k ->
                like (value e) t /\
                (FedAVGM.endswith_any (key e) ignore = true -> t = value e) /\
                (FedAVGM.endswith_any (key e) ignore = false ->
                 forall i, Tensor.at_ t i = weighted_diff_at g cs ws (key e) i)).
  destruct (for_each_od_set P (FedAVGM.average_key ignore (state_dict g) ds ws) []
              (od_keys (state_dict g)) []) as (avg & Hrun & Hin & _).
  - unfold od_keys, state_dict. rewrite map_map. apply Hwf.
  - reflexivity.
  - intros d k Hk Hd. simpl in Hd.
    unfold od_keys, state_dict in Hk. rewrite map_map in Hk.
    apply in_map_iff in Hk. destruct Hk as (e & <- & He). cbn [fst] in *.
    destruct (FedAVGM.endswith_any (key e) ignore) eqn:E.
    + exists (value e). split.
      * unfold FedAVGM.average_key. rewrite E. unfold od_lookup.
        rewrite (state_dict_get g e (proj1 Hwf) He). reflexivity.
      * intros e' He' Hk'. assert (e' = e) by (eapply key_injective; eauto; apply Hwf).
        subst e'. split; [|split; [reflexivity | congruence]].
        apply like_refl. destruct Hwf as [_ Hwf']. rewrite Forall_forall in Hwf'. now apply Hwf'.
    + assert (Hds' : Forall (fun d => exists t, od_get d (key e) = Some t /\ like (value e) t) ds).
      { clear -HF He E. induction HF as [|c d' cs ds Hcd _ IH]; constructor; auto.
        destruct (Hcd e He E) as (t & ? & ? & _). exists t; auto. }
      assert (Hdne : ds <> []).
      { intros ->. destruct cs; [congruence|discriminate]. }
      destruct (average_key_not_ignored g e ds ws d E Hd Hdne ltac:(lia) Hds')
        as (t & Ht & Hlt & Hat).
      exists t. split; [exact Ht|].
      intros e' He' Hk'. assert (e' = e) by (eapply key_injective; eauto; apply Hwf).
      subst e'. split; [exact Hlt|]. split; [congruence|].
      intros _ i. rewrite Hat. now apply diffs_sum.
  - exists avg. split; [exact Hrun|].
    intros e He. destruct (Hin (key e)) as (t & Ht & HP).
    { unfold od_keys, state_dict. rewrite map_map. now apply in_map. }
    exists t. split; [exact Ht|]. now apply HP.
Qed.

End FedAVGM_round.

(** The momentum buffer at key [k], element [i]; an uninitialised buffer
    counts as 0. *)
Definition mom_at (mvo : option (OrderedDict Tensor.t)) (k : string) (i : nat) : scalar :=
  match mvo with
  | Some mv => at_sd mv k i
  | None => 0
  end.

Lemma in_keys_of (g : nnModule) (k : string) :
  In k (keys_of g) -> exists e, In e g /\ key e = k.
Proof.
  unfold keys_of. rewrite in_map_iff. intros (e & ? & ?). exists e; auto.
Qed.

(** Lines 81-87. *)
Lemma update_momentum_ok (mu : scalar) (g : nnModule)
  (mvo : option (OrderedDict Tensor.t)) (avg : OrderedDict Tensor.t) :
  wf_module g -> dict_like g avg ->
  (forall mv, mvo = Some mv -> dict_like g mv) ->
  exists mv',
    FedAVGM.update_momentum mu g mvo avg = Ok mv' /\ dict_like g mv' /\
    forall e, In e g -> forall i,
      at_sd mv' (key e) i = mu * mom_at mvo (key e) i + at_sd avg (key e) i.
Proof.
  intros Hwf Havg Hmv. destruct mvo as [mv|]; simpl.
  2:{ exists avg. repeat split; auto. intros e _ i. ring. }
  specialize (Hmv mv eq_refl).
  set (P := fun (k : string) (t : Tensor.t) =>
              forall e, In e g -> key e = k ->
                like (value e) t /\
                forall i, Tensor.at_ t i = mu * at_sd mv k i + at_sd avg k i).
  destruct (for_each_od_set P
              (fun mv0 key_ =>
                 old <- od_lookup mv0 key_ ;;
                 a <- od_lookup avg key_ ;;
                 s <- Tensor.add (Tensor.scale mu old) a ;;
                 Ok (od_set mv0 key_ s)) mv
              (od_keys (state_dict g)) mv) as (mv' & Hrun & Hin & _).
  - unfold od_keys, state_dict. rewrite map_map. apply Hwf.
  - reflexivity.
  - intros d k Hk Hd.
    unfold od_keys, state_dict in Hk. rewrite map_map in Hk.
    apply in_map_iff in Hk. destruct Hk as (e & <- & He). cbn [fst] in *.
    destruct (Hmv e He) as (told & Htold & Hlold).
    destruct (Havg e He) as (ta & Hta & Hla).
    destruct (add_like (value e) (Tensor.scale mu told) ta) as (s & Hs & Hls & Hat);
      [now apply scale_like | exact Hla |].
    exists s. split.
    + rewrite Htold in Hd. rewrite (od_lookup_some _ _ _ Hd). cbn [bind].
      rewrite (od_lookup_some _ _ _ Hta). cbn [bind]. rewrite Hs. reflexivity.
    + intros e' He' Hk'. assert (e' = e) by (eapply key_injective; eauto; apply Hwf).
      subst e'. split; [exact Hls|]. intros i.
      rewrite Hat, at_scale. unfold at_sd. now rewrite Htold, Hta.
  - exists mv'. split; [exact Hrun|]. split.
    + intros e He. destruct (Hin (key e)) as (t & Ht & HP).
      { unfold od_keys, state_dict. rewrite map_map. now apply in_map. }
      exists t. split; [exact Ht|]. now apply (HP e He).
    + intros e He i. destruct (Hin (key e)) as (t & Ht & HP).
      { unfold od_keys, state_dict. rewrite map_map. now apply in_map. }
      unfold mom_at. unfold at_sd at 1. rewrite Ht. now apply (HP e He).
Qed.

(** What lines 89-90 do to one entry. *)
Definition step_rel (mv : OrderedDict Tensor.t) (e e' : entry) : Prop :=
  key e' = key e /\ knd e' = knd e /\ like (value e) (value e') /\
  match knd e with
  | KParameter _ =>
      forall i, Tensor.at_ (value e') i = Tensor.at_ (value e) i - at_sd mv (key e) i
  | KBuffer => e' = e
  end.

Lemma apply_momentum_ok (g : nnModule) (mv : OrderedDict Tensor.t) :
  wf_module g -> dict_like g mv ->
  exists g', FedAVGM.apply_momentum g mv = Ok g' /\ Forall2 (step_rel mv) g g'.
Proof.
  intros [Hnd Hwf] Hmv. apply map_result_Forall2.
  intros e He. rewrite Forall_forall in Hwf. specialize (Hwf e He).
  destruct (knd e) as [rg|] eqn:Hk.
  - destruct (Hmv e He) as (t & Ht & Hlt).
    destruct (sub_like (value e) (value e) t) as (s & Hs & Hls & Hat);
      [now apply like_refl | exact Hlt |].
    eexists. rewrite (od_lookup_some _ _ _ Ht). cbn [bind]. rewrite Hs. cbn [bind].
    split; [reflexivity|]. unfold step_rel; simpl. rewrite Hk.
    repeat split; try apply Hls. intros i. rewrite Hat. unfold at_sd. now rewrite Ht.
  - exists e. split; [reflexivity|]. unfold step_rel. rewrite Hk.
    repeat split; auto.
Qed.

(** The architecture is kept: names, kinds and shapes. *)
Definition arch_rel (e e' : entry) : Prop :=
  key e' = key e /\ knd e' = knd e /\ like (value e) (value e').

Lemma arch_rel_keys (g g' : nnModule) :
  Forall2 arch_rel g g' -> keys_of g' = keys_of g.
Proof.
  induction 1 as [|e e' g g' (Hk & _) _ IH]; simpl; congruence.
Qed.

Lemma arch_rel_param_keys (g g' : nnModule) :
  Forall2 arch_rel g g' ->
  od_keys (named_parameters g') = od_keys (named_parameters g).
Proof.
  induction 1 as [|e e' g g' (Hk & Hkd & _) _ IH]; simpl; [reflexivity|].
  rewrite Hkd. destruct (knd e); simpl; congruence.
Qed.

Lemma arch_rel_wf (g g' : nnModule) :
  Forall2 arch_rel g g' -> wf_module g -> wf_module g'.
Proof.
  intros HF [Hnd _]. split.
  - now rewrite (arch_rel_keys _ _ HF).
  - clear Hnd. induction HF as [|e e' g g' (_ & _ & _ & Hw) _ IH]; constructor; auto.
Qed.

Lemma arch_rel_dict_like (g g' : nnModule) (d : OrderedDict Tensor.t) :
  Forall2 arch_rel g g' -> dict_like g d -> dict_like g' d.
Proof.
  intros HF Hd e' He'.
  destruct (Forall2_in_r _ _ _ _ HF He') as (e & He & Hk & _ & Hs & _).
  destruct (Hd e He) as (t & Ht & Hst & Hwt).
  exists t. rewrite Hk. split; [exact Ht|]. split; congruence.
Qed.

Lemma step_rel_arch (mv : OrderedDict Tensor.t) (g g' : nnModule) :
  Forall2 (step_rel mv) g g' -> Forall2 arch_rel g g'.
Proof.
  induction 1 as [|e e' g g' (? & ? & ? & _) _ IH]; constructor; auto.
  unfold arch_rel; auto.
Qed.

Section FedAVGM_run.

Variable ignore : list string.

Lemma arch_rel_client_ok (g g' : nnModule) (c : OrderedDict Tensor.t) :
  Forall2 arch_rel g g' -> client_ok ignore g c -> client_ok ignore g' c.
Proof.
  intros HF Hc e' He' Hni.
  destruct (Forall2_in_r _ _ _ _ HF He') as (e & He & Hk & _ & Hs & _).
  rewrite Hk in *. destruct (Hc e He Hni) as (t & Ht & Hst & Hwt).
  exists t. split; [exact Ht|]. split; congruence.
Qed.

(** The server invariant: a well-formed model, and a momentum buffer (once
    there is one) with a tensor of the right shape under every key. *)
Definition srv_ok (s : FedAVGM.Server) : Prop :=
  wf_module (FedAVGM.model s) /\
  forall mv, FedAVGM.momentum_vector s = Some mv -> dict_like (FedAVGM.model s) mv.

(** A round the server can aggregate: at least one client, a weight for each,
    and client states of the server's architecture. *)
Definition round_ok (g : nnModule) (r : list (OrderedDict Tensor.t) * list scalar) : Prop :=
  Forall (client_ok ignore g) (fst r) /\ fst r <> [] /\
  (length (fst r) <= length (snd r))%nat.

(** One call of [aggregate]. *)
Definition step_spec (s : FedAVGM.Server)
  (r : list (OrderedDict Tensor.t) * list scalar) (s' : FedAVGM.Server) : Prop :=
  srv_ok s' /\
  Forall2 arch_rel (FedAVGM.model s) (FedAVGM.model s') /\
  FedAVGM.hyper_momentum s' = FedAVGM.hyper_momentum s /\
  FedAVGM.momentum_vector s' <> None /\
  (forall k, In k (keys_of (FedAVGM.model s)) ->
     FedAVGM.endswith_any k ignore = false ->
     forall i, mom_at (FedAVGM.momentum_vector s') k i =
               FedAVGM.hyper_momentum s * mom_at (FedAVGM.momentum_vector s) k i +
               weighted_diff_at (FedAVGM.model s) (fst r) (snd r) k i) /\
  (forall k, In k (od_keys (named_parameters (FedAVGM.model s))) ->
     forall i, at_sd (state_dict (FedAVGM.model s')) k i =
               at_sd (state_dict (FedAVGM.model s)) k i -
               mom_at (FedAVGM.momentum_vector s') k i) /\
  (forall e, In e (FedAVGM.model s) -> knd e = KBuffer -> In e (FedAVGM.model s')).

Lemma step_rel_param_at (mv : OrderedDict Tensor.t) (g g' : nnModule) (k : string) (i : nat) :
  NoDup (keys_of g) -> Forall2 (step_rel mv) g g' ->
  In k (od_keys (named_parameters g)) ->
  at_sd (state_dict g') k i = at_sd (state_dict g) k i - at_sd mv k i.
Proof.
  intros Hnd HF Hk.
  destruct (named_parameters_key_kind _ _ Hk) as (e & rg & He & <- & Hkd).
  destruct (Forall2_in_l _ _ _ _ HF He) as (e' & He' & Hk' & _ & _ & Hat).
  rewrite Hkd in Hat.
  assert (Hnd' : NoDup (keys_of g')).
  { now rewrite (arch_rel_keys _ _ (step_rel_arch _ _ _ HF)). }
  unfold at_sd at 1 2.
  rewrite (state_dict_get g e Hnd He), <- Hk', (state_dict_get g' e' Hnd' He').
  rewrite Hat. now rewrite Hk'.
Qed.

Lemma aggregate_step (s : FedAVGM.Server) (r : list (OrderedDict Tensor.t) * list scalar) :
  srv_ok s -> round_ok (FedAVGM.model s) r ->
  exists s', FedAVGM.aggregate ignore s (fst r) (snd r) = Ok s' /\ step_spec s r s'.
Proof.
  intros [Hwf Hmv] (Hcs & Hne & Hlen).
  destruct (average_model_ok ignore _ _ _ Hwf Hcs Hne Hlen) as (avg & Havg & Hspec).
  assert (Hlike : dict_like (FedAVGM.model s) avg).
  { intros e He. destruct (Hspec e He) as (t & Ht & Hl & _). exists t; auto. }
  destruct (update_momentum_ok (FedAVGM.hyper_momentum s) _ _ _ Hwf Hlike Hmv)
    as (mv' & Hupd & Hlike' & Hmom).
  destruct (apply_momentum_ok _ _ Hwf Hlike') as (g' & Happ & HF).
  pose proof (step_rel_arch _ _ _ HF) as Harch.
  exists (FedAVGM.mkServer g' (Some mv') (FedAVGM.hyper_momentum s)).
  unfold FedAVGM.aggregate. rewrite Havg. cbn [bind]. rewrite Hupd. cbn [bind].
  rewrite Happ. cbn [bind]. split; [reflexivity|].
  unfold step_spec, srv_ok; simpl. repeat split.
  - now rewrite (arch_rel_keys _ _ Harch); apply Hwf.
  - eapply arch_rel_wf; eauto.
  - intros mv [= <-]. eapply arch_rel_dict_like; eauto.
  - exact Harch.
  - discriminate.
  - intros k Hk Hni i. destruct (in_keys_of _ _ Hk) as (e & He & <-).
    rewrite (Hmom e He i). f_equal.
    destruct (Hspec e He) as (t & Ht & _ & _ & Hd).
    unfold at_sd at 1. rewrite Ht. now apply Hd.
  - intros k Hk i. apply step_rel_param_at; auto. apply Hwf.
  - intros e He Hk.
    destruct (Forall2_in_l _ _ _ _ HF He) as (e' & He' & _ & _ & _ & Hsame).
    rewrite Hk in Hsame. now subst e'.
Qed.

End FedAVGM_run.

(* ------------------------------------------------------------------ *)
(** ** fedavgm.py: the momentum recurrence over a run of rounds *)

(** [sum_{j=1..k} mu^(k-j) * d_j] for [ds = [d_1; ...; d_k]]. *)
Definition momentum_sum (mu : scalar) (ds : list scalar) : scalar :=
  vsum (map (fun j => mu ^ (length ds - 1 - j) * nth j ds 0) (seq 0 (length ds))).

Lemma momentum_sum_cons (mu d : scalar) (ds : list scalar) :
  momentum_sum mu (d :: ds) = mu ^ (length ds) * d + momentum_sum mu ds.
Proof.
  unfold momentum_sum. cbn [length seq map vsum fold_right nth].
  rewrite Nat.sub_0_r. replace (S (length ds) - 1)%nat with (length ds) by lia.
  f_equal. rewrite <- seq_shift, map_map. unfold vsum. f_equal.
  apply map_ext_in. intros j Hj. apply in_seq in Hj.
  replace (length ds - S j)%nat with (length ds - 1 - j)%nat by lia. reflexivity.
Qed.

Lemma momentum_sum_one (mu d : scalar) : momentum_sum mu [d] = d.
Proof.
  rewrite momentum_sum_cons. unfold momentum_sum. simpl. ring.
Qed.

(** The weighted diffs [d_1, d_2, ...] of a run at key [k], element [i]:
    round [j] is diffed against the global model it starts from. *)
Definition diffs_at (s0 : FedAVGM.Server) (hist : list FedAVGM.Server)
  (rounds : list (list (OrderedDict Tensor.t) * list scalar)) (k : string) (i : nat)
  : list scalar :=
  map (fun sr => weighted_diff_at (FedAVGM.model (fst sr)) (fst (snd sr)) (snd (snd sr)) k i)
      (combine (s0 :: hist) rounds).

Lemma diffs_at_length (s0 : FedAVGM.Server) (hist : list FedAVGM.Server)
  (rounds : list (list (OrderedDict Tensor.t) * list scalar)) (k : string) (i : nat) :
  length hist = length rounds -> length (diffs_at s0 hist rounds k i) = length rounds.
Proof.
  intros H. unfold diffs_at. rewrite length_map, length_combine. cbn [length]. lia.
Qed.

Lemma diffs_at_cons (s s1 : FedAVGM.Server) (hist : list FedAVGM.Server)
  (r : list (OrderedDict Tensor.t) * list scalar)
  (rest : list (list (OrderedDict Tensor.t) * list scalar)) (k : string) (i : nat) :
  diffs_at s (s1 :: hist) (r :: rest) k i =
  weighted_diff_at (FedAVGM.model s) (fst r) (snd r) k i :: diffs_at s1 hist rest k i.
Proof. reflexivity. Qed.

Section FedAVGM_history.

Variable ignore : list string.

Lemma round_ok_arch (g g' : nnModule) (r : list (OrderedDict Tensor.t) * list scalar) :
  Forall2 arch_rel g g' -> round_ok ignore g r -> round_ok ignore g' r.
Proof.
  intros HF (Hcs & Hne & Hlen). repeat split; auto.
  eapply Forall_impl; [|exact Hcs]. intros c. now apply arch_rel_client_ok.
Qed.

(** A run from any server state: the momentum buffer after round [n+1]. *)
Lemma run_spec (rounds : list (list (OrderedDict Tensor.t) * list scalar)) :
  forall s,
  srv_ok s -> Forall (round_ok ignore (FedAVGM.model s)) rounds ->
  exists hist,
    FedAVGM.run ignore s rounds = Ok hist /\ length hist = length rounds /\
    forall n, (n < length rounds)%nat ->
      FedAVGM.momentum_vector (nth n hist s) <> None /\
      (forall k, In k (keys_of (FedAVGM.model s)) ->
         FedAVGM.endswith_any k ignore = false ->
         forall i,
           mom_at (FedAVGM.momentum_vector (nth n hist s)) k i =
           FedAVGM.hyper_momentum s ^ (S n) * mom_at (FedAVGM.momentum_vector s) k i +
           momentum_sum (FedAVGM.hyper_momentum s)
             (firstn (S n) (diffs_at s hist rounds k i))) /\
      (forall k, In k (od_keys (named_parameters (FedAVGM.model s))) ->
         forall i,
           at_sd (state_dict (FedAVGM.model (nth n hist s))) k i =
           at_sd (state_dict (FedAVGM.model (nth n (s :: hist) s))) k i -
           mom_at (FedAVGM.momentum_vector (nth n hist s)) k i).
Proof.
  induction rounds as [|r rest IH]; intros s Hs Hrs.
  - exists []. simpl. repeat split; auto; lia.
  - inversion Hrs as [|? ? Hr Hrest]; subst.
    destruct (aggregate_step ignore s r Hs Hr) as (s1 & Hagg & Hs1 & Harch & Hmu & Hsome & Hmom & Hpar & _).
    destruct (IH s1 Hs1) as (hist & Hrun & Hlen & Hn).
    { eapply Forall_impl; [|exact Hrest]. intros r'. now apply round_ok_arch. }
    exists (s1 :: hist). cbn [FedAVGM.run]. rewrite Hagg. cbn [bind]. rewrite Hrun. cbn [bind].
    split; [reflexivity|]. split; [simpl; congruence|].
    intros [|n] Hlt.
    + cbn [nth]. split; [exact Hsome|]. split.
      * intros k Hk Hni i. rewrite (Hmom k Hk Hni i).
        rewrite diffs_at_cons, firstn_cons. cbn [firstn].
        rewrite momentum_sum_one. simpl. ring.
      * intros k Hk i. now apply Hpar.
    + simpl in Hlt. assert (Hlt' : (n < length rest)%nat) by lia.
      destruct (Hn n Hlt') as (Hsome' & Hmom' & Hpar').
      assert (Hnth : nth n hist s = nth n hist s1) by (apply nth_indep; lia).
      cbn [nth]. rewrite Hnth. split; [exact Hsome'|]. split.
      * intros k Hk Hni i.
        rewrite Hmom' by (rewrite ?(arch_rel_keys _ _ Harch); auto).
        rewrite Hmu, (Hmom k Hk Hni i).
        rewrite diffs_at_cons, (firstn_cons (S n)).
        rewrite momentum_sum_cons, length_firstn, diffs_at_length by exact Hlen.
        replace (Nat.min (S n) (length rest)) with (S n) by lia.
        simpl Qcpower. ring.
      * intros k Hk i.
        rewrite Hpar' by (rewrite ?(arch_rel_param_keys _ _ Harch); auto).
        replace (nth n (s1 :: hist) s1) with (nth n (s1 :: hist) s)
          by (apply nth_indep; simpl; lia).
        reflexivity.
Qed.

End FedAVGM_history.

(** C1.  A server that has not aggregated yet runs any sequence of rounds
    (each with at least one client, a weight per client, and client states of
    the server's architecture).  After round [n+1], at every key that is not
    ignored and every element, the momentum buffer is
    [sum_{j=1..n+1} mu^(n+1-j) * d_j], where [d_j] is the weighted diff of
    round [j] against the global model that round started from; after the
    first round it is the first weighted diff itself; and every named
    parameter of the global model is, in each round, its previous value minus
    the momentum buffer. *)
Theorem fedavgm_momentum_closed_form (ignore : list string) (s0 : FedAVGM.Server)
  (rounds : list (list (OrderedDict Tensor.t) * list scalar)) :
  wf_module (FedAVGM.model s0) ->
  FedAVGM.momentum_vector s0 = None ->
  Forall (round_ok ignore (FedAVGM.model s0)) rounds ->
  exists hist,
    FedAVGM.run ignore s0 rounds = Ok hist /\ length hist = length rounds /\
    (forall n, (n < length rounds)%nat ->
       FedAVGM.momentum_vector (nth n hist s0) <> None /\
       (forall k, In k (keys_of (FedAVGM.model s0)) ->
          FedAVGM.endswith_any k ignore = false ->
          forall i,
            mom_at (FedAVGM.momentum_vector (nth n hist s0)) k i =
            momentum_sum (FedAVGM.hyper_momentum s0)
              (firstn (S n) (diffs_at s0 hist rounds k i))) /\
       (forall k, In k (od_keys (named_parameters (FedAVGM.model s0))) ->
          forall i,
            at_sd (state_dict (FedAVGM.model (nth n hist s0))) k i =
            at_sd (state_dict (FedAVGM.model (nth n (s0 :: hist) s0))) k i -
            mom_at (FedAVGM.momentum_vector (nth n hist s0)) k i)) /\
    (forall r rest, rounds = r :: rest ->
       forall k, In k (keys_of (FedAVGM.model s0)) ->
         FedAVGM.endswith_any k ignore = false ->
         forall i,
           mom_at (FedAVGM.momentum_vector (nth 0 hist s0)) k i =
           weighted_diff_at (FedAVGM.model s0) (fst r) (snd r) k i).
Proof.
  intros Hwf Hnone Hrs.
  destruct (run_spec ignore rounds s0) as (hist & Hrun & Hlen & Hn); auto.
  { split; [exact Hwf|]. intros mv Hmv. congruence. }
  assert (Hclosed : forall n, (n < length rounds)%nat ->
            forall k, In k (keys_of (FedAVGM.model s0)) ->
            FedAVGM.endswith_any k ignore = false ->
            forall i,
              mom_at (FedAVGM.momentum_vector (nth n hist s0)) k i =
              momentum_sum (FedAVGM.hyper_momentum s0)
                (firstn (S n) (diffs_at s0 hist rounds k i))).
  { intros n Hlt k Hk Hni i. destruct (Hn n Hlt) as (_ & Hmom & _).
    rewrite (Hmom k Hk Hni i), Hnone. simpl mom_at. ring. }
  exists hist. split; [exact Hrun|]. split; [exact Hlen|]. split.
  - intros n Hlt. destruct (Hn n Hlt) as (Hsome & _ & Hpar). auto.
  - intros r rest -> k Hk Hni i.
    rewrite (Hclosed 0%nat) by (simpl; auto; lia).
    destruct hist as [|s1 hist]; [discriminate|].
    rewrite diffs_at_cons, firstn_cons. cbn [firstn]. apply momentum_sum_one.
Qed.

Lemma nodupb_ok (l : list string) : nodupb l = true -> NoDup l.
Proof.
  induction l as [|k l IH]; simpl; intros H; [constructor|].
  apply andb_prop in H. destruct H as [H1 H2]. constructor; [|now apply IH].
  intros Hin. apply negb_true_iff in H1.
  assert (existsb (String.eqb k) l = true); [|congruence].
  apply existsb_exists. exists k. split; [exact Hin | apply String.eqb_refl].
Qed.

Lemma wf_moduleb_ok (m : nnModule) : wf_moduleb m = true -> wf_module m.
Proof.
  unfold wf_moduleb, wf_module. intros H. apply andb_prop in H. destruct H as [H1 H2].
  split; [now apply nodupb_ok|].
  apply Forall_forall. intros e He. rewrite forallb_forall in H2.
  specialize (H2 e He). unfold Tensor.wfb in H2. now apply Nat.eqb_eq in H2.
Qed.

(** *** A run of two rounds: [mu = 0.9], [d_1 = 2], [d_2 = 3] *)

Definition ex_ignore : list string := ["running_mean"%string].

Definition ex_server : FedAVGM.Server :=
  FedAVGM.mkServer
    [ mkEntry "w" (KParameter true) (scalar_tensor (qc 10 1));
      mkEntry "bn.running_mean" KBuffer (scalar_tensor (qc 5 1)) ]
    None (qc 9 10).

Definition ex_client (w rm : scalar) : OrderedDict Tensor.t :=
  [ ("w"%string, scalar_tensor w); ("bn.running_mean"%string, scalar_tensor rm) ].

Definition ex_rounds : list (list (OrderedDict Tensor.t) * list scalar) :=
  [ ([ex_client (qc 8 1) (qc 7 1)], [qc 1 1]);
    ([ex_client (qc 5 1) (qc 1 1)], [qc 1 1]) ].

Lemma ex_round_ok (w rm : scalar) :
  round_ok ex_ignore (FedAVGM.model ex_server) ([ex_client w rm], [qc 1 1]).
Proof.
  split; [|split; [discriminate | simpl; lia]].
  constructor; [|constructor].
  intros e [<-|[<-|[]]] Hni.
  - exists (scalar_tensor w). split; [reflexivity|]. split; reflexivity.
  - vm_compute in Hni. discriminate.
Defined.

Lemma fedavgm_momentum_closed_form_witness :
  wf_module (FedAVGM.model ex_server) /\
  FedAVGM.momentum_vector ex_server = None /\
  Forall (round_ok ex_ignore (FedAVGM.model ex_server)) ex_rounds /\
  exists hist,
    FedAVGM.run ex_ignore ex_server ex_rounds = Ok hist /\
    mom_at (FedAVGM.momentum_vector (nth 1 hist ex_server)) "w" 0 =
    momentum_sum (qc 9 10) (firstn 2 (diffs_at ex_server hist ex_rounds "w" 0)).
Proof.
  assert (H1 : wf_module (FedAVGM.model ex_server)) by (apply wf_moduleb_ok; reflexivity).
  assert (H2 : FedAVGM.momentum_vector ex_server = None) by reflexivity.
  assert (H3 : Forall (round_ok ex_ignore (FedAVGM.model ex_server)) ex_rounds).
  { unfold ex_rounds.
    apply Forall_cons; [apply ex_round_ok|].
    apply Forall_cons; [apply ex_round_ok | apply Forall_nil]. }
  split; [exact H1|]. split; [exact H2|]. split; [exact H3|].
  destruct (fedavgm_momentum_closed_form ex_ignore ex_server ex_rounds H1 H2 H3)
    as (hist & Hrun & _ & Hn & _).
  exists hist. split; [exact Hrun|].
  destruct (Hn 1%nat) as (_ & Hmom & _); [simpl; lia|].
  apply Hmom; [simpl; auto | reflexivity].
Defined.

(** The values of the example: the momentum after round 2 is
    [0.9 * 2 + 3 = 4.8], and the parameter goes from 10 to 8 to [8 - 4.8]. *)
Example fedavgm_two_rounds_values :
  exists s1 s2,
    FedAVGM.run ex_ignore ex_server ex_rounds = Ok [s1; s2] /\
    mom_at (FedAVGM.momentum_vector s1) "w" 0 = qc 2 1 /\
    at_sd (state_dict (FedAVGM.model s1)) "w" 0 = qc 8 1 /\
    mom_at (FedAVGM.momentum_vector s2) "w" 0 = qc 24 5 /\
    at_sd (state_dict (FedAVGM.model s2)) "w" 0 = qc 16 5.
Proof.
  do 2 eexists. split; [reflexivity|].
  repeat split; apply Qc_is_canon; reflexivity.
Qed.

(* ------------------------------------------------------------------ *)
(** ** fedavgm.py: ignored keys *)

(** A model whose only entry is a trainable parameter with an ignored name. *)
Definition cx_server : FedAVGM.Server :=
  FedAVGM.mkServer
    [ mkEntry "bn.running_mean" (KParameter true) (scalar_tensor (qc 5 1)) ]
    None (qc 9 10).

Definition cx_client : OrderedDict Tensor.t :=
  [ ("bn.running_mean"%string, scalar_tensor (qc 7 1)) ].

(** C8, as stated, fails when an ignored key names a parameter: lines 89-90
    subtract the momentum buffer from every named parameter, and under an
    ignored key the buffer holds the server's own value, so the parameter
    goes from 5 to 0. *)
Lemma fedavgm_ignored_parameter_changes :
  FedAVGM.endswith_any "bn.running_mean" ex_ignore = true /\
  exists s',
    FedAVGM.aggregate ex_ignore cx_server [cx_client] [qc 1 1] = Ok s' /\
    at_sd (state_dict (FedAVGM.model cx_server)) "bn.running_mean" 0 = qc 5 1 /\
    at_sd (state_dict (FedAVGM.model s')) "bn.running_mean" 0 = qc 0 1 /\
    at_sd (state_dict (FedAVGM.model s')) "bn.running_mean" 0 <>
    at_sd (state_dict (FedAVGM.model cx_server)) "bn.running_mean" 0.
Proof.
  split; [reflexivity|].
  eexists. split; [reflexivity|]. split; [reflexivity|]. split.
  - apply Qc_is_canon. reflexivity.
  - intros H. apply (f_equal Qcanon.this) in H. vm_compute in H. discriminate.
Qed.

(** C8, amended.  In every aggregation, [avg_model_sd] holds under every
    ignored key the server's own value, whatever the clients hold there; and
    the global model's value under an ignored key that is a buffer (not a
    named parameter) is after the aggregation what it was before. *)
Theorem fedavgm_ignored_buffer_unchanged (ignore : list string) (s : FedAVGM.Server)
  (cs : list (OrderedDict Tensor.t)) (ws : list scalar) :
  srv_ok s -> round_ok ignore (FedAVGM.model s) (cs, ws) ->
  exists avg s',
    FedAVGM.average_model ignore (FedAVGM.model s) cs ws = Ok avg /\
    FedAVGM.aggregate ignore s cs ws = Ok s' /\
    forall e, In e (FedAVGM.model s) ->
      FedAVGM.endswith_any (key e) ignore = true ->
      od_get avg (key e) = Some (value e) /\
      (knd e = KBuffer ->
       od_get (state_dict (FedAVGM.model s')) (key e) = Some (value e)).
Proof.
  intros Hs Hr.
  destruct (aggregate_step ignore s (cs, ws) Hs Hr)
    as (s' & Hagg & (Hwf' & _) & _ & _ & _ & _ & _ & Hbuf).
  destruct Hr as (Hcs & Hne & Hlen). destruct Hs as [Hwf _].
  destruct (average_model_ok ignore _ _ _ Hwf Hcs Hne Hlen) as (avg & Havg & Hspec).
  exists avg, s'. split; [exact Havg|]. split; [exact Hagg|].
  intros e He Hig. split.
  - destruct (Hspec e He) as (t & Ht & _ & Heq & _). now rewrite Ht, (Heq Hig).
  - intros Hk. apply state_dict_get; [apply Hwf' | now apply Hbuf].
Qed.

Lemma fedavgm_ignored_buffer_unchanged_witness :
  srv_ok ex_server /\
  round_ok ex_ignore (FedAVGM.model ex_server) ([ex_client (qc 8 1) (qc 7 1)], [qc 1 1]) /\
  exists s',
    FedAVGM.aggregate ex_ignore ex_server [ex_client (qc 8 1) (qc 7 1)] [qc 1 1] = Ok s' /\
    od_get (state_dict (FedAVGM.model s')) "bn.running_mean" =
    Some (scalar_tensor (qc 5 1)).
Proof.
  assert (H1 : srv_ok ex_server).
  { split; [apply wf_moduleb_ok; reflexivity | intros mv Hmv; discriminate Hmv]. }
  pose proof (ex_round_ok (qc 8 1) (qc 7 1)) as H2.
  split; [exact H1|]. split; [exact H2|].
  destruct (fedavgm_ignored_buffer_unchanged ex_ignore ex_server _ _ H1 H2)
    as (avg & s' & _ & Hagg & Hframe).
  exists s'. split; [exact Hagg|].
  apply (Hframe (mkEntry "bn.running_mean" KBuffer (scalar_tensor (qc 5 1)))).
  - simpl; auto.
  - reflexivity.
  - reflexivity.
Defined.

(* ------------------------------------------------------------------ *)
(** ** feddyn.py: an example model for the round trip *)

Definition ex_model : nnModule :=
  [ mkEntry "fc.weight" (KParameter true)
      (Tensor.mk [2; 2]%nat [qc 1 1; qc 2 1; qc 3 1; qc 4 1]);
    mkEntry "fc.bias" (KParameter true) (Tensor.mk [2]%nat [qc 1 2; qc (-1) 2]);
    mkEntry "emb.weight" (KParameter false) (Tensor.mk [1; 3]%nat [qc 7 1; qc 8 1; qc 9 1]);
    mkEntry "bn.running_mean" KBuffer (scalar_tensor (qc 5 1)) ].

Example flatten_example :
  FedDyn.get_all_params_of ex_model true =
  Some [qc 1 1; qc 2 1; qc 3 1; qc 4 1; qc 1 2; qc (-1) 2] /\
  FedDyn.trainable_numel ex_model = 6%nat.
Proof. split; reflexivity. Qed.

(* ------------------------------------------------------------------ *)
(** ** feddyn.py: the client *)

(** The model has a trainable parameter. *)
Definition trainable_some (m : nnModule) : Prop :=
  filter requires_grad_of (parameters m) <> [].

(** No parameter of the model is frozen. *)
Definition all_trainable (m : nnModule) : Prop :=
  Forall (fun e => knd e <> KParameter false) m.

(** The flattened trainable parameters of a model. *)
Definition flat (m : nnModule) : vec := flat_trainable (parameters m).

Lemma flat_cons (e : entry) (m : nnModule) :
  flat (e :: m) =
  match knd e with
  | KParameter true => Tensor.data (value e) ++ flat m
  | _ => flat m
  end.
Proof.
  unfold flat, parameters, flat_trainable. simpl.
  destruct (knd e) as [[|]|]; reflexivity.
Qed.

Lemma get_all_params_of_some (m : nnModule) (copy : bool) :
  trainable_some m -> FedDyn.get_all_params_of m copy = Some (flat m).
Proof.
  unfold trainable_some, FedDyn.get_all_params_of, flat. intros H.
  rewrite get_all_params_loop_none.
  destruct (filter requires_grad_of (parameters m)); congruence.
Qed.

Lemma get_all_params_of_frozen (m : nnModule) (copy : bool) :
  filter requires_grad_of (parameters m) = [] -> FedDyn.get_all_params_of m copy = None.
Proof.
  unfold FedDyn.get_all_params_of. intros H.
  now rewrite get_all_params_loop_none, H.
Qed.

Lemma set_requires_grad_id (m : nnModule) :
  all_trainable m -> FedDyn.set_requires_grad m = m.
Proof.
  induction 1 as [|e m He _ IH]; simpl; [reflexivity|].
  rewrite IH. f_equal. destruct e as [k [[|]|] v]; simpl in *; congruence.
Qed.

Lemma flat_length (m : nnModule) :
  wf_module m -> length (flat m) = FedDyn.trainable_numel m.
Proof.
  intros [_ Hwf]. unfold flat, FedDyn.trainable_numel. apply flat_trainable_length.
  apply wf_named_parameters in Hwf. unfold parameters.
  clear -Hwf. induction Hwf; simpl; constructor; auto.
Qed.

Lemma arch_rel_parameters (m m' : nnModule) :
  Forall2 arch_rel m m' ->
  Forall2 (fun p p' => requires_grad_of p' = requires_grad_of p /\
                       Tensor.shape (pdata p') = Tensor.shape (pdata p))
          (parameters m) (parameters m').
Proof.
  unfold parameters.
  induction 1 as [|e e' m m' (_ & Hk & Hs & _) _ IH]; simpl; [constructor|].
  rewrite Hk. destruct (knd e); simpl; [constructor; simpl; auto | exact IH].
Qed.

Lemma arch_rel_trainable_numel (m m' : nnModule) :
  Forall2 arch_rel m m' -> FedDyn.trainable_numel m' = FedDyn.trainable_numel m.
Proof.
  intros H. apply arch_rel_parameters in H. unfold FedDyn.trainable_numel.
  induction H as [|p p' ps ps' (Hr & Hs) _ IH]; simpl; [reflexivity|].
  rewrite Hr. destruct (requires_grad_of p); simpl; congruence.
Qed.

Lemma arch_rel_trainable_some (m m' : nnModule) :
  Forall2 arch_rel m m' -> trainable_some m -> trainable_some m'.
Proof.
  intros H. apply arch_rel_parameters in H. unfold trainable_some.
  induction H as [|p p' ps ps' (Hr & Hs) _ IH]; simpl; [auto|].
  rewrite Hr. destruct (requires_grad_of p); simpl; [discriminate | exact IH].
Qed.

Lemma arch_rel_flat_length (m m' : nnModule) :
  Forall2 arch_rel m m' -> wf_module m -> length (flat m') = length (flat m).
Proof.
  intros H Hwf. rewrite !flat_length; auto using arch_rel_trainable_numel.
  eapply arch_rel_wf; eauto.
Qed.

Lemma arch_rel_refl (m : nnModule) : wf_module m -> Forall2 arch_rel m m.
Proof.
  intros [_ Hwf]. induction Hwf; constructor; auto.
  unfold arch_rel, like. auto.
Qed.

Lemma arch_rel_trans (m1 m2 m3 : nnModule) :
  Forall2 arch_rel m1 m2 -> Forall2 arch_rel m2 m3 -> Forall2 arch_rel m1 m3.
Proof.
  intros H; revert m3. induction H as [|e1 e2 m1 m2 (Hk & Hd & Hl) _ IH]; intros m3 H3.
  - inversion H3. constructor.
  - inversion H3 as [|? e3 ? m3' (Hk' & Hd' & Hl') H3']; subst.
    constructor; [|now apply IH].
    unfold arch_rel. repeat split; try congruence.
    + destruct Hl as [Hs _], Hl' as [Hs' _]. congruence.
    + apply Hl'.
Qed.

Lemma arch_rel_sym (g g' : nnModule) :
  wf_module g -> Forall2 arch_rel g g' -> Forall2 arch_rel g' g.
Proof.
  intros [_ Hwf] HF. induction HF as [|e e' g g' (Hk & Hkd & Hs & Hw) _ IH].
  - constructor.
  - inversion Hwf as [|? ? He Hwf']; subst. constructor; [|now apply IH].
    unfold arch_rel, like. auto.
Qed.

Lemma vbin_ok (f : scalar -> scalar -> scalar) (a b : vec) :
  length a = length b -> vbin f a b = Ok (zip_with f a b).
Proof.
  intros H. unfold vbin. now rewrite H, Nat.eqb_refl.
Qed.

Lemma vadd_ok (a b : vec) :
  length a = length b -> vadd a b = Ok (zip_with Qcplus a b).
Proof. apply vbin_ok. Qed.


Section FedDyn_client.

Variable Batch : Type.
Variable OptState : Type.
Variable loss_fn : nnModule -> Batch -> scalar.
Variable optimizer_cfg : nnModule -> scalar -> OptState.
Variable optimizer_step :
  OptState -> (nnModule -> result scalar) -> nnModule -> nnModule * OptState.
Variable scheduler_step : OptState -> OptState.





(** The optimizer changes values only: names, kinds and shapes stay. *)
Hypothesis optimizer_step_arch :
  forall opt f m, wf_module m -> Forall2 arch_rel m (fst (optimizer_step opt f m)).











End FedDyn_client.

(** *** A client for the example of the spec: [alpha = 0.1], [weight = 1],
    [server_params = [0, 0]], [prev_grads = [0, 0]], and a training that ends
    at [curr_params = [1, 1]] *)

(** An optimisation step that moves every parameter element to 1. *)
Definition ex_optimizer_step (opt : unit) (f : nnModule -> result scalar) (m : nnModule)
  : nnModule * unit :=
  (map (fun e => mkEntry (key e) (knd e)
                   (Tensor.mk (Tensor.shape (value e))
                              (map (fun _ => qc 1 1) (Tensor.data (value e))))) m,
   opt).


Definition ex_dyn_model : nnModule :=
  [ mkEntry "w" (KParameter true) (vector_tensor [qc 0 1; qc 0 1]) ].

Definition ex_dyn_client : FedDyn.Client unit unit :=
  FedDyn.mkClient 0 (FedDyn.mkLoader 4 (fun _ => [tt]) 1)
    (Some ex_dyn_model) (Some [qc 0 1; qc 0 1]) (Some (qc 1 1))
    (qc 1 10) 1%Z (qc 0 1) None.

Definition ex_fit : FedDyn.Client unit unit * result scalar :=
  FedDyn.fit (fun _ _ => qc 0 1) (fun _ _ => tt) ex_optimizer_step (fun o => o)
             ex_dyn_client 0%Z.

Lemma qc_1_neq_0 : qc 1 1 <> 0.
Proof.
  intros H. apply (f_equal Qcanon.this) in H. vm_compute in H. discriminate.
Qed.


(** The values of the example: [prev_grads] ends at [[-0.1, -0.1]]. *)
Example fit_example_values :
  exists self' out,
    ex_fit = (self', out) /\
    option_map (map Qcanon.this) (FedDyn.prev_grads self') =
    Some [(-1 # 10)%Q; (-1 # 10)%Q] /\
    option_map (map Qcanon.this) (option_map flat (FedDyn.model self')) =
    Some [(1 # 1)%Q; (1 # 1)%Q].
Proof.
  do 2 eexists. split; [reflexivity|]. split; reflexivity.
Qed.


(* ------------------------------------------------------------------ *)
(** ** feddyn.py: [get_all_params_of] on a model without trainable parameters *)

Lemma frozen_filter (ps : list Param) :
  Forall (fun p => requires_grad_of p = false) ps -> filter requires_grad_of ps = [].
Proof.
  induction 1 as [|p ps Hp _ IH]; simpl; [reflexivity|]. now rewrite Hp.
Qed.

Section FedDyn_frozen.

Variable Batch : Type.
Variable OptState : Type.
Variable loss_fn : nnModule -> Batch -> scalar.
Variable optimizer_cfg : nnModule -> scalar -> OptState.
Variable optimizer_step :
  OptState -> (nnModule -> result scalar) -> nnModule -> nnModule * OptState.
Variable scheduler_step : OptState -> OptState.

(** C10.  For a model none of whose parameters requires a gradient,
    [get_all_params_of] returns [None] (not an empty vector), and each caller
    raises on it: [receive_model] on the first model received ([zeros_like]
    of [None]), [fit] ([None.to(device)]), and the reconstruction of the
    cloud model in [aggregate]. *)
Theorem get_all_params_of_frozen_is_none (m : nnModule) :
  Forall (fun p => requires_grad_of p = false) (parameters m) ->
  (forall copy, FedDyn.get_all_params_of m copy = None) /\
  (forall (self : FedDyn.Client Batch OptState) ch msg ch' cld,
     FedDyn.model self = None ->
     FedDyn.receive (FedDyn.ClientId (FedDyn.index self)) FedDyn.ServerId "model" ch =
       Ok (msg, ch') ->
     FedDyn.payload msg = FedDyn.PModels m cld ->
     FedDyn.receive_model self ch = Raise TypeError) /\
  (forall (self : FedDyn.Client Batch OptState) override w,
     FedDyn.model self = Some m -> FedDyn.weight self = Some w ->
     FedDyn.fit loss_fn optimizer_cfg optimizer_step scheduler_step self override =
       (self, Raise AttributeError)) /\
  (forall cld avg_grad, FedDyn.reconstruct_cloud cld m avg_grad = Raise AttributeError).
Proof.
  intros Hfrozen. apply frozen_filter in Hfrozen.
  assert (Hnone : forall copy, FedDyn.get_all_params_of m copy = None).
  { intros copy. now apply get_all_params_of_frozen. }
  split; [exact Hnone|]. split; [|split].
  - intros self ch msg ch' cld Hm Hrecv Hpay.
    unfold FedDyn.receive_model. rewrite Hrecv. cbn [bind fst snd].
    rewrite Hpay, Hm, Hnone. reflexivity.
  - intros self override w Hm Hw. unfold FedDyn.fit. rewrite Hm, Hw, Hnone. reflexivity.
  - intros cld avg_grad. unfold FedDyn.reconstruct_cloud. rewrite Hnone. reflexivity.
Qed.

End FedDyn_frozen.

Definition ex_frozen_model : nnModule :=
  [ mkEntry "emb.weight" (KParameter false) (vector_tensor [qc 7 1; qc 8 1]);
    mkEntry "bn.running_mean" KBuffer (scalar_tensor (qc 5 1)) ].

Lemma get_all_params_of_frozen_is_none_witness :
  Forall (fun p => requires_grad_of p = false) (parameters ex_frozen_model) /\
  FedDyn.get_all_params_of ex_frozen_model true = None /\
  FedDyn.reconstruct_cloud ex_frozen_model ex_frozen_model (Some []) = Raise AttributeError.
Proof.
  assert (H : Forall (fun p => requires_grad_of p = false) (parameters ex_frozen_model))
    by (repeat constructor).
  split; [exact H|].
  destruct (get_all_params_of_frozen_is_none unit unit (fun _ _ => qc 0 1) (fun _ _ => tt)
              ex_optimizer_step (fun o => o) ex_frozen_model H) as (H1 & _ & _ & H4).
  split; [apply H1 | apply H4].
Defined.

(* ------------------------------------------------------------------ *)
(** ** feddyn.py: the weight exchange *)

Lemma count_to_scalar_zero (n : nat) : FedDyn.count_to_scalar n = 0 -> n = 0%nat.
Proof.
  unfold FedDyn.count_to_scalar. intros H.
  apply Q2Qc_eq_iff in H. unfold Qeq in H. simpl in H. lia.
Qed.

Lemma count_to_scalar_S (n : nat) :
  FedDyn.count_to_scalar (S n) = 1 + FedDyn.count_to_scalar n.
Proof.
  unfold FedDyn.count_to_scalar, Qcplus. apply Q2Qc_eq_iff.
  cbn [this Q2Qc]. rewrite !Qred_correct.
  rewrite Nat2Z.inj_succ, <- Z.add_1_l, inject_Z_plus.
  reflexivity.
Qed.

Lemma vsum_scaled {A : Type} (f : A -> scalar) (a b : scalar) (l : list A) :
  vsum (map (fun c => f c * a * b) l) = vsum (map f l) * a * b.
Proof.
  induction l as [|x l IH]; simpl; [ring|]. rewrite IH. ring.
Qed.

Lemma vsum_repeat {A : Type} (c : scalar) (l : list A) :
  vsum (map (fun _ => c) l) = FedDyn.count_to_scalar (length l) * c.
Proof.
  induction l as [|x l IH]; simpl length.
  - simpl. unfold FedDyn.count_to_scalar. simpl. apply Qc_is_canon. reflexivity.
  - rewrite count_to_scalar_S. simpl. rewrite IH. ring.
Qed.

(** The normalised weights sum to the number of clients. *)
Lemma normalize_weights_sum (counts : list nat) (n : nat) :
  vsum (map FedDyn.count_to_scalar counts) <> 0 ->
  vsum (FedDyn.normalize_weights counts n) = FedDyn.count_to_scalar n.
Proof.
  intros H. unfold FedDyn.normalize_weights, Qcdiv.
  rewrite (vsum_scaled FedDyn.count_to_scalar). field. exact H.
Qed.

Lemma take_first_skip (r s : FedDyn.Id) (t : string) (p0 rest : list (FedDyn.Id * FedDyn.Message))
  (m : FedDyn.Id * FedDyn.Message) :
  Forall (fun rm => FedDyn.matches r s t rm = false) p0 ->
  FedDyn.matches r s t m = true ->
  FedDyn.take_first r s t (p0 ++ m :: rest) = Some (snd m, p0 ++ rest).
Proof.
  intros Hp0 Hm. induction Hp0 as [|x p0 Hx _ IH]; simpl.
  - now rewrite Hm.
  - now rewrite Hx, IH.
Qed.

(** No message of type ["weight"] is pending. *)
Definition no_weight_pending (q : list (FedDyn.Id * FedDyn.Message)) : Prop :=
  Forall (fun rm => FedDyn.msg_type (snd rm) <> "weight"%string) q.

Lemma no_weight_no_match (r s : FedDyn.Id) (q : list (FedDyn.Id * FedDyn.Message)) :
  no_weight_pending q -> Forall (fun rm => FedDyn.matches r s "weight" rm = false) q.
Proof.
  intros H. eapply Forall_impl; [|exact H]. intros rm Hrm. unfold FedDyn.matches.
  destruct (String.eqb_spec (FedDyn.msg_type (snd rm)) "weight"); [contradiction|].
  now rewrite andb_false_r.
Qed.

Lemma Id_eqb_refl (a : FedDyn.Id) : FedDyn.Id_eqb a a = true.
Proof.
  destruct a; simpl; [reflexivity | apply Nat.eqb_refl].
Qed.

Lemma receive_skip (r s : FedDyn.Id) (p0 rest : list (FedDyn.Id * FedDyn.Message))
  (pl : FedDyn.Payload) (lg : list FedDyn.event) :
  no_weight_pending p0 ->
  FedDyn.receive r s "weight"
    (FedDyn.mkChannel (p0 ++ (r, FedDyn.mkMessage pl "weight" s) :: rest) lg) =
  Ok (FedDyn.mkMessage pl "weight" s,
      FedDyn.mkChannel (p0 ++ rest) (lg ++ [FedDyn.Received r s "weight"])).
Proof.
  intros H. unfold FedDyn.receive. cbn [FedDyn.pending FedDyn.log].
  rewrite (take_first_skip r s "weight" p0 rest (r, FedDyn.mkMessage pl "weight" s)).
  - reflexivity.
  - now apply no_weight_no_match.
  - unfold FedDyn.matches; simpl. now rewrite !Id_eqb_refl.
Qed.

Section FedDyn_exchange.

Variable Batch : Type.
Variable OptState : Type.

(** The example count a client reports: [train_set.tensors[0].shape[0]]. *)
Definition examples (c : FedDyn.Client Batch OptState) : nat :=
  FedDyn.tensors0_shape0 (FedDyn.train_set c).

Definition count_msg (c : FedDyn.Client Batch OptState) : FedDyn.Id * FedDyn.Message :=
  (FedDyn.ServerId,
   FedDyn.mkMessage (FedDyn.PCount (examples c)) "weight" (FedDyn.ClientId (FedDyn.index c))).

Definition weight_msg (cw : FedDyn.Client Batch OptState * scalar)
  : FedDyn.Id * FedDyn.Message :=
  (FedDyn.ClientId (FedDyn.index (fst cw)),
   FedDyn.mkMessage (FedDyn.PWeight (snd cw)) "weight" FedDyn.ServerId).

(** The message log of the weight exchange: every client sends its count,
    the server receives every count, the server sends every weight, every
    client receives its weight. *)
Definition exchange_events (cs : list (FedDyn.Client Batch OptState)) : list FedDyn.event :=
  map (fun c => FedDyn.Sent (FedDyn.ClientId (FedDyn.index c)) FedDyn.ServerId "weight") cs ++
  map (fun c => FedDyn.Received FedDyn.ServerId (FedDyn.ClientId (FedDyn.index c)) "weight") cs ++
  map (fun c => FedDyn.Sent FedDyn.ServerId (FedDyn.ClientId (FedDyn.index c)) "weight") cs ++
  map (fun c => FedDyn.Received (FedDyn.ClientId (FedDyn.index c)) FedDyn.ServerId "weight") cs.

Lemma send_counts (cs : list (FedDyn.Client Batch OptState)) :
  forall ch,
  fold_left (fun ch0 client => FedDyn._send_weight client ch0) cs ch =
  FedDyn.mkChannel
    (FedDyn.pending ch ++ map count_msg cs)
    (FedDyn.log ch ++
     map (fun c => FedDyn.Sent (FedDyn.ClientId (FedDyn.index c)) FedDyn.ServerId "weight") cs).
Proof.
  induction cs as [|c cs IH]; intros ch; simpl.
  - rewrite !app_nil_r. now destruct ch.
  - rewrite IH. unfold FedDyn._send_weight, FedDyn.send; simpl.
    now rewrite <- !app_assoc.
Qed.

Lemma receive_counts_ok (cs : list (FedDyn.Client Batch OptState)) :
  forall p0 acc lg,
  no_weight_pending p0 ->
  for_each cs
    (fun st client =>
       r <- FedDyn.receive FedDyn.ServerId (FedDyn.ClientId (FedDyn.index client)) "weight"
              (snd st) ;;
       match FedDyn.payload (fst r) with
       | FedDyn.PCount n => Ok (fst st ++ [n], snd r)
       | _ => Raise TypeError
       end)
    (acc, FedDyn.mkChannel (p0 ++ map count_msg cs) lg) =
  Ok (acc ++ map examples cs,
      FedDyn.mkChannel p0
        (lg ++ map (fun c => FedDyn.Received FedDyn.ServerId
                               (FedDyn.ClientId (FedDyn.index c)) "weight") cs)).
Proof.
  induction cs as [|c cs IH]; intros p0 acc lg Hp0.
  - simpl. now rewrite !app_nil_r.
  - cbn [for_each map snd fst]. unfold count_msg at 1.
    rewrite receive_skip by exact Hp0. cbn [bind fst snd FedDyn.payload].
    rewrite IH by exact Hp0. simpl. now rewrite <- !app_assoc.
Qed.

Lemma send_weights_ok (cs : list (FedDyn.Client Batch OptState)) (ws : list scalar) :
  forall i ch,
  (i + length cs <= length ws)%nat ->
  FedDyn.send_weights cs ws i ch =
  Ok (FedDyn.mkChannel
        (FedDyn.pending ch ++ map weight_msg (combine cs (skipn i ws)))
        (FedDyn.log ch ++
         map (fun c => FedDyn.Sent FedDyn.ServerId (FedDyn.ClientId (FedDyn.index c)) "weight")
             cs)).
Proof.
  induction cs as [|c cs IH]; intros i ch Hlen.
  - simpl. rewrite !app_nil_r. now destruct ch.
  - simpl in Hlen. cbn [FedDyn.send_weights].
    destruct (nth_error ws i) as [w|] eqn:Hw.
    2:{ apply nth_error_None in Hw. lia. }
    rewrite IH by lia. rewrite (skipn_nth_error _ _ _ Hw).
    unfold FedDyn.send; simpl. now rewrite <- !app_assoc.
Qed.

Lemma receive_all_weights_ok (cs : list (FedDyn.Client Batch OptState)) :
  forall ws p0 lg,
  no_weight_pending p0 -> (length cs <= length ws)%nat ->
  FedDyn.receive_all_weights cs
    (FedDyn.mkChannel (p0 ++ map weight_msg (combine cs ws)) lg) =
  Ok (map (fun cw => FedDyn.with_weight (fst cw) (Some (snd cw))) (combine cs ws),
      FedDyn.mkChannel p0
        (lg ++ map (fun c => FedDyn.Received (FedDyn.ClientId (FedDyn.index c))
                               FedDyn.ServerId "weight") cs)).
Proof.
  unfold FedDyn.receive_all_weights.
  assert (H : forall ws p0 acc lg,
    no_weight_pending p0 -> (length cs <= length ws)%nat ->
    for_each cs
      (fun st client =>
         r <- FedDyn._receive_weights client (snd st) ;;
         Ok (fst st ++ [fst r], snd r))
      (acc, FedDyn.mkChannel (p0 ++ map weight_msg (combine cs ws)) lg) =
    Ok (acc ++ map (fun cw => FedDyn.with_weight (fst cw) (Some (snd cw))) (combine cs ws),
        FedDyn.mkChannel p0
          (lg ++ map (fun c => FedDyn.Received (FedDyn.ClientId (FedDyn.index c))
                                 FedDyn.ServerId "weight") cs))).
  { induction cs as [|c cs IH]; intros ws p0 acc lg Hp0 Hlen.
    - simpl. now rewrite !app_nil_r.
    - destruct ws as [|w ws]; [simpl in Hlen; lia|]. simpl in Hlen.
      cbn [for_each combine map snd fst]. unfold weight_msg at 1. cbn [fst snd].
      unfold FedDyn._receive_weights at 1.
      rewrite receive_skip by exact Hp0. cbn [bind fst snd FedDyn.payload].
      rewrite IH by (auto; lia). simpl. now rewrite <- !app_assoc. }
  intros ws p0 lg Hp0 Hlen. exact (H ws p0 [] lg Hp0 Hlen).
Qed.

Lemma normalize_weights_length (counts : list nat) (n : nat) :
  length (FedDyn.normalize_weights counts n) = length counts.
Proof.
  unfold FedDyn.normalize_weights. now rewrite length_map.
Qed.

Lemma map_combine_map {A B C D : Type} (f : A * C -> D) (g : B -> C) (h : A -> B)
  (l : list A) :
  map f (combine l (map g (map h l))) = map (fun a => f (a, g (h a))) l.
Proof.
  induction l as [|a l IH]; simpl; congruence.
Qed.

(** The sum of the example counts of the clients. *)
Definition total_examples (cs : list (FedDyn.Client Batch OptState)) : scalar :=
  vsum (map FedDyn.count_to_scalar (map examples cs)).

(** The weight the server computes for a client. *)
Definition normalized_weight (cs : list (FedDyn.Client Batch OptState))
  (c : FedDyn.Client Batch OptState) : scalar :=
  FedDyn.count_to_scalar (examples c) / total_examples cs *
  FedDyn.count_to_scalar (length cs).

(** Lines 203-219, when no message of type ["weight"] is in flight. *)
Lemma weight_exchange_ok (self : FedDyn.Server Batch OptState) :
  no_weight_pending (FedDyn.pending (FedDyn.channel self)) ->
  FedDyn.weight_exchange self =
  Ok (FedDyn.mkServer
        (map (fun c => FedDyn.with_weight c (Some (normalized_weight (FedDyn.clients self) c)))
             (FedDyn.clients self))
        (FedDyn.mkChannel (FedDyn.pending (FedDyn.channel self))
           (FedDyn.log (FedDyn.channel self) ++ exchange_events (FedDyn.clients self)))
        (FedDyn.smodel self) (FedDyn.cld_mdl self) (FedDyn.lr self) (FedDyn.weighted self)).
Proof.
  intros Hp0. unfold FedDyn.weight_exchange.
  rewrite send_counts. unfold FedDyn.receive_counts.
  rewrite receive_counts_ok by exact Hp0. cbn [bind fst snd app].
  rewrite send_weights_ok
    by (rewrite normalize_weights_length, length_map; simpl; lia).
  cbn [bind FedDyn.pending FedDyn.log skipn].
  rewrite receive_all_weights_ok
    by (auto; rewrite normalize_weights_length, length_map; lia).
  cbn [bind fst snd]. unfold FedDyn.normalize_weights.
  rewrite (map_combine_map
             (fun cw => FedDyn.with_weight (fst cw) (Some (snd cw)))
             (fun c => FedDyn.count_to_scalar c /
                       vsum (map FedDyn.count_to_scalar (map examples (FedDyn.clients self))) *
                       FedDyn.count_to_scalar (length (FedDyn.clients self)))
             examples).
  unfold exchange_events. rewrite <- !app_assoc. reflexivity.
Qed.

End FedDyn_exchange.

(** The type of a logged message. *)
Definition event_type (ev : FedDyn.event) : string :=
  match ev with
  | FedDyn.Sent _ _ t => t
  | FedDyn.Received _ _ t => t
  end.

Section FedDyn_weights.

Variable Batch : Type.
Variable OptState : Type.

(** The weight a client holds (0 when it holds none). *)
Definition stored_weight (c : FedDyn.Client Batch OptState) : scalar :=
  match FedDyn.weight c with
  | Some w => w
  | None => 0
  end.

Lemma total_examples_nil : total_examples Batch OptState [] = 0.
Proof. reflexivity. Qed.

(** C4, amended.  Once every client has called [_send_weight], the counts
    that the server receives are the clients' numbers of examples
    [train_set.tensors[0].shape[0]], in the clients' order ([len(train_set)]
    is not read).  When these counts do not sum to 0, the exchange returns
    and client [i] holds [(count_i / sum_j count_j) * N_clients] and is
    otherwise as it was; the weights sum to [N_clients], so their mean is 1;
    and when all counts are equal every weight is 1. *)
Theorem weight_exchange_normalizes (self : FedDyn.Server Batch OptState) :
  no_weight_pending (FedDyn.pending (FedDyn.channel self)) ->
  total_examples Batch OptState (FedDyn.clients self) <> 0 ->
  exists ch2 s',
    FedDyn.receive_counts (FedDyn.clients self)
      (fold_left (fun ch client => FedDyn._send_weight client ch) (FedDyn.clients self)
                 (FedDyn.channel self)) =
      Ok (map (fun c => FedDyn.tensors0_shape0 (FedDyn.train_set c)) (FedDyn.clients self),
          ch2) /\
    FedDyn.weight_exchange self = Ok s' /\
    FedDyn.clients s' =
      map (fun c => FedDyn.with_weight c
                      (Some (FedDyn.count_to_scalar
                               (FedDyn.tensors0_shape0 (FedDyn.train_set c)) /
                             total_examples Batch OptState (FedDyn.clients self) *
                             FedDyn.count_to_scalar (length (FedDyn.clients self)))))
          (FedDyn.clients self) /\
    vsum (map stored_weight (FedDyn.clients s')) =
      FedDyn.count_to_scalar (length (FedDyn.clients self)) /\
    vsum (map stored_weight (FedDyn.clients s')) /
      FedDyn.count_to_scalar (length (FedDyn.clients s')) = 1 /\
    (forall n,
       Forall (fun c => FedDyn.tensors0_shape0 (FedDyn.train_set c) = n)
              (FedDyn.clients self) ->
       Forall (fun c => FedDyn.weight c = Some 1) (FedDyn.clients s')).
Proof.
  intros Hp0 Htot.
  assert (Hne : FedDyn.clients self <> []).
  { intros E. apply Htot. rewrite E. reflexivity. }
  assert (HN : FedDyn.count_to_scalar (length (FedDyn.clients self)) <> 0).
  { intros H. apply count_to_scalar_zero in H. apply length_zero_iff_nil in H.
    contradiction. }
  assert (Hsum : vsum (map stored_weight
                         (map (fun c => FedDyn.with_weight c
                                 (Some (normalized_weight Batch OptState
                                          (FedDyn.clients self) c)))
                              (FedDyn.clients self))) =
                 FedDyn.count_to_scalar (length (FedDyn.clients self))).
  { rewrite map_map. cbn [stored_weight FedDyn.with_weight FedDyn.weight].
    rewrite <- (normalize_weights_sum (map (examples Batch OptState) (FedDyn.clients self))
                  (length (FedDyn.clients self)) Htot).
    unfold FedDyn.normalize_weights, normalized_weight, total_examples.
    f_equal. symmetry. apply map_map. }
  eexists _, _. split; [|split; [apply weight_exchange_ok; exact Hp0|]].
  - rewrite send_counts. unfold FedDyn.receive_counts.
    rewrite receive_counts_ok by exact Hp0. reflexivity.
  - cbn [FedDyn.clients]. split; [reflexivity|]. split; [exact Hsum|]. split.
    + rewrite Hsum, length_map. field. exact HN.
    + intros n Hall. apply Forall_forall. intros c' Hc'.
      apply in_map_iff in Hc'. destruct Hc' as (c & <- & Hc).
      cbn [FedDyn.with_weight FedDyn.weight]. f_equal.
      rewrite Forall_forall in Hall.
      unfold normalized_weight, total_examples, examples in *.
      assert (Hmap : map FedDyn.count_to_scalar
                       (map (fun c0 : FedDyn.Client Batch OptState =>
                               FedDyn.tensors0_shape0 (FedDyn.train_set c0))
                            (FedDyn.clients self)) =
                     map (fun _ => FedDyn.count_to_scalar n) (FedDyn.clients self)).
      { rewrite map_map. apply map_ext_in. intros a Ha. now rewrite (Hall a Ha). }
      rewrite Hmap, vsum_repeat in *. rewrite (Hall c Hc).
      assert (Hcn : FedDyn.count_to_scalar n <> 0).
      { intros H. apply Htot. rewrite H. ring. }
      field. split; assumption.
Qed.

End FedDyn_weights.

(** *** Three clients with 10, 20 and 30 examples *)

Definition ex_counted_client (i n : nat) : FedDyn.Client unit unit :=
  FedDyn.mkClient i (FedDyn.mkLoader n (fun _ => [tt]) 1) None None None
    (qc 1 10) 1%Z (qc 0 1) None.

Definition ex_dyn_server : FedDyn.Server unit unit :=
  FedDyn.mkServer
    [ex_counted_client 0 10; ex_counted_client 1 20; ex_counted_client 2 30]
    (FedDyn.mkChannel [] []) ex_dyn_model ex_dyn_model (qc 1 1) true.

Lemma ex_dyn_total_nonzero : total_examples unit unit (FedDyn.clients ex_dyn_server) <> 0.
Proof.
  intros H. apply (f_equal Qcanon.this) in H. vm_compute in H. discriminate.
Qed.

(** The example of the spec: counts [10, 20, 30] yield [0.5, 1.0, 1.5]. *)
Lemma weight_exchange_normalizes_witness :
  no_weight_pending (FedDyn.pending (FedDyn.channel ex_dyn_server)) /\
  total_examples unit unit (FedDyn.clients ex_dyn_server) <> 0 /\
  exists ch2 s',
    FedDyn.receive_counts (FedDyn.clients ex_dyn_server)
      (fold_left (fun ch client => FedDyn._send_weight client ch)
                 (FedDyn.clients ex_dyn_server) (FedDyn.channel ex_dyn_server)) =
      Ok ([10; 20; 30]%nat, ch2) /\
    FedDyn.weight_exchange ex_dyn_server = Ok s' /\
    map (fun c => option_map Qcanon.this (FedDyn.weight c)) (FedDyn.clients s') =
      [Some (1 # 2)%Q; Some (1 # 1)%Q; Some (3 # 2)%Q] /\
    Qcanon.this (vsum (map (stored_weight unit unit) (FedDyn.clients s'))) = (3 # 1)%Q.
Proof.
  assert (H : no_weight_pending (FedDyn.pending (FedDyn.channel ex_dyn_server)))
    by constructor.
  split; [exact H|]. split; [exact ex_dyn_total_nonzero|].
  destruct (weight_exchange_normalizes unit unit ex_dyn_server H ex_dyn_total_nonzero)
    as (ch2 & s' & Hrecv & Hs' & Hc & Hsum & _).
  exists ch2, s'. split; [exact Hrecv|]. split; [exact Hs'|]. split.
  - rewrite Hc. vm_compute. reflexivity.
  - rewrite Hsum. vm_compute. reflexivity.
Defined.

(** The values of the example in the message log: twelve messages of type
    ["weight"]. *)
Example weight_exchange_values :
  exists s',
    FedDyn.weight_exchange ex_dyn_server = Ok s' /\
    map (fun c => option_map Qcanon.this (FedDyn.weight c)) (FedDyn.clients s') =
    [Some (1 # 2)%Q; Some (1 # 1)%Q; Some (3 # 2)%Q] /\
    map event_type (FedDyn.log (FedDyn.channel s')) = repeat "weight"%string 12.
Proof.
  eexists. split; [reflexivity|]. split; reflexivity.
Qed.

(** *** Two clients whose loaders have 10 examples in 3 minibatches and 30
    examples in 4 minibatches *)

Definition cx_counted_client (i n : nat) (batches : list unit) : FedDyn.Client unit unit :=
  FedDyn.mkClient i (FedDyn.mkLoader n (fun _ => batches) (length batches)) None None None
    (qc 1 10) 1%Z (qc 0 1) None.

Definition cx_dyn_server : FedDyn.Server unit unit :=
  FedDyn.mkServer
    [cx_counted_client 0 10 [tt; tt; tt]; cx_counted_client 1 30 [tt; tt; tt; tt]]
    (FedDyn.mkChannel [] []) ex_dyn_model ex_dyn_model (qc 1 1) true.

(** What the examples read off a weight exchange: the weights the clients
    hold at its end. *)
Definition observe_weights (r : result (FedDyn.Server unit unit))
  : option (list (option Q)) :=
  match r with
  | Ok s => Some (map (fun c => option_map Qcanon.this (FedDyn.weight c)) (FedDyn.clients s))
  | Raise _ => None
  end.

Definition observe_counts (r : result (list nat * FedDyn.Channel)) : option (list nat) :=
  match r with
  | Ok x => Some (fst x)
  | Raise _ => None
  end.

(** C4, as stated, fails: these clients have [len(train_set)] 3 and 4, the
    numbers of minibatches that [fit] iterates over and divides the running
    loss by, while the counts that reach the server are 10 and 30; the
    clients end with the weights [0.5, 1.5], where the lengths 3 and 4 would
    give [6/7, 8/7]. *)
Lemma weight_exchange_reports_examples_not_len :
  map (fun c => FedDyn.len_ (FedDyn.train_set c)) (FedDyn.clients cx_dyn_server) =
    [3; 4]%nat /\
  map (fun c => length (FedDyn.epoch_batches (FedDyn.train_set c) 0))
      (FedDyn.clients cx_dyn_server) = [3; 4]%nat /\
  observe_counts
    (FedDyn.receive_counts (FedDyn.clients cx_dyn_server)
       (fold_left (fun ch client => FedDyn._send_weight client ch)
                  (FedDyn.clients cx_dyn_server) (FedDyn.channel cx_dyn_server))) =
    Some [10; 30]%nat /\
  observe_counts
    (FedDyn.receive_counts (FedDyn.clients cx_dyn_server)
       (fold_left (fun ch client => FedDyn._send_weight client ch)
                  (FedDyn.clients cx_dyn_server) (FedDyn.channel cx_dyn_server))) <>
    Some (map (fun c => FedDyn.len_ (FedDyn.train_set c)) (FedDyn.clients cx_dyn_server)) /\
  observe_weights (FedDyn.weight_exchange cx_dyn_server) =
    Some [Some (1 # 2)%Q; Some (3 # 2)%Q] /\
  map Qcanon.this (FedDyn.normalize_weights [3; 4]%nat 2) = [(6 # 7)%Q; (8 # 7)%Q].
Proof.
  split; [reflexivity|]. split; [reflexivity|]. split; [reflexivity|].
  split; [discriminate|].
  split; vm_compute; reflexivity.
Qed.

(* ------------------------------------------------------------------ *)
(** ** feddyn.py: [FedDynServer.aggregate] *)

(** [sum_i weight_i * (client_model_i[k][i] - v[i])]. *)
Definition blend_at (v : Tensor.t) (k : string) (cms : list nnModule) (ws : list scalar)
  (i : nat) : scalar :=
  vsum (map (fun cw => snd cw * (at_sd (state_dict (fst cw)) k i - Tensor.at_ v i))
            (combine cms ws)).

Lemma arch_rel_get (g cm : nnModule) (e : entry) :
  wf_module g -> Forall2 arch_rel g cm -> In e g ->
  exists t, od_get (state_dict cm) (key e) = Some t /\ like (value e) t.
Proof.
  intros Hwf HF He.
  destruct (Forall2_in_l _ _ _ _ HF He) as (e' & He' & Hk & _ & Hl).
  exists (value e'). split; [|exact Hl]. rewrite <- Hk. apply state_dict_get; [|exact He'].
  rewrite (arch_rel_keys _ _ HF). apply Hwf.
Qed.

Lemma weighted_delta_ok (k : string) (v : Tensor.t) (cms : list nnModule) :
  forall ws acc,
  (length cms <= length ws)%nat -> like v v -> like v acc ->
  Forall (fun cm => exists t, od_get (state_dict cm) k = Some t /\ like v t) cms ->
  exists d,
    FedDyn.weighted_delta k v cms ws acc = Ok d /\ like v d /\
    forall i, Tensor.at_ d i = Tensor.at_ acc i + blend_at v k cms ws i.
Proof.
  induction cms as [|cm cms IH]; intros ws acc Hlen Hv Hacc Hcms.
  - exists acc. simpl. repeat split; try apply Hacc. intros i. unfold blend_at. simpl. ring.
  - destruct ws as [|w ws]; [simpl in Hlen; lia|]. simpl in Hlen.
    inversion Hcms as [|? ? (t & Ht & Hlt) Hcms']; subst.
    destruct (sub_like v t v Hlt Hv) as (d0 & Hd0 & Hld0 & Hat0).
    destruct (add_like v acc (Tensor.scale w d0) Hacc (scale_like w v d0 Hld0))
      as (a1 & Ha1 & Hla1 & Hat1).
    destruct (IH ws a1 ltac:(lia) Hv Hla1 Hcms') as (d & Hd & Hld & Hatd).
    exists d. cbn [FedDyn.weighted_delta]. rewrite (od_lookup_some _ _ _ Ht). cbn [bind].
    rewrite Hd0. cbn [bind]. rewrite Ha1. cbn [bind]. split; [exact Hd|]. split; [exact Hld|].
    intros i. rewrite Hatd, Hat1, at_scale, Hat0. unfold blend_at. simpl.
    unfold at_sd at 2. rewrite Ht. ring.
Qed.

(** What [aggregate_models] does to one entry. *)
Definition agg_rel (cms : list nnModule) (ws : list scalar) (eta : scalar) (e e' : entry)
  : Prop :=
  arch_rel e e' /\
  match knd e with
  | KParameter _ =>
      forall i, Tensor.at_ (value e') i =
                Tensor.at_ (value e) i + eta * blend_at (value e) (key e) cms ws i
  | KBuffer => e' = e
  end.

Lemma aggregate_models_ok (g : nnModule) (cms : list nnModule) (ws : list scalar)
  (eta : scalar) :
  wf_module g -> Forall (fun cm => Forall2 arch_rel g cm) cms ->
  (length cms <= length ws)%nat ->
  exists agg, FedDyn.aggregate_models g cms ws eta = Ok agg /\
              Forall2 (agg_rel cms ws eta) g agg.
Proof.
  intros Hwf Hcms Hlen. apply map_result_Forall2. intros e He.
  assert (Hv : like (value e) (value e)).
  { apply like_refl. destruct Hwf as [_ Hw]. rewrite Forall_forall in Hw. now apply Hw. }
  destruct (knd e) as [rg|] eqn:Hk.
  - destruct (weighted_delta_ok (key e) (value e) cms ws (Tensor.scale 0 (value e)))
      as (d & Hd & Hld & Hatd); auto using scale_like.
    { eapply Forall_impl; [|exact Hcms]. intros cm Hcm. eapply arch_rel_get; eauto. }
    destruct (add_like (value e) (value e) (Tensor.scale eta d) Hv (scale_like eta _ d Hld))
      as (s & Hs & Hls & Hats).
    eexists. rewrite Hd. cbn [bind]. rewrite Hs. cbn [bind]. split; [reflexivity|].
    unfold agg_rel, arch_rel; simpl. rewrite Hk. repeat split; try apply Hls.
    intros i. rewrite Hats, at_scale, Hatd, at_scale. ring.
  - exists e. split; [reflexivity|]. unfold agg_rel, arch_rel. rewrite Hk. auto.
Qed.

Lemma agg_rel_arch (cms : list nnModule) (ws : list scalar) (eta : scalar) (g agg : nnModule) :
  Forall2 (agg_rel cms ws eta) g agg -> Forall2 arch_rel g agg.
Proof.
  induction 1 as [|e e' g agg [H _] _ IH]; constructor; auto.
Qed.

(** Loading, with [strict], the state of a model of the same architecture
    yields that model. *)
Lemma load_entries_strict (m2 l l2 : nnModule) :
  NoDup (keys_of m2) -> Forall2 arch_rel l l2 -> incl l2 m2 ->
  map_result
    (fun e =>
       match od_get (state_dict m2) (key e) with
       | Some v => v' <- copy_ (value e) v ;; Ok (mkEntry (key e) (knd e) v')
       | None => Raise RuntimeError
       end) l = Ok l2.
Proof.
  intros Hnd HF; induction HF as [|e e2 l l2 (Hkey & Hknd & Hsh & _) _ IH];
    intros Hincl; [reflexivity|].
  cbn [map_result].
  assert (Hin2 : In e2 m2) by (apply Hincl; now left).
  rewrite <- Hkey, (state_dict_get m2 e2 Hnd Hin2).
  rewrite IH by (intros x Hx; apply Hincl; now right).
  unfold copy_. rewrite <- Hsh, shape_eqb_refl. cbn [bind].
  do 2 f_equal. destruct e2 as [k2 kd2 [sh2 d2]]; simpl in *. congruence.
Qed.

Lemma keys_known (l : list string) :
  forallb (fun k => existsb (String.eqb k) l) l = true.
Proof.
  apply forallb_forall. intros k Hk. apply existsb_exists.
  exists k. split; [exact Hk | apply String.eqb_refl].
Qed.

Lemma load_state_dict_strict (m m2 : nnModule) :
  wf_module m -> Forall2 arch_rel m m2 ->
  load_state_dict m (state_dict m2) true = Ok m2.
Proof.
  intros [Hnd _] HF. unfold load_state_dict.
  rewrite (load_entries_strict m2 m m2); auto using incl_refl.
  2:{ now rewrite (arch_rel_keys _ _ HF). }
  cbn [bind]. unfold od_keys, state_dict. rewrite map_map.
  change (map (fun x => fst (key x, value x)) m2) with (keys_of m2).
  rewrite (arch_rel_keys _ _ HF), keys_known. reflexivity.
Qed.

(** Flattening what [load_all_params] has loaded returns the vector. *)
Lemma firstn_add {A : Type} (n k : nat) (v : list A) :
  firstn (n + k) v = firstn n v ++ firstn k (skipn n v).
Proof.
  revert v; induction n as [|n IH]; intros v; simpl; [reflexivity|].
  destruct v as [|x v]; simpl; [now rewrite firstn_nil|]. now rewrite IH.
Qed.

Lemma flat_unflatten (m : nnModule) :
  forall v, (length (flat m) <= length v)%nat ->
  flat (unflatten m v) = firstn (length (flat m)) v.
Proof.
  unfold flat, parameters.
  induction m as [|e m IH]; intros v Hlen; simpl; [reflexivity|].
  destruct e as [k kd [sh d]]; destruct kd as [[|]|]; simpl in *.
  - unfold flat_trainable in *; simpl in *. unfold Tensor.flat in *; simpl in *.
    rewrite length_app in *. rewrite firstn_add. f_equal.
    apply IH. rewrite length_skipn. lia.
  - unfold flat_trainable in *; simpl in *. now apply IH.
  - now apply IH.
Qed.

Lemma trainable_some_unflatten (m : nnModule) (v : vec) :
  trainable_some m -> trainable_some (unflatten m v).
Proof.
  unfold trainable_some, parameters. revert v.
  induction m as [|e m IH]; intros v; simpl; [auto|].
  destruct e as [k kd t]; destruct kd as [[|]|]; simpl; try discriminate; apply IH.
Qed.

Lemma receive_head (r s : FedDyn.Id) (t : string) (pl : FedDyn.Payload)
  (rest : list (FedDyn.Id * FedDyn.Message)) (lg : list FedDyn.event) :
  FedDyn.receive r s t (FedDyn.mkChannel ((r, FedDyn.mkMessage pl t s) :: rest) lg) =
  Ok (FedDyn.mkMessage pl t s, FedDyn.mkChannel rest (lg ++ [FedDyn.Received r s t])).
Proof.
  unfold FedDyn.receive, FedDyn.take_first, FedDyn.matches; simpl.
  now rewrite !Id_eqb_refl, String.eqb_refl.
Qed.

(** The running sum of lines 236-239. *)
Definition sum_from (acc : option vec) (gs : list vec) : option vec :=
  fold_left (fun a g => match a with
                        | None => Some g
                        | Some s => Some (zip_with Qcplus s g)
                        end) gs acc.

Lemma sum_from_some (L : nat) (gs : list vec) :
  forall a, length a = L -> Forall (fun g => length g = L) gs ->
  exists s, sum_from (Some a) gs = Some s /\ length s = L /\
            forall i, nth i s 0 = nth i a 0 + vsum (map (fun g => nth i g 0) gs).
Proof.
  induction gs as [|g gs IH]; intros a Ha Hgs.
  - exists a. simpl. repeat split; auto. intros i. ring.
  - inversion Hgs as [|? ? Hg Hgs']; subst.
    destruct (IH (zip_with Qcplus a g)) as (s & Hs & Hls & Hat); auto.
    { rewrite zip_with_length; congruence. }
    exists s. split; [exact Hs|]. split; [exact Hls|].
    intros i. rewrite Hat, nth_zip_with by (congruence || apply Qc_plus_0_0).
    simpl. ring.
Qed.

Lemma nth_vdiv_scalar (v : vec) (c : scalar) (i : nat) :
  nth i (vdiv_scalar v c) 0 = nth i v 0 / c.
Proof.
  unfold vdiv_scalar. replace 0 with (0 / c) at 1 by (unfold Qcdiv; ring).
  apply (map_nth (fun x => x / c)).
Qed.

Section FedDyn_aggregate.

Variable Batch : Type.
Variable OptState : Type.

(** The ["grads"] message of a client that reports [prev_grads = g]. *)
Definition grads_msg (r : FedDyn.Client Batch OptState * option vec)
  : FedDyn.Id * FedDyn.Message :=
  (FedDyn.ServerId,
   FedDyn.mkMessage (FedDyn.PGrads (snd r)) "grads" (FedDyn.ClientId (FedDyn.index (fst r)))).

(** The gradients that are not [None], in the order of the clients. *)
Definition present (reports : list (FedDyn.Client Batch OptState * option vec)) : list vec :=
  flat_map (fun r => match snd r with Some g => [g] | None => [] end) reports.

Lemma collect_grads_ok (L : nat) (reports : list (FedDyn.Client Batch OptState * option vec))
  (rest : list (FedDyn.Id * FedDyn.Message)) (lg : list FedDyn.event) :
  Forall (fun g => length g = L) (present reports) ->
  FedDyn.collect_grads (map fst reports)
    (FedDyn.mkChannel (map grads_msg reports ++ rest) lg) =
  Ok (sum_from None (present reports), length (present reports),
      FedDyn.mkChannel rest
        (lg ++ map (fun r => FedDyn.Received FedDyn.ServerId
                               (FedDyn.ClientId (FedDyn.index (fst r))) "grads") reports)).
Proof.
  unfold FedDyn.collect_grads.
  assert (H : forall acc cnt lg0,
    Forall (fun g => length g = L) (present reports) ->
    (forall a, acc = Some a -> length a = L) ->
    for_each (map fst reports)
      (fun st (client : FedDyn.Client Batch OptState) =>
         let '(avg_grad, grad_count, ch0) := st in
         r <- FedDyn.receive FedDyn.ServerId (FedDyn.ClientId (FedDyn.index client))
                "grads" ch0 ;;
         match FedDyn.payload (fst r) with
         | FedDyn.PGrads None => Ok (avg_grad, grad_count, snd r)
         | FedDyn.PGrads (Some pg) =>
             match avg_grad with
             | None => Ok (Some pg, S grad_count, snd r)
             | Some a => s <- vadd a pg ;; Ok (Some s, S grad_count, snd r)
             end
         | _ => Raise TypeError
         end)
      (acc, cnt, FedDyn.mkChannel (map grads_msg reports ++ rest) lg0) =
    Ok (sum_from acc (present reports), (cnt + length (present reports))%nat,
        FedDyn.mkChannel rest
          (lg0 ++ map (fun r => FedDyn.Received FedDyn.ServerId
                                  (FedDyn.ClientId (FedDyn.index (fst r))) "grads") reports))).
  { induction reports as [|[c og] reports IH]; intros acc cnt lg0 Hlen Hacc.
    - simpl. now rewrite app_nil_r, Nat.add_0_r.
    - cbn [map fst for_each app]. unfold grads_msg at 1. cbn [fst snd].
      rewrite receive_head. cbn [bind fst snd FedDyn.payload].
      destruct og as [g|].
      + unfold present in Hlen; simpl in Hlen. fold (present reports) in Hlen.
        inversion Hlen as [|? ? Hg Hlen']; subst.
        destruct acc as [a|].
        * rewrite (vadd_ok a g) by (rewrite (Hacc a eq_refl); congruence).
          cbn [bind]. rewrite IH; auto.
          -- unfold present; simpl. rewrite <- app_assoc, Nat.add_succ_r. reflexivity.
          -- intros a' [= <-]. rewrite zip_with_length; [now apply Hacc | ].
             rewrite (Hacc a eq_refl); congruence.
        * cbn [bind]. rewrite IH; auto.
          -- unfold present; simpl. rewrite <- app_assoc, Nat.add_succ_r. reflexivity.
          -- intros a' [= <-]. reflexivity.
      + unfold present in Hlen; simpl in Hlen. fold (present reports) in Hlen.
        cbn [bind]. rewrite IH; auto. unfold present; simpl. now rewrite <- app_assoc. }
  intros Hlen. apply (H None 0%nat lg Hlen). discriminate.
Qed.

(** The arithmetic mean of the reported gradients, element by element. *)
Lemma mean_grad_ok (L : nat) (gs : list vec) :
  gs <> [] -> Forall (fun g => length g = L) gs ->
  exists avg,
    FedDyn.mean_grad (sum_from None gs) (length gs) = Some avg /\ length avg = L /\
    forall i, nth i avg 0 =
              vsum (map (fun g => nth i g 0) gs) / FedDyn.count_to_scalar (length gs).
Proof.
  intros Hne Hlen. destruct gs as [|g gs]; [congruence|].
  inversion Hlen as [|? ? Hg Hlen']; subst.
  destruct (sum_from_some (length g) gs g eq_refl Hlen') as (s & Hs & Hls & Hat).
  exists (vdiv_scalar s (FedDyn.count_to_scalar (length (g :: gs)))).
  assert (Hsum : sum_from None (g :: gs) = Some s) by exact Hs.
  rewrite Hsum. split; [reflexivity|]. split.
  - unfold vdiv_scalar. now rewrite length_map.
  - intros i. rewrite nth_vdiv_scalar, Hat. reflexivity.
Qed.

(** [FedDynServer.aggregate], when every eligible client has its ["grads"]
    message pending, at least one of them carries a gradient, the gradients
    have one element per trainable parameter element, and the client models
    and the cloud model have the architecture of the global model. *)
Lemma aggregate_spec (self : FedDyn.Server Batch OptState)
  (reports : list (FedDyn.Client Batch OptState * option vec))
  (client_models : list nnModule) (rest : list (FedDyn.Id * FedDyn.Message)) :
  wf_module (FedDyn.smodel self) -> trainable_some (FedDyn.smodel self) ->
  wf_module (FedDyn.cld_mdl self) ->
  Forall2 arch_rel (FedDyn.smodel self) (FedDyn.cld_mdl self) ->
  Forall (fun cm => Forall2 arch_rel (FedDyn.smodel self) cm) client_models ->
  (length client_models <= length reports)%nat ->
  FedDyn.pending (FedDyn.channel self) = map grads_msg reports ++ rest ->
  Forall (fun g => length g = length (flat (FedDyn.smodel self))) (present reports) ->
  present reports <> [] ->
  exists self' avg_grad,
    FedDyn.aggregate self (map fst reports) client_models = Ok self' /\
    FedDyn.aggregate_models (FedDyn.smodel self) client_models
      (FedDyn._get_client_weights self (map fst reports)) (FedDyn.lr self) =
      Ok (FedDyn.smodel self') /\
    Forall2 (agg_rel client_models (FedDyn._get_client_weights self (map fst reports))
                     (FedDyn.lr self))
            (FedDyn.smodel self) (FedDyn.smodel self') /\
    length avg_grad = length (flat (FedDyn.smodel self)) /\
    (forall i, nth i avg_grad 0 =
               vsum (map (fun g => nth i g 0) (present reports)) /
               FedDyn.count_to_scalar (length (present reports))) /\
    FedDyn.get_all_params_of (FedDyn.smodel self') true = Some (flat (FedDyn.smodel self')) /\
    FedDyn.get_all_params_of (FedDyn.cld_mdl self') true =
      Some (zip_with Qcplus (flat (FedDyn.smodel self')) avg_grad) /\
    Forall2 same_layout (FedDyn.cld_mdl self) (FedDyn.cld_mdl self').
Proof.
  intros Hwf Hts Hwfc Hcld Hcms Hlen Hpend Hgl Hne.
  set (ws := FedDyn._get_client_weights self (map fst reports)).
  assert (Hws : (length client_models <= length ws)%nat).
  { unfold ws, FedDyn._get_client_weights.
    destruct (FedDyn.weighted self); rewrite !length_map; exact Hlen. }
  destruct (aggregate_models_ok _ _ ws (FedDyn.lr self) Hwf Hcms Hws) as (agg & Hagg & Hrel).
  pose proof (agg_rel_arch _ _ _ _ _ Hrel) as Harch.
  destruct (mean_grad_ok _ _ Hne Hgl) as (avg & Hmean & Hlavg & Hat).
  assert (Hflat : length (flat agg) = length (flat (FedDyn.smodel self)))
    by (apply arch_rel_flat_length; assumption).
  assert (Hflatc : length (flat (FedDyn.cld_mdl self)) = length (flat (FedDyn.smodel self)))
    by (apply arch_rel_flat_length; assumption).
  set (v := zip_with Qcplus (flat agg) avg).
  assert (Hlv : length v = length (flat (FedDyn.cld_mdl self))).
  { unfold v. rewrite zip_with_length; congruence. }
  exists (FedDyn.mkServer (FedDyn.clients self)
            (FedDyn.mkChannel rest
               (FedDyn.log (FedDyn.channel self) ++
                map (fun r => FedDyn.Received FedDyn.ServerId
                                (FedDyn.ClientId (FedDyn.index (fst r))) "grads") reports))
            agg (unflatten (FedDyn.cld_mdl self) v) (FedDyn.lr self) (FedDyn.weighted self)),
         avg.
  cbn [FedDyn.smodel FedDyn.cld_mdl].
  assert (Htsa : trainable_some agg) by (eapply arch_rel_trainable_some; eauto).
  split; [|split; [exact Hagg|split; [exact Hrel|split; [exact Hlavg|split; [exact Hat|split]]]]].
  - unfold FedDyn.aggregate. fold ws. rewrite Hagg. cbn [bind].
    destruct (FedDyn.channel self) as [pend lg] eqn:Hch. cbn [FedDyn.pending FedDyn.log] in *.
    subst pend. rewrite (collect_grads_ok _ reports rest lg Hgl). cbn [bind fst snd].
    rewrite Hmean. rewrite (load_state_dict_strict _ _ Hwf Harch). cbn [bind].
    unfold FedDyn.reconstruct_cloud.
    rewrite (get_all_params_of_some agg true Htsa). cbn [FedDyn.to_device bind].
    unfold vadd. rewrite vbin_ok by congruence. cbn [bind]. fold v.
    rewrite load_all_params_unflatten; [reflexivity | exact Hwfc |].
    unfold trainable_len. fold (parameters (FedDyn.cld_mdl self)).
    fold (flat (FedDyn.cld_mdl self)). lia.
  - now apply get_all_params_of_some.
  - split; [|apply unflatten_layout].
    rewrite get_all_params_of_some
      by (apply trainable_some_unflatten; eapply arch_rel_trainable_some; eauto).
    rewrite flat_unflatten by lia. rewrite <- Hlv, firstn_all. reflexivity.
Qed.

End FedDyn_aggregate.

Section FedDyn_aggregate_claims.

Variable Batch : Type.
Variable OptState : Type.


End FedDyn_aggregate_claims.

(** *** An aggregation: three clients with 10, 20 and 30 examples, client
    models at [[6, 6]], a global model at [[0, 0]], [lr = 1], and gradients
    [[3, 0]], [[0, 3]] and [None] *)

Definition ex_client_model : nnModule :=
  [ mkEntry "w" (KParameter true) (vector_tensor [qc 6 1; qc 6 1]) ].

Definition ex_client_models : list nnModule :=
  [ex_client_model; ex_client_model; ex_client_model].

Definition ex_reports : list (FedDyn.Client unit unit * option vec) :=
  [ (ex_counted_client 0 10, Some [qc 3 1; qc 0 1]);
    (ex_counted_client 1 20, Some [qc 0 1; qc 3 1]);
    (ex_counted_client 2 30, None) ].

(** The server with the ["grads"] messages of the reports pending. *)
Definition with_reports (s : FedDyn.Server unit unit)
  (reports : list (FedDyn.Client unit unit * option vec)) : FedDyn.Server unit unit :=
  FedDyn.mkServer (FedDyn.clients s)
    (FedDyn.mkChannel (map (grads_msg unit unit) reports) [])
    (FedDyn.smodel s) (FedDyn.cld_mdl s) (FedDyn.lr s) (FedDyn.weighted s).

Definition ex_agg_server : FedDyn.Server unit unit := with_reports ex_dyn_server ex_reports.

Lemma ex_client_models_arch :
  Forall (fun cm => Forall2 arch_rel (FedDyn.smodel ex_agg_server) cm) ex_client_models.
Proof.
  repeat (apply Forall_cons || apply Forall_nil);
    (apply Forall2_cons; [|apply Forall2_nil]);
    unfold arch_rel, like, Tensor.wf; simpl; auto.
Qed.

Lemma ex_agg_hypotheses :
  wf_module (FedDyn.smodel ex_agg_server) /\ trainable_some (FedDyn.smodel ex_agg_server) /\
  wf_module (FedDyn.cld_mdl ex_agg_server) /\
  Forall2 arch_rel (FedDyn.smodel ex_agg_server) (FedDyn.cld_mdl ex_agg_server) /\
  Forall (fun cm => Forall2 arch_rel (FedDyn.smodel ex_agg_server) cm) ex_client_models /\
  (length ex_client_models <= length ex_reports)%nat /\
  FedDyn.pending (FedDyn.channel ex_agg_server) = map (grads_msg unit unit) ex_reports ++ [] /\
  Forall (fun g => length g = length (flat (FedDyn.smodel ex_agg_server)))
         (present unit unit ex_reports) /\
  present unit unit ex_reports <> [].
Proof.
  assert (Hwf : wf_module ex_dyn_model) by (apply wf_moduleb_ok; reflexivity).
  split; [exact Hwf|]. split; [unfold trainable_some; simpl; discriminate|].
  split; [exact Hwf|]. split; [apply arch_rel_refl; exact Hwf|].
  split; [exact ex_client_models_arch|]. split; [simpl; lia|].
  split; [reflexivity|]. split; [repeat constructor | discriminate].
Defined.


(** What the examples read off a server: the flattened global model, the
    flattened cloud model and the number of pending messages. *)
Definition server_view (s : FedDyn.Server unit unit) : list Q * list Q * nat :=
  (map Qcanon.this (flat (FedDyn.smodel s)),
   map Qcanon.this (flat (FedDyn.cld_mdl s)),
   length (FedDyn.pending (FedDyn.channel s))).

Definition observe_server (r : result (FedDyn.Server unit unit))
  : option (list Q * list Q * nat) :=
  match r with
  | Ok s => Some (server_view s)
  | Raise _ => None
  end.

Lemma aggregate_values_computed :
  observe_server (FedDyn.aggregate ex_agg_server (map fst ex_reports) ex_client_models) =
  Some ([(6 # 1)%Q; (6 # 1)%Q], [(15 # 2)%Q; (15 # 2)%Q], 0%nat).
Proof. vm_compute. reflexivity. Qed.

(** The values of the example: the new global model is [[6, 6]], the mean of
    the two reported gradients is [[1.5, 1.5]], the cloud model [[7.5, 7.5]]. *)
Example aggregate_values :
  exists self',
    FedDyn.aggregate ex_agg_server (map fst ex_reports) ex_client_models = Ok self' /\
    map Qcanon.this (flat (FedDyn.smodel self')) = [(6 # 1)%Q; (6 # 1)%Q] /\
    map Qcanon.this (flat (FedDyn.cld_mdl self')) = [(15 # 2)%Q; (15 # 2)%Q] /\
    FedDyn.pending (FedDyn.channel self') = [].
Proof.
  pose proof aggregate_values_computed as H. unfold observe_server in H.
  destruct (FedDyn.aggregate ex_agg_server (map fst ex_reports) ex_client_models)
    as [s|e]; [|discriminate].
  exists s. unfold server_view in H. injection H as H1 H2 H3. repeat split; auto.
  now apply length_zero_iff_nil.
Qed.

Lemma ex_total_nonzero : total_examples unit unit (map fst ex_reports) <> 0.
Proof.
  intros H. apply (f_equal Qcanon.this) in H. vm_compute in H. discriminate.
Qed.

(* ------------------------------------------------------------------ *)
(** ** feddyn.py: [load_all_params] and the length of the vector *)

(** The loop of [load_all_params] on a vector that runs out. *)
Lemma load_loop_short (v : vec) (todo done : OrderedDict Param) (idx : nat) :
  NoDup (od_keys (done ++ todo)) ->
  Forall (fun np => Tensor.wf (pdata (snd np))) todo ->
  (idx <= length v)%nat ->
  (length v < idx + trainable_len todo)%nat ->
  for_each todo (FedDyn.load_step (Some v)) (done ++ todo, idx) = Raise RuntimeError.
Proof.
  revert done idx; induction todo as [|[k p] todo IH]; intros done idx Hnd Hwf Hidx Hlen.
  - unfold trainable_len in Hlen; simpl in Hlen. lia.
  - rewrite trainable_len_cons in Hlen.
    inversion Hwf as [|? ? Hp Hwf']; subst; simpl in Hp.
    cbn [for_each FedDyn.load_step].
    destruct (requires_grad_of p) eqn:Hrg; cbn [negb].
    + cbn [bind FedDyn.tensor_slice]. unfold py_slice, Tensor.flat.
      replace (idx + length (Tensor.data (pdata p)) - idx)%nat
        with (length (Tensor.data (pdata p))) by lia.
      set (n := length (Tensor.data (pdata p))) in *.
      unfold Tensor.reshape.
      destruct (Nat.eqb (length (firstn n (skipn idx v)))
                        (Tensor.numel_of (Tensor.shape (pdata p)))) eqn:E.
      * apply Nat.eqb_eq in E. rewrite <- Hp in E. fold n in E.
        rewrite length_firstn, length_skipn in E.
        cbn [bind].
        rewrite copy_into_app.
        2:{ unfold od_keys in Hnd. rewrite map_app in Hnd. simpl in Hnd.
            apply NoDup_remove_2 in Hnd. intros Hin; apply Hnd.
            apply in_or_app; now left. }
        unfold copy_; cbn [Tensor.shape Tensor.data]. rewrite shape_eqb_refl. cbn [bind].
        specialize (IH (done ++ [(k, mkParam (requires_grad_of p)
                          (Tensor.mk (Tensor.shape (pdata p)) (firstn n (skipn idx v))))])
                       (idx + n)%nat).
        rewrite <- !app_assoc in IH. simpl in IH.
        apply IH.
        -- unfold od_keys in *. rewrite map_app in *. simpl in *. exact Hnd.
        -- exact Hwf'.
        -- lia.
        -- lia.
      * reflexivity.
    + cbn [bind].
      specialize (IH (done ++ [(k, p)]) idx).
      rewrite <- !app_assoc in IH. simpl in IH.
      apply IH; assumption.
Qed.

Lemma trainable_len_numel (m : nnModule) :
  wf_module m -> trainable_len (named_parameters m) = FedDyn.trainable_numel m.
Proof.
  intros Hwf. rewrite <- (flat_length m Hwf). reflexivity.
Qed.

(** X1.  [load_all_params] with a vector that has fewer elements than the
    trainable parameters raises [RuntimeError] (the [reshape] of the slice
    that comes out short), whatever the vector holds. *)
Theorem load_all_params_short_raises (m : nnModule) (v : vec) :
  wf_module m -> (length v < FedDyn.trainable_numel m)%nat ->
  FedDyn.load_all_params m (Some v) = Raise RuntimeError.
Proof.
  intros Hwf Hlen. unfold FedDyn.load_all_params.
  pose proof (load_loop_short v (named_parameters m) [] 0%nat) as Hloop.
  simpl in Hloop. unfold OrderedDict in *.
  rewrite Hloop; [reflexivity | | | |].
  - apply named_parameters_nodup, Hwf.
  - apply wf_named_parameters, Hwf.
  - lia.
  - rewrite trainable_len_numel by exact Hwf. exact Hlen.
Qed.

Lemma load_all_params_short_raises_witness :
  wf_module ex_model /\
  (length [qc 1 1; qc 2 1; qc 3 1; qc 4 1; qc 5 1] < FedDyn.trainable_numel ex_model)%nat /\
  FedDyn.load_all_params ex_model (Some [qc 1 1; qc 2 1; qc 3 1; qc 4 1; qc 5 1]) =
    Raise RuntimeError.
Proof.
  assert (H : wf_module ex_model) by (apply wf_moduleb_ok; reflexivity).
  assert (H2 : (length [qc 1 1; qc 2 1; qc 3 1; qc 4 1; qc 5 1] <
                FedDyn.trainable_numel ex_model)%nat) by (vm_compute; lia).
  split; [exact H|]. split; [exact H2|].
  exact (load_all_params_short_raises ex_model _ H H2).
Defined.

Lemma unflatten_app (m : nnModule) :
  forall v extra, (length (flat m) <= length v)%nat ->
  unflatten m (v ++ extra) = unflatten m v.
Proof.
  unfold flat, parameters.
  induction m as [|e m IH]; intros v extra Hlen; simpl; [reflexivity|].
  destruct e as [k kd [sh d]]; destruct kd as [[|]|]; simpl in *.
  - unfold flat_trainable in *; simpl in *. unfold Tensor.flat in *; simpl in *.
    rewrite length_app in Hlen.
    rewrite firstn_app, skipn_app.
    replace (length d - length v)%nat with 0%nat by lia.
    simpl. rewrite app_nil_r. f_equal.
    apply IH. rewrite length_skipn. lia.
  - unfold flat_trainable in *; simpl in *. f_equal. now apply IH.
  - f_equal. now apply IH.
Qed.

(** X2.  [load_all_params] never compares the length of the vector with the
    model: the elements beyond the trainable parameters are dropped
    silently. *)
Theorem load_all_params_ignores_surplus (m : nnModule) (v extra : vec) :
  wf_module m -> (FedDyn.trainable_numel m <= length v)%nat ->
  FedDyn.load_all_params m (Some (v ++ extra)) = FedDyn.load_all_params m (Some v) /\
  exists m', FedDyn.load_all_params m (Some v) = Ok m'.
Proof.
  intros Hwf Hlen.
  rewrite !load_all_params_unflatten;
    try exact Hwf; rewrite ?trainable_len_numel by exact Hwf; rewrite ?length_app; try lia.
  split; [|eexists; reflexivity].
  f_equal. apply unflatten_app. rewrite flat_length by exact Hwf. exact Hlen.
Qed.

Lemma load_all_params_ignores_surplus_witness :
  wf_module ex_model /\
  FedDyn.load_all_params ex_model
    (Some ([qc 1 1; qc 2 1; qc 3 1; qc 4 1; qc 5 1; qc 6 1] ++ [qc 7 1; qc 8 1])) =
  FedDyn.load_all_params ex_model (Some [qc 1 1; qc 2 1; qc 3 1; qc 4 1; qc 5 1; qc 6 1]).
Proof.
  assert (H : wf_module ex_model) by (apply wf_moduleb_ok; reflexivity).
  split; [exact H|].
  apply (load_all_params_ignores_surplus ex_model
           [qc 1 1; qc 2 1; qc 3 1; qc 4 1; qc 5 1; qc 6 1] [qc 7 1; qc 8 1] H).
  vm_compute. lia.
Defined.

(** What [load_all_params] leaves of an entry: the name, the kind and the
    shape; and the whole entry unless it is a trainable parameter. *)
Definition load_rel (e e' : entry) : Prop :=
  key e' = key e /\ knd e' = knd e /\
  Tensor.shape (value e') = Tensor.shape (value e) /\
  (knd e <> KParameter true -> e' = e).

Lemma unflatten_load_rel (m : nnModule) (v : vec) :
  Forall2 load_rel m (unflatten m v).
Proof.
  revert v; induction m as [|e m IH]; intros v; simpl; [constructor|].
  destruct (knd e) as [[|]|] eqn:Hk; constructor; try apply IH;
    unfold load_rel; simpl; rewrite ?Hk; repeat split; auto; congruence.
Qed.

(** X3.  Loading a vector of as many elements as the trainable parameters have
    and flattening again returns the vector; buffers and frozen parameters are
    left as they were. *)
Theorem load_all_params_then_flatten (m : nnModule) (v : vec) :
  wf_module m -> trainable_some m -> length v = FedDyn.trainable_numel m ->
  exists m',
    FedDyn.load_all_params m (Some v) = Ok m' /\
    (forall copy, FedDyn.get_all_params_of m' copy = Some v) /\
    Forall2 load_rel m m'.
Proof.
  intros Hwf Hts Hlen. exists (unflatten m v).
  split; [|split].
  - apply load_all_params_unflatten; [exact Hwf|].
    rewrite trainable_len_numel by exact Hwf. lia.
  - intros copy.
    rewrite get_all_params_of_some by (now apply trainable_some_unflatten).
    rewrite flat_unflatten by (rewrite flat_length by exact Hwf; lia).
    rewrite flat_length by exact Hwf. rewrite <- Hlen. now rewrite firstn_all.
  - apply unflatten_load_rel.
Qed.

Lemma load_all_params_then_flatten_witness :
  wf_module ex_model /\ trainable_some ex_model /\
  exists m',
    FedDyn.load_all_params ex_model
      (Some [qc 9 1; qc 8 1; qc 7 1; qc 6 1; qc 5 1; qc 4 1]) = Ok m' /\
    FedDyn.get_all_params_of m' true =
      Some [qc 9 1; qc 8 1; qc 7 1; qc 6 1; qc 5 1; qc 4 1] /\
    od_get (state_dict m') "emb.weight" = od_get (state_dict ex_model) "emb.weight".
Proof.
  assert (H : wf_module ex_model) by (apply wf_moduleb_ok; reflexivity).
  assert (H2 : trainable_some ex_model) by (vm_compute; discriminate).
  split; [exact H|]. split; [exact H2|].
  destruct (load_all_params_then_flatten ex_model
              [qc 9 1; qc 8 1; qc 7 1; qc 6 1; qc 5 1; qc 4 1] H H2 eq_refl)
    as (m' & Hload & Hflat & Hrel).
  exists m'. split; [exact Hload|]. split; [apply Hflat|].
  rewrite load_all_params_unflatten in Hload; [|exact H|vm_compute; lia].
  injection Hload as <-. reflexivity.
Defined.

(** The loop of [load_all_params] on [params = None]. *)
Lemma load_loop_none (todo : OrderedDict Param) (st : OrderedDict Param * nat) :
  filter requires_grad_of (map snd todo) <> [] ->
  for_each todo (FedDyn.load_step None) st = Raise TypeError.
Proof.
  revert st; induction todo as [|[k p] todo IH]; intros [d idx] H; [now elim H|].
  simpl in H. simpl. destruct (requires_grad_of p); [reflexivity|]. simpl.
  now apply IH.
Qed.

(** X4.  [load_all_params] with [None] for the vector raises [TypeError] as
    soon as the model has a trainable parameter. *)
Theorem load_all_params_none_raises (m : nnModule) :
  trainable_some m -> FedDyn.load_all_params m None = Raise TypeError.
Proof.
  intros Hts. unfold FedDyn.load_all_params.
  rewrite load_loop_none; [reflexivity|exact Hts].
Qed.

Lemma load_all_params_none_raises_witness :
  trainable_some ex_model /\ FedDyn.load_all_params ex_model None = Raise TypeError.
Proof.
  assert (H : trainable_some ex_model) by (vm_compute; discriminate).
  split; [exact H|]. exact (load_all_params_none_raises ex_model H).
Defined.

(* ------------------------------------------------------------------ *)
(** ** feddyn.py: flattening a model and loading the vector into another *)

(** What a loaded entry takes from the entry the vector was read from: the
    value, if it is a trainable parameter. *)
Definition took (e e' : entry) : Prop :=
  key e' = key e /\ knd e' = knd e /\ (knd e = KParameter true -> value e' = value e).

Lemma unflatten_of_flat (m t : nnModule) :
  Forall (fun e => Tensor.wf (value e)) m -> Forall2 arch_rel m t ->
  forall rest, Forall2 took m (unflatten t (flat m ++ rest)).
Proof.
  intros Hwf HF. induction HF as [|e e2 m t (Hkey & Hknd & Hsh & Hw2) _ IH]; intros rest.
  - constructor.
  - inversion Hwf as [|? ? He Hwf']; subst.
    cbn [unflatten]. rewrite flat_cons, Hknd.
    destruct (knd e) as [[|]|] eqn:Hk.
    + assert (Hlen : length (Tensor.data (value e2)) = length (Tensor.data (value e))).
      { unfold Tensor.wf in *. congruence. }
      rewrite Hlen, <- app_assoc, firstn_length_app, skipn_length_app.
      constructor; [|apply IH; exact Hwf'].
      unfold took. cbn [key knd value]. repeat split; auto.
      intros _. rewrite Hsh. now destruct (value e).
    + constructor; [|apply IH; exact Hwf'].
      unfold took. repeat split; auto; congruence.
    + constructor; [|apply IH; exact Hwf'].
      unfold took. repeat split; auto; congruence.
Qed.

(** Without a trainable parameter nothing is loaded. *)
Lemma unflatten_frozen (t : nnModule) (v : vec) :
  filter requires_grad_of (parameters t) = [] -> unflatten t v = t.
Proof.
  unfold parameters. induction t as [|e t IH]; simpl; intros H; [reflexivity|].
  destruct (knd e) as [[|]|]; simpl in H; try discriminate; now rewrite IH.
Qed.

(** C7.  For every well-formed model [m] and every model [t] of the same
    architecture (names, kinds and shapes; any values): loading the vector
    that [get_all_params_of] returns for [m] into [t] gives every trainable
    parameter of [t] the shape and the values it has in [m] and leaves the
    other entries of [t] as they were, so flattening the result gives the
    vector again; in particular, loaded into [m] itself the vector gives [m]
    back.  The vector has as many elements as the trainable parameters have
    in total. *)
Theorem flatten_load_roundtrip (m t : nnModule) :
  wf_module m -> Forall2 arch_rel m t ->
  (exists t',
     FedDyn.load_all_params t (FedDyn.get_all_params_of m true) = Ok t' /\
     Forall2 took m t' /\
     Forall2 load_rel t t' /\
     FedDyn.get_all_params_of t' true = FedDyn.get_all_params_of m true) /\
  FedDyn.load_all_params m (FedDyn.get_all_params_of m true) = Ok m /\
  (forall v, FedDyn.get_all_params_of m true = Some v ->
             length v = FedDyn.trainable_numel m).
Proof.
  intros Hwf Harch.
  assert (Hwft : wf_module t) by (eapply arch_rel_wf; eauto).
  assert (Hload : forall t0, wf_module t0 -> Forall2 arch_rel m t0 ->
            FedDyn.load_all_params t0 (FedDyn.get_all_params_of m true) =
            Ok (unflatten t0 (flat m))).
  { intros t0 Hwf0 Harch0.
    destruct (filter requires_grad_of (parameters m)) as [|p ps] eqn:Hf.
    - assert (Hf0 : filter requires_grad_of (parameters t0) = []).
      { destruct (filter requires_grad_of (parameters t0)) as [|p0 ps0] eqn:Hf0;
          [reflexivity|].
        exfalso.
        apply (arch_rel_trainable_some t0 m (arch_rel_sym _ _ Hwf Harch0));
          [unfold trainable_some; rewrite Hf0; discriminate | exact Hf]. }
      rewrite (get_all_params_of_frozen m true Hf).
      rewrite (unflatten_frozen t0 _ Hf0).
      unfold FedDyn.load_all_params.
      rewrite load_loop_frozen by exact Hf0. cbn [bind fst].
      apply load_state_dict_parameters; [apply Hwf0 | apply same_layout_refl].
    - rewrite (get_all_params_of_some m true)
        by (unfold trainable_some; rewrite Hf; discriminate).
      apply load_all_params_unflatten; [exact Hwf0|].
      rewrite trainable_len_numel by exact Hwf0.
      rewrite (arch_rel_trainable_numel _ _ Harch0), <- (flat_length m Hwf). lia. }
  split; [|split].
  - exists (unflatten t (flat m)). split; [apply Hload; assumption|].
    split; [|split].
    + pose proof (unflatten_of_flat m t (proj2 Hwf) Harch []) as H.
      now rewrite app_nil_r in H.
    + apply unflatten_load_rel.
    + destruct (filter requires_grad_of (parameters m)) as [|p ps] eqn:Hf.
      * rewrite (get_all_params_of_frozen m true Hf).
        apply get_all_params_of_frozen.
        destruct (filter requires_grad_of (parameters (unflatten t (flat m))))
          as [|p0 ps0] eqn:Hf0; [reflexivity|].
        exfalso.
        assert (Ht : trainable_some t).
        { destruct (filter requires_grad_of (parameters t)) as [|p1 ps1] eqn:Hf1.
          - rewrite (unflatten_frozen t _ Hf1) in Hf0. congruence.
          - unfold trainable_some. rewrite Hf1. discriminate. }
        apply (arch_rel_trainable_some t m (arch_rel_sym _ _ Hwf Harch)); assumption.
      * assert (Hts : trainable_some m) by (unfold trainable_some; rewrite Hf; discriminate).
        rewrite (get_all_params_of_some m true Hts).
        rewrite get_all_params_of_some
          by (apply trainable_some_unflatten; eapply arch_rel_trainable_some; eauto).
        f_equal. rewrite flat_unflatten
          by (rewrite (arch_rel_flat_length _ _ Harch Hwf); lia).
        rewrite (arch_rel_flat_length _ _ Harch Hwf). apply firstn_all.
  - rewrite (Hload m Hwf (arch_rel_refl m Hwf)). f_equal.
    pose proof (unflatten_flat m []) as H. rewrite app_nil_r in H. exact H.
  - intros v Hv.
    destruct (filter requires_grad_of (parameters m)) as [|p ps] eqn:Hf.
    + rewrite (get_all_params_of_frozen m true Hf) in Hv. discriminate.
    + rewrite (get_all_params_of_some m true) in Hv
        by (unfold trainable_some; rewrite Hf; discriminate).
      injection Hv as <-. now apply flat_length.
Qed.

(** A model of the architecture of [ex_model] with other values. *)
Definition ex_target_model : nnModule :=
  [ mkEntry "fc.weight" (KParameter true)
      (Tensor.mk [2; 2]%nat [qc 10 1; qc 20 1; qc 30 1; qc 40 1]);
    mkEntry "fc.bias" (KParameter true) (Tensor.mk [2]%nat [qc 50 1; qc 60 1]);
    mkEntry "emb.weight" (KParameter false)
      (Tensor.mk [1; 3]%nat [qc 70 1; qc 80 1; qc 90 1]);
    mkEntry "bn.running_mean" KBuffer (scalar_tensor (qc 100 1)) ].

Lemma ex_target_arch : Forall2 arch_rel ex_model ex_target_model.
Proof.
  repeat (apply Forall2_cons || apply Forall2_nil);
    unfold arch_rel, like, Tensor.wf; simpl; auto.
Qed.

(** Loaded into [ex_target_model], the vector of [ex_model] sets [fc.weight]
    and [fc.bias] to the values of [ex_model] and leaves the frozen
    [emb.weight] and the buffer at the values of [ex_target_model]. *)
Lemma flatten_load_roundtrip_witness :
  wf_module ex_model /\ Forall2 arch_rel ex_model ex_target_model /\
  exists t',
    FedDyn.load_all_params ex_target_model (FedDyn.get_all_params_of ex_model true) =
      Ok t' /\
    od_get (state_dict t') "fc.weight" = od_get (state_dict ex_model) "fc.weight" /\
    od_get (state_dict t') "fc.bias" = od_get (state_dict ex_model) "fc.bias" /\
    od_get (state_dict t') "emb.weight" = od_get (state_dict ex_target_model) "emb.weight" /\
    od_get (state_dict t') "bn.running_mean" =
      od_get (state_dict ex_target_model) "bn.running_mean" /\
    FedDyn.get_all_params_of t' true =
      Some [qc 1 1; qc 2 1; qc 3 1; qc 4 1; qc 1 2; qc (-1) 2] /\
    length [qc 1 1; qc 2 1; qc 3 1; qc 4 1; qc 1 2; qc (-1) 2] =
      FedDyn.trainable_numel ex_model.
Proof.
  assert (H : wf_module ex_model) by (apply wf_moduleb_ok; reflexivity).
  split; [exact H|]. split; [exact ex_target_arch|].
  destruct (flatten_load_roundtrip ex_model ex_target_model H ex_target_arch)
    as ((t' & Hload & _ & _ & Hflat) & _ & Hlen).
  exists t'. split; [exact Hload|].
  split; [|split; [|split; [|split; [|split]]]].
  5:{ rewrite Hflat. reflexivity. }
  5:{ apply Hlen. reflexivity. }
  all: vm_compute in Hload; injection Hload as <-; reflexivity.
Defined.

(* ------------------------------------------------------------------ *)
(** ** feddyn.py: [broadcast_model] and [receive_model] *)

(** No message of type [t] is pending. *)
Definition none_pending (t : string) (q : list (FedDyn.Id * FedDyn.Message)) : Prop :=
  Forall (fun rm => FedDyn.msg_type (snd rm) <> t) q.

Lemma none_pending_no_match (r s : FedDyn.Id) (t : string)
  (q : list (FedDyn.Id * FedDyn.Message)) :
  none_pending t q -> Forall (fun rm => FedDyn.matches r s t rm = false) q.
Proof.
  intros H. eapply Forall_impl; [|exact H]. intros rm Hrm. unfold FedDyn.matches.
  destruct (String.eqb_spec (FedDyn.msg_type (snd rm)) t); [contradiction|].
  now rewrite andb_false_r.
Qed.

Lemma take_first_prefix (r s : FedDyn.Id) (t : string)
  (p0 q rest : list (FedDyn.Id * FedDyn.Message)) (m : FedDyn.Message) :
  Forall (fun rm => FedDyn.matches r s t rm = false) p0 ->
  FedDyn.take_first r s t q = Some (m, rest) ->
  FedDyn.take_first r s t (p0 ++ q) = Some (m, p0 ++ rest).
Proof.
  intros Hp0 Hq. induction Hp0 as [|x p0 Hx _ IH]; simpl; [exact Hq|].
  now rewrite Hx, IH.
Qed.

Lemma broadcast_ok (msg : FedDyn.Message) (to : list nat) :
  forall ch,
  FedDyn.broadcast msg to ch =
  FedDyn.mkChannel
    (FedDyn.pending ch ++ map (fun i => (FedDyn.ClientId i, msg)) to)
    (FedDyn.log ch ++
     map (fun i => FedDyn.Sent (FedDyn.sender msg) (FedDyn.ClientId i) (FedDyn.msg_type msg)) to).
Proof.
  unfold FedDyn.broadcast.
  induction to as [|i to IH]; intros ch; simpl.
  - rewrite !app_nil_r. now destruct ch.
  - rewrite IH. unfold FedDyn.send; simpl. now rewrite <- !app_assoc.
Qed.

(** A client on the list of a broadcast finds the message. *)
Lemma take_first_broadcast (i : nat) (msg : FedDyn.Message) (to : list nat) :
  In i to ->
  exists rest,
    FedDyn.take_first (FedDyn.ClientId i) (FedDyn.sender msg) (FedDyn.msg_type msg)
      (map (fun j => (FedDyn.ClientId j, msg)) to) = Some (msg, rest).
Proof.
  induction to as [|j to IH]; intros Hin; [contradiction|].
  cbn [map FedDyn.take_first]. unfold FedDyn.matches at 1. cbn [fst snd FedDyn.Id_eqb].
  rewrite Id_eqb_refl, String.eqb_refl, !andb_true_r.
  destruct (Nat.eqb_spec j i) as [->|Hne].
  - eexists; reflexivity.
  - destruct Hin as [->|Hin]; [congruence|].
    destruct (IH Hin) as (rest & Hrest). rewrite Hrest. eexists; reflexivity.
Qed.

Lemma zeros_repeat (v : vec) : map (fun _ => 0) v = repeat 0 (length v).
Proof.
  induction v as [|x v IH]; simpl; congruence.
Qed.

(** Loading the state of a model of the same architecture yields that model,
    [strict] or not. *)
Lemma load_entries_arch (strict : bool) (m2 l l2 : nnModule) :
  NoDup (keys_of m2) -> Forall2 arch_rel l l2 -> incl l2 m2 ->
  map_result
    (fun e =>
       match od_get (state_dict m2) (key e) with
       | Some v => v' <- copy_ (value e) v ;; Ok (mkEntry (key e) (knd e) v')
       | None => if strict then Raise RuntimeError else Ok e
       end) l = Ok l2.
Proof.
  intros Hnd HF; induction HF as [|e e2 l l2 (Hkey & Hknd & Hsh & _) _ IH];
    intros Hincl; [reflexivity|].
  cbn [map_result].
  assert (Hin2 : In e2 m2) by (apply Hincl; now left).
  rewrite <- Hkey, (state_dict_get m2 e2 Hnd Hin2).
  rewrite IH by (intros x Hx; apply Hincl; now right).
  unfold copy_. rewrite <- Hsh, shape_eqb_refl. cbn [bind].
  do 2 f_equal. destruct e2 as [k2 kd2 [sh2 d2]]; simpl in *. congruence.
Qed.

Lemma load_state_dict_arch (strict : bool) (m m2 : nnModule) :
  wf_module m -> Forall2 arch_rel m m2 ->
  load_state_dict m (state_dict m2) strict = Ok m2.
Proof.
  intros [Hnd _] HF. unfold load_state_dict.
  rewrite (load_entries_arch strict m2 m m2); auto using incl_refl.
  2:{ now rewrite (arch_rel_keys _ _ HF). }
  cbn [bind]. unfold od_keys, state_dict. rewrite map_map.
  change (map (fun x => fst (key x, value x)) m2) with (keys_of m2).
  rewrite (arch_rel_keys _ _ HF), keys_known. now destruct strict.
Qed.

Section FedDyn_broadcast.

Variable Batch : Type.
Variable OptState : Type.

(** What a client on the list of [broadcast_model] receives. *)
Lemma receive_broadcast (self : FedDyn.Server Batch OptState)
  (eligible : list (FedDyn.Client Batch OptState)) (c : FedDyn.Client Batch OptState) :
  In c eligible ->
  none_pending "model" (FedDyn.pending (FedDyn.channel self)) ->
  exists ch',
    FedDyn.receive (FedDyn.ClientId (FedDyn.index c)) FedDyn.ServerId "model"
      (FedDyn.channel (FedDyn.broadcast_model self eligible)) =
    Ok (FedDyn.mkMessage (FedDyn.PModels (FedDyn.smodel self) (FedDyn.cld_mdl self))
                         "model" FedDyn.ServerId, ch').
Proof.
  intros Hin Hp0. unfold FedDyn.broadcast_model. cbn [FedDyn.channel].
  rewrite broadcast_ok. unfold FedDyn.receive. cbn [FedDyn.pending FedDyn.log].
  set (msg := FedDyn.mkMessage (FedDyn.PModels (FedDyn.smodel self) (FedDyn.cld_mdl self))
                               "model" FedDyn.ServerId).
  destruct (take_first_broadcast (FedDyn.index c) msg (map (@FedDyn.index _ _) eligible))
    as (rest & Hrest); [now apply in_map|].
  cbn [FedDyn.sender FedDyn.msg_type msg] in Hrest.
  rewrite (take_first_prefix _ _ _ _ _ _ _
             (none_pending_no_match _ _ _ _ Hp0) Hrest).
  eexists; reflexivity.
Qed.

(** X5.  The first model a client receives: after [broadcast_model], a client
    on the list that has no model yet takes the global model as its own and
    starts [prev_grads] at zero, one element per trainable parameter element;
    nothing else of the client changes. *)
Theorem broadcast_then_first_receive (self : FedDyn.Server Batch OptState)
  (eligible : list (FedDyn.Client Batch OptState)) (c : FedDyn.Client Batch OptState) :
  In c eligible -> FedDyn.model c = None ->
  wf_module (FedDyn.smodel self) -> trainable_some (FedDyn.smodel self) ->
  none_pending "model" (FedDyn.pending (FedDyn.channel self)) ->
  exists ch',
    FedDyn.receive_model c (FedDyn.channel (FedDyn.broadcast_model self eligible)) =
    Ok (FedDyn.with_prev_grads (FedDyn.with_model c (Some (FedDyn.smodel self)))
          (Some (repeat 0 (FedDyn.trainable_numel (FedDyn.smodel self)))), ch').
Proof.
  intros Hin Hm Hwf Hts Hp0.
  destruct (receive_broadcast self eligible c Hin Hp0) as (ch' & Hrecv).
  exists ch'. unfold FedDyn.receive_model. rewrite Hrecv.
  cbn [bind fst snd FedDyn.payload]. rewrite Hm.
  rewrite (get_all_params_of_some _ true Hts). cbn [FedDyn.zeros_like bind].
  now rewrite zeros_repeat, (flat_length _ Hwf).
Qed.

(** What [safe_load_state_dict] makes of a local entry, given the entry of
    the same name of the received model: a parameter takes the received
    value, a buffer keeps its own. *)
Definition loaded_entry (ec : entry * entry) : entry :=
  match knd (fst ec) with
  | KParameter _ => mkEntry (key (fst ec)) (knd (fst ec)) (value (snd ec))
  | KBuffer => fst ec
  end.

Lemma safe_load_entries (m2 l l2 : nnModule) :
  NoDup (keys_of m2) -> Forall2 arch_rel l l2 -> incl l2 m2 ->
  map_result
    (fun e =>
       match knd e with
       | KParameter _ =>
           match od_get (state_dict m2) (key e) with
           | Some v => v' <- copy_ (value e) v ;; Ok (mkEntry (key e) (knd e) v')
           | None => Ok e
           end
       | KBuffer => Ok e
       end) l = Ok (map loaded_entry (combine l l2)).
Proof.
  intros Hnd HF; induction HF as [|e e2 l l2 (Hkey & Hknd & Hsh & _) _ IH];
    intros Hincl; [reflexivity|].
  cbn [map_result combine map].
  assert (Hin2 : In e2 m2) by (apply Hincl; now left).
  rewrite IH by (intros x Hx; apply Hincl; now right).
  assert (He : match knd e with
               | KParameter _ =>
                   match od_get (state_dict m2) (key e) with
                   | Some v => v' <- copy_ (value e) v ;; Ok (mkEntry (key e) (knd e) v')
                   | None => Ok e
                   end
               | KBuffer => Ok e
               end = Ok (loaded_entry (e, e2))).
  { unfold loaded_entry. cbn [fst snd].
    destruct (knd e) as [rg|] eqn:Hk; [|reflexivity].
    rewrite <- Hkey, (state_dict_get m2 e2 Hnd Hin2).
    unfold copy_. rewrite <- Hsh, shape_eqb_refl. cbn [bind].
    do 2 f_equal. destruct (value e2); reflexivity. }
  rewrite He. reflexivity.
Qed.

Lemma safe_load_state_dict_arch (m m2 : nnModule) :
  wf_module m -> Forall2 arch_rel m m2 ->
  FedDyn.safe_load_state_dict m (state_dict m2) = Ok (map loaded_entry (combine m m2)).
Proof.
  intros [Hnd _] HF. unfold FedDyn.safe_load_state_dict.
  apply safe_load_entries; auto using incl_refl.
  now rewrite (arch_rel_keys _ _ HF).
Qed.

(** The loaded model has the parameters of the received one. *)
Lemma loaded_parameters (m m2 : nnModule) :
  Forall2 arch_rel m m2 ->
  named_parameters (map loaded_entry (combine m m2)) = named_parameters m2.
Proof.
  induction 1 as [|e e2 m m2 (Hkey & Hknd & _) _ IH]; [reflexivity|].
  cbn [combine map named_parameters].
  assert (Hl : knd (loaded_entry (e, e2)) = knd e)
    by (unfold loaded_entry; cbn [fst snd]; destruct (knd e) eqn:E; auto).
  rewrite Hl, Hknd. destruct (knd e) as [rg|] eqn:Hk; [|exact IH].
  rewrite IH. unfold loaded_entry. cbn [fst snd]. rewrite Hk. cbn [key value].
  now rewrite Hkey.
Qed.

(** The loaded model has the buffers of the local one. *)
Lemma loaded_buffers (m m2 : nnModule) :
  Forall2 arch_rel m m2 ->
  Forall2 (fun e e' => key e' = key e /\ knd e' = knd e /\ (knd e = KBuffer -> e' = e))
          m (map loaded_entry (combine m m2)).
Proof.
  induction 1 as [|e e2 m m2 _ _ IH]; [constructor|].
  cbn [combine map]. constructor; [|exact IH].
  unfold loaded_entry. cbn [fst snd].
  destruct (knd e) as [rg|] eqn:Hk; cbn [key knd]; auto.
  repeat split; auto. discriminate.
Qed.

(** X6.  A later model: a client on the list that already has a model of the
    architecture of the cloud model ends with the parameters of the cloud
    model, not with those of the global model sent with it, and with its own
    buffers; its [prev_grads], weight and optimizer are kept. *)
Theorem broadcast_then_later_receive (self : FedDyn.Server Batch OptState)
  (eligible : list (FedDyn.Client Batch OptState)) (c : FedDyn.Client Batch OptState)
  (m0 : nnModule) :
  In c eligible -> FedDyn.model c = Some m0 ->
  wf_module m0 -> Forall2 arch_rel m0 (FedDyn.cld_mdl self) ->
  none_pending "model" (FedDyn.pending (FedDyn.channel self)) ->
  exists ch' m',
    FedDyn.receive_model c (FedDyn.channel (FedDyn.broadcast_model self eligible)) =
      Ok (FedDyn.with_model c (Some m'), ch') /\
    named_parameters m' = named_parameters (FedDyn.cld_mdl self) /\
    (forall copy, FedDyn.get_all_params_of m' copy =
                  FedDyn.get_all_params_of (FedDyn.cld_mdl self) copy) /\
    Forall2 (fun e e' => key e' = key e /\ knd e' = knd e /\ (knd e = KBuffer -> e' = e))
            m0 m'.
Proof.
  intros Hin Hm Hwf Harch Hp0.
  destruct (receive_broadcast self eligible c Hin Hp0) as (ch' & Hrecv).
  exists ch', (map loaded_entry (combine m0 (FedDyn.cld_mdl self))).
  split; [|split; [|split]].
  - unfold FedDyn.receive_model. rewrite Hrecv.
    cbn [bind fst snd FedDyn.payload]. rewrite Hm.
    now rewrite (safe_load_state_dict_arch _ _ Hwf Harch).
  - now apply loaded_parameters.
  - intros copy. unfold FedDyn.get_all_params_of, parameters.
    now rewrite (loaded_parameters _ _ Harch).
  - now apply loaded_buffers.
Qed.

End FedDyn_broadcast.

(* ------------------------------------------------------------------ *)
(** ** feddyn.py: [fit] at its edges *)

Lemma unfreeze_length (m : nnModule) :
  (length (flat m) <= length (flat (FedDyn.set_requires_grad m)))%nat.
Proof.
  induction m as [|e m IH]; [apply Nat.le_refl|].
  cbn [FedDyn.set_requires_grad map]. fold (FedDyn.set_requires_grad m).
  rewrite !flat_cons.
  destruct (knd e) as [[|]|] eqn:Hk; simpl; rewrite ?Hk, ?length_app; lia.
Qed.

(** Unfreezing a frozen parameter that has elements makes the flattened
    vector longer. *)
Lemma unfreeze_grows (m : nnModule) (e : entry) :
  In e m -> knd e = KParameter false -> (0 < length (Tensor.data (value e)))%nat ->
  (length (flat m) < length (flat (FedDyn.set_requires_grad m)))%nat.
Proof.
  induction m as [|e' m IH]; intros Hin Hk Hpos; [contradiction|].
  cbn [FedDyn.set_requires_grad map]. fold (FedDyn.set_requires_grad m).
  rewrite !flat_cons.
  destruct Hin as [->|Hin].
  - rewrite Hk. simpl. rewrite length_app. pose proof (unfreeze_length m). lia.
  - specialize (IH Hin Hk Hpos).
    destruct (knd e') as [[|]|] eqn:Hk'; simpl; rewrite ?Hk', ?length_app; lia.
Qed.

Lemma unfreeze_trainable_some (m : nnModule) :
  trainable_some m -> trainable_some (FedDyn.set_requires_grad m).
Proof.
  unfold trainable_some, parameters.
  induction m as [|e m IH]; simpl; [auto|].
  destruct (knd e) as [[|]|] eqn:Hk; simpl; rewrite ?Hk; simpl; try discriminate; auto.
Qed.

Lemma trainable_numel_some (m : nnModule) :
  (0 < FedDyn.trainable_numel m)%nat -> trainable_some m.
Proof.
  unfold FedDyn.trainable_numel, trainable_some.
  destruct (filter requires_grad_of (parameters m)); simpl; [lia | discriminate].
Qed.

(** Adding a multiple of [x - x] changes nothing. *)
Lemma add_scaled_zero_diff (c : scalar) (pg x : vec) :
  length pg = length x ->
  zip_with Qcplus pg (vscale c (zip_with Qcminus x x)) = pg.
Proof.
  revert x; induction pg as [|p pg IH]; intros [|y x] H; simpl in *; try discriminate;
    [reflexivity|].
  rewrite IH by now injection H. f_equal. ring.
Qed.


Section FedDyn_fit_edges.

Variable Batch : Type.
Variable OptState : Type.
Variable loss_fn : nnModule -> Batch -> scalar.
Variable optimizer_cfg : nnModule -> scalar -> OptState.
Variable optimizer_step :
  OptState -> (nnModule -> result scalar) -> nnModule -> nnModule * OptState.
Variable scheduler_step : OptState -> OptState.

(** A loop over minibatches whose loss cannot be computed stops at the first
    minibatch, with the model as it was. *)
Lemma train_batches_stuck (coef : scalar) (server : vec) (pg : option vec) (m1 : nnModule)
  (ex : exn) (bs : list Batch) (opt : OptState) (rl : scalar) :
  (forall b, FedDyn.minibatch_loss loss_fn coef server pg b m1 = Raise ex) ->
  FedDyn.train_batches loss_fn optimizer_step coef server pg bs m1 opt rl =
  (m1, opt, match bs with [] => Ok rl | _ :: _ => Raise ex end).
Proof.
  intros H. destruct bs as [|b bs]; [reflexivity|].
  cbn [FedDyn.train_batches]. now rewrite H.
Qed.

Lemma train_epochs_stuck (coef : scalar) (server : vec) (pg : option vec) (m1 : nnModule)
  (ex : exn) (ts : FedDyn.FastDataLoader Batch) (n : nat) :
  (forall b, FedDyn.minibatch_loss loss_fn coef server pg b m1 = Raise ex) ->
  forall e opt rl, exists opt',
    FedDyn.train_epochs loss_fn optimizer_step scheduler_step coef server pg ts n e m1 opt rl =
      (m1, opt', Ok rl) \/
    FedDyn.train_epochs loss_fn optimizer_step scheduler_step coef server pg ts n e m1 opt rl =
      (m1, opt', Raise ex).
Proof.
  intros H. induction n as [|n IH]; intros e opt rl.
  - exists opt. now left.
  - cbn [FedDyn.train_epochs]. rewrite (train_batches_stuck _ _ _ _ ex _ _ _ H).
    destruct (FedDyn.epoch_batches ts e) as [|b bs].
    + apply IH.
    + exists opt. now right.
Qed.

(** X7.  [fit] snapshots [server_params] over the trainable parameters and
    then sets [requires_grad] on every parameter, so on a model with a frozen
    parameter the current parameters are a longer vector than the snapshot:
    the penalty of the first minibatch, or without any minibatch
    [server_params - curr_params], raises [RuntimeError]. ([1 <
    trainable_numel] keeps the operands clear of torch's broadcasting of a
    single element.) *)
Theorem fit_partly_frozen_raises (self : FedDyn.Client Batch OptState) (override : Z)
  (m : nnModule) (w : scalar) (pg : vec) (e : entry) :
  FedDyn.model self = Some m -> FedDyn.weight self = Some w ->
  FedDyn.prev_grads self = Some pg ->
  wf_module m -> (1 < FedDyn.trainable_numel m)%nat ->
  In e m -> knd e = KParameter false ->
  (0 < Tensor.numel_of (Tensor.shape (value e)))%nat ->
  snd (FedDyn.fit loss_fn optimizer_cfg optimizer_step scheduler_step self override) =
  Raise RuntimeError.
Proof.
  intros Hm Hw Hpg Hwf Hnum He Hk Hpos.
  assert (Hts : trainable_some m) by (apply trainable_numel_some; lia).
  assert (Hlt : (length (flat m) < length (flat (FedDyn.set_requires_grad m)))%nat).
  { apply (unfreeze_grows m e He Hk).
    destruct Hwf as [_ Hwf]. rewrite Forall_forall in Hwf.
    specialize (Hwf e He). unfold Tensor.wf in Hwf. lia. }
  set (m1 := FedDyn.set_requires_grad m) in *.
  assert (Hts1 : trainable_some m1) by now apply unfreeze_trainable_some.
  assert (Hloss : forall b,
            FedDyn.minibatch_loss loss_fn (FedDyn.alpha self / w) (flat m) (Some pg) b m1 =
            Raise RuntimeError).
  { intros b. unfold FedDyn.minibatch_loss.
    rewrite (get_all_params_of_some m1 false Hts1). cbn [FedDyn.to_device bind].
    unfold vadd, vmul, vbin.
    destruct (Nat.eqb (length (vneg (flat m))) (length pg)) eqn:E; [|reflexivity].
    apply Nat.eqb_eq in E. cbn [bind].
    rewrite zip_with_length by exact E. unfold vneg. rewrite length_map.
    destruct (Nat.eqb_spec (length (flat m1)) (length (flat m))); [lia|reflexivity]. }
  assert (Hupd : FedDyn.update_prev_grads (FedDyn.alpha self / w) (flat m) (Some pg) m1 =
                 Raise RuntimeError).
  { unfold FedDyn.update_prev_grads.
    rewrite (get_all_params_of_some m1 true Hts1). cbn [FedDyn.to_device bind].
    unfold vsub, vbin.
    destruct (Nat.eqb_spec (length (flat m)) (length (flat m1))); [lia|reflexivity]. }
  unfold FedDyn.fit. rewrite Hm, Hw, Hpg.
  rewrite (get_all_params_of_some m true Hts). cbn [FedDyn.to_device]. fold m1.
  match goal with
  | |- context [FedDyn.train_epochs _ _ _ ?c ?s ?p ?ts ?n ?e0 ?mm ?o ?r] =>
      destruct (train_epochs_stuck c s p mm RuntimeError ts n Hloss e0 o r)
        as (opt' & [Hrun|Hrun]); rewrite Hrun
  end.
  - rewrite Hupd. reflexivity.
  - reflexivity.
Qed.

(** X8.  With no local epoch to run ([override_local_epochs <= 0] and
    [local_epochs <= 0]) [fit] on a client whose weight is not 0 trains
    nothing: it leaves the model and [prev_grads] as they were, creates the
    optimizer if there was none, and then divides by
    [epochs * len(train_set)]: [ZeroDivisionError] when that is 0, else a loss
    of 0. *)
Theorem fit_without_epochs (self : FedDyn.Client Batch OptState) (override : Z)
  (m : nnModule) (w : scalar) (pg : vec) :
  FedDyn.model self = Some m -> FedDyn.weight self = Some w -> w <> 0 ->
  FedDyn.prev_grads self = Some pg ->
  all_trainable m -> trainable_some m -> length pg = length (flat m) ->
  (override <= 0)%Z -> (FedDyn.local_epochs self <= 0)%Z ->
  FedDyn.fit loss_fn optimizer_cfg optimizer_step scheduler_step self override =
  (FedDyn.with_optimizer self
     (Some (match FedDyn.optimizer self with
            | Some o => o
            | None => optimizer_cfg m (FedDyn.alpha self / w + FedDyn.weight_decay self)
            end)),
   if (FedDyn.local_epochs self * Z.of_nat (FedDyn.len_ (FedDyn.train_set self)) =? 0)%Z
   then Raise ZeroDivisionError else Ok 0).
Proof.
  intros Hm Hw _ Hpg Hall Hts Hlen Hov Hle.
  unfold FedDyn.fit. rewrite Hm, Hw, Hpg.
  rewrite (get_all_params_of_some m true Hts). cbn [FedDyn.to_device].
  rewrite (set_requires_grad_id m Hall).
  replace (0 <? override)%Z with false by (symmetry; apply Z.ltb_ge; exact Hov).
  replace (Z.to_nat (FedDyn.local_epochs self)) with 0%nat by lia.
  cbn [FedDyn.train_epochs].
  unfold FedDyn.update_prev_grads.
  rewrite (get_all_params_of_some m true Hts). cbn [FedDyn.to_device bind].
  unfold vsub, vadd. rewrite vbin_ok by reflexivity. cbn [bind].
  rewrite vbin_ok by (unfold vscale; rewrite length_map, zip_with_length; auto).
  rewrite add_scaled_zero_diff by exact Hlen.
  assert (Hself : FedDyn.with_prev_grads
                    (FedDyn.with_optimizer (FedDyn.with_model self (Some m))
                       (Some (match FedDyn.optimizer self with
                              | Some o => o
                              | None => optimizer_cfg m
                                          (FedDyn.alpha self / w + FedDyn.weight_decay self)
                              end))) (Some pg) =
                  FedDyn.with_optimizer self
                    (Some (match FedDyn.optimizer self with
                           | Some o => o
                           | None => optimizer_cfg m
                                       (FedDyn.alpha self / w + FedDyn.weight_decay self)
                           end))).
  { destruct self; simpl in *; subst; reflexivity. }
  rewrite Hself.
  destruct (_ =? 0)%Z; [reflexivity|].
  do 2 f_equal. unfold Qcdiv. ring.
Qed.

(** The optimizer changes values only: names, kinds and shapes stay. *)
Hypothesis optimizer_step_arch :
  forall opt f m, wf_module m -> Forall2 arch_rel m (fst (optimizer_step opt f m)).


End FedDyn_fit_edges.

(* ------------------------------------------------------------------ *)
(** ** feddyn.py: [send_model] and the gradients that [aggregate] collects *)

Section FedDyn_send_collect.

Variable Batch : Type.
Variable OptState : Type.

(** The ["model"] message of [send_model]. *)
Definition model_msg (c : FedDyn.Client Batch OptState) : FedDyn.Id * FedDyn.Message :=
  (FedDyn.ServerId,
   FedDyn.mkMessage (FedDyn.PModel (FedDyn.model c)) "model"
                    (FedDyn.ClientId (FedDyn.index c))).

(** What a client reports: itself and its [prev_grads]. *)
Definition report_of (c : FedDyn.Client Batch OptState)
  : FedDyn.Client Batch OptState * option vec :=
  (c, FedDyn.prev_grads c).

(** The two messages of [send_model], in the order they are sent. *)
Definition sent_by (c : FedDyn.Client Batch OptState) : list (FedDyn.Id * FedDyn.Message) :=
  [model_msg c; grads_msg Batch OptState (report_of c)].

Lemma send_models_ok (cs : list (FedDyn.Client Batch OptState)) :
  forall ch, exists lg,
  fold_left (fun ch0 c => FedDyn.send_model c ch0) cs ch =
  FedDyn.mkChannel (FedDyn.pending ch ++ flat_map sent_by cs) lg.
Proof.
  induction cs as [|c cs IH]; intros ch.
  - exists (FedDyn.log ch). simpl. rewrite app_nil_r. now destruct ch.
  - cbn [fold_left].
    destruct (IH (FedDyn.send_model c ch)) as (lg & Hlg).
    exists lg. rewrite Hlg. unfold FedDyn.send_model, FedDyn.send.
    cbn [FedDyn.pending FedDyn.log flat_map].
    unfold sent_by at 2, model_msg, grads_msg, report_of.
    cbn [fst snd app]. now rewrite <- !app_assoc.
Qed.

Lemma collect_after_send (L : nat) (cs : list (FedDyn.Client Batch OptState))
  (tail : list (FedDyn.Id * FedDyn.Message)) :
  forall p0 lg,
  none_pending "grads" p0 ->
  Forall (fun g => length g = L) (present Batch OptState (map report_of cs)) ->
  exists lg',
  FedDyn.collect_grads cs (FedDyn.mkChannel (p0 ++ flat_map sent_by cs ++ tail) lg) =
  Ok (sum_from None (present Batch OptState (map report_of cs)),
      length (present Batch OptState (map report_of cs)),
      FedDyn.mkChannel (p0 ++ map model_msg cs ++ tail) lg').
Proof.
  unfold FedDyn.collect_grads.
  assert (H : forall p0 acc cnt lg0,
    none_pending "grads" p0 ->
    Forall (fun g => length g = L) (present Batch OptState (map report_of cs)) ->
    (forall a, acc = Some a -> length a = L) ->
    exists lg',
    for_each cs
      (fun st (client : FedDyn.Client Batch OptState) =>
         let '(avg_grad, grad_count, ch0) := st in
         r <- FedDyn.receive FedDyn.ServerId (FedDyn.ClientId (FedDyn.index client))
                "grads" ch0 ;;
         match FedDyn.payload (fst r) with
         | FedDyn.PGrads None => Ok (avg_grad, grad_count, snd r)
         | FedDyn.PGrads (Some pg) =>
             match avg_grad with
             | None => Ok (Some pg, S grad_count, snd r)
             | Some a => s <- vadd a pg ;; Ok (Some s, S grad_count, snd r)
             end
         | _ => Raise TypeError
         end)
      (acc, cnt, FedDyn.mkChannel (p0 ++ flat_map sent_by cs ++ tail) lg0) =
    Ok (sum_from acc (present Batch OptState (map report_of cs)),
        (cnt + length (present Batch OptState (map report_of cs)))%nat,
        FedDyn.mkChannel (p0 ++ map model_msg cs ++ tail) lg')).
  { induction cs as [|c cs IH]; intros p0 acc cnt lg0 Hp0 Hlen Hacc.
    - exists lg0. simpl. now rewrite Nat.add_0_r.
    - cbn [for_each flat_map map app].
      assert (Hrecv :
        FedDyn.receive FedDyn.ServerId (FedDyn.ClientId (FedDyn.index c)) "grads"
          (FedDyn.mkChannel (p0 ++ (sent_by c ++ flat_map sent_by cs) ++ tail) lg0) =
        Ok (FedDyn.mkMessage (FedDyn.PGrads (FedDyn.prev_grads c)) "grads"
              (FedDyn.ClientId (FedDyn.index c)),
            FedDyn.mkChannel ((p0 ++ [model_msg c]) ++ flat_map sent_by cs ++ tail)
              (lg0 ++ [FedDyn.Received FedDyn.ServerId
                         (FedDyn.ClientId (FedDyn.index c)) "grads"]))).
      { unfold FedDyn.receive. cbn [FedDyn.pending FedDyn.log].
        unfold sent_by at 1. cbn [app].
        replace (p0 ++ model_msg c :: grads_msg Batch OptState (report_of c) ::
                       flat_map sent_by cs ++ tail)
          with ((p0 ++ [model_msg c]) ++ grads_msg Batch OptState (report_of c) ::
                  (flat_map sent_by cs ++ tail))
          by (now rewrite <- app_assoc).
        rewrite (take_first_skip _ _ _ (p0 ++ [model_msg c]) _
                   (grads_msg Batch OptState (report_of c))).
        - reflexivity.
        - apply none_pending_no_match. apply Forall_app. split; [exact Hp0|].
          constructor; [|constructor]. simpl. discriminate.
        - unfold FedDyn.matches, grads_msg; simpl. now rewrite Nat.eqb_refl. }
      rewrite Hrecv. cbn [bind fst snd FedDyn.payload].
      assert (Hp0' : none_pending "grads" (p0 ++ [model_msg c])).
      { apply Forall_app. split; [exact Hp0|]. constructor; [|constructor].
        simpl. discriminate. }
      unfold present in Hlen; cbn [map flat_map] in Hlen.
      unfold report_of at 1 in Hlen. cbn [snd] in Hlen.
      fold (present Batch OptState (map report_of cs)) in Hlen.
      unfold present; cbn [map flat_map]. unfold report_of at 1 3. cbn [snd].
      fold (present Batch OptState (map report_of cs)).
      destruct (FedDyn.prev_grads c) as [g|].
      + cbn [app] in Hlen. inversion Hlen as [|? ? Hg Hlen']; subst.
        destruct acc as [a|].
        * rewrite (vadd_ok a g) by (rewrite (Hacc a eq_refl); congruence).
          cbn [bind].
          destruct (IH (p0 ++ [model_msg c]) (Some (zip_with Qcplus a g)) (S cnt)
                       (lg0 ++ [FedDyn.Received FedDyn.ServerId
                                  (FedDyn.ClientId (FedDyn.index c)) "grads"])
                       Hp0' Hlen') as (lg' & Hlg').
          { intros a' [= <-]. rewrite zip_with_length; [now apply Hacc | ].
            rewrite (Hacc a eq_refl); congruence. }
          exists lg'. etransitivity; [exact Hlg'|].
          cbn [app length sum_from fold_left].
          rewrite <- app_assoc, Nat.add_succ_r. reflexivity.
        * cbn [bind].
          destruct (IH (p0 ++ [model_msg c]) (Some g) (S cnt)
                       (lg0 ++ [FedDyn.Received FedDyn.ServerId
                                  (FedDyn.ClientId (FedDyn.index c)) "grads"])
                       Hp0' Hlen') as (lg' & Hlg').
          { intros a' [= <-]. reflexivity. }
          exists lg'. etransitivity; [exact Hlg'|].
          cbn [app length sum_from fold_left].
          rewrite <- app_assoc, Nat.add_succ_r. reflexivity.
      + cbn [bind app] in *.
        destruct (IH (p0 ++ [model_msg c]) acc cnt
                     (lg0 ++ [FedDyn.Received FedDyn.ServerId
                                (FedDyn.ClientId (FedDyn.index c)) "grads"])
                     Hp0' Hlen Hacc) as (lg' & Hlg').
        exists lg'. etransitivity; [exact Hlg'|]. now rewrite <- app_assoc. }
  intros p0 lg Hp0 Hlen. apply (H p0 None 0%nat lg Hp0 Hlen). discriminate.
Qed.

(** X10.  Once every eligible client has called [send_model], the loop of
    [aggregate] over the eligible clients receives exactly their [prev_grads],
    in their order: it sums those that are not [None] and counts them, and it
    leaves the ["model"] messages pending, in the order they were sent. *)
Theorem send_model_then_collect_grads (L : nat) (cs : list (FedDyn.Client Batch OptState))
  (ch0 : FedDyn.Channel) :
  none_pending "grads" (FedDyn.pending ch0) ->
  Forall (fun g => length g = L) (present Batch OptState (map report_of cs)) ->
  exists ch1 ch2,
    fold_left (fun ch c => FedDyn.send_model c ch) cs ch0 = ch1 /\
    FedDyn.collect_grads cs ch1 =
      Ok (sum_from None (present Batch OptState (map report_of cs)),
          length (present Batch OptState (map report_of cs)), ch2) /\
    FedDyn.pending ch2 = FedDyn.pending ch0 ++ map model_msg cs.
Proof.
  intros Hp0 Hlen.
  destruct (send_models_ok cs ch0) as (lg & Hsend).
  destruct (collect_after_send L cs [] (FedDyn.pending ch0) lg Hp0 Hlen) as (lg' & Hcol).
  rewrite !app_nil_r in Hcol.
  eexists _, _. split; [exact Hsend|]. split; [exact Hcol|]. reflexivity.
Qed.

(** X11.  [aggregate] cannot do without a gradient: when none of the eligible
    clients has reported one (all [prev_grads] are [None], or nobody is
    eligible) the call never returns a server; with client models of the
    architecture of the global model, and clients whose example counts do not
    sum to 0, it is [avg_grad.to(device)] that raises [AttributeError],
    [avg_grad] being [None]. *)
Theorem aggregate_without_gradient_raises (self : FedDyn.Server Batch OptState)
  (reports : list (FedDyn.Client Batch OptState * option vec))
  (client_models : list nnModule) (rest : list (FedDyn.Id * FedDyn.Message)) :
  FedDyn.pending (FedDyn.channel self) = map (grads_msg Batch OptState) reports ++ rest ->
  present Batch OptState reports = [] ->
  (forall self', FedDyn.aggregate self (map fst reports) client_models <> Ok self') /\
  (wf_module (FedDyn.smodel self) -> trainable_some (FedDyn.smodel self) ->
   Forall (fun cm => Forall2 arch_rel (FedDyn.smodel self) cm) client_models ->
   (length client_models <= length reports)%nat ->
   total_examples Batch OptState (map fst reports) <> 0 ->
   FedDyn.aggregate self (map fst reports) client_models = Raise AttributeError).
Proof.
  intros Hpend Hnone.
  assert (Hcol : FedDyn.collect_grads (map fst reports) (FedDyn.channel self) =
                 Ok (None, 0%nat,
                     FedDyn.mkChannel rest
                       (FedDyn.log (FedDyn.channel self) ++
                        map (fun r => FedDyn.Received FedDyn.ServerId
                                        (FedDyn.ClientId (FedDyn.index (fst r))) "grads")
                            reports))).
  { destruct (FedDyn.channel self) as [pend lg]. cbn [FedDyn.pending FedDyn.log] in *.
    subst pend. rewrite (collect_grads_ok Batch OptState 0 reports rest lg).
    - now rewrite Hnone.
    - rewrite Hnone. constructor. }
  split.
  - intros self'. unfold FedDyn.aggregate.
    destruct (FedDyn.aggregate_models _ _ _ _) as [agg|e]; cbn [bind]; [|discriminate].
    rewrite Hcol. cbn [bind fst snd FedDyn.mean_grad Nat.ltb Nat.leb].
    destruct (load_state_dict _ _ _) as [m'|e]; cbn [bind]; [|discriminate].
    unfold FedDyn.reconstruct_cloud.
    destruct (FedDyn.get_all_params_of m' true); cbn [FedDyn.to_device bind]; discriminate.
  - intros Hwf Hts Hcms Hlen _.
    set (ws := FedDyn._get_client_weights self (map fst reports)).
    assert (Hws : (length client_models <= length ws)%nat).
    { unfold ws, FedDyn._get_client_weights.
      destruct (FedDyn.weighted self); rewrite !length_map; exact Hlen. }
    destruct (aggregate_models_ok _ _ ws (FedDyn.lr self) Hwf Hcms Hws) as (agg & Hagg & Hrel).
    pose proof (agg_rel_arch _ _ _ _ _ Hrel) as Harch.
    unfold FedDyn.aggregate. fold ws. rewrite Hagg. cbn [bind].
    rewrite Hcol. cbn [bind fst snd FedDyn.mean_grad Nat.ltb Nat.leb].
    rewrite (load_state_dict_strict _ _ Hwf Harch). cbn [bind].
    unfold FedDyn.reconstruct_cloud.
    rewrite (get_all_params_of_some agg true (arch_rel_trainable_some _ _ Harch Hts)).
    reflexivity.
Qed.

End FedDyn_send_collect.

(* ------------------------------------------------------------------ *)
(** ** feddyn.py: the invariant of the server *)

Lemma unflatten_arch (m : nnModule) :
  wf_module m ->
  forall v, (length (flat m) <= length v)%nat -> Forall2 arch_rel m (unflatten m v).
Proof.
  intros [_ Hwf]. induction Hwf as [|e m He _ IH]; intros v Hlen; simpl; [constructor|].
  rewrite flat_cons in Hlen.
  destruct (knd e) as [[|]|] eqn:Hk.
  - rewrite length_app in Hlen. constructor.
    + unfold arch_rel, like, Tensor.wf in *. simpl. rewrite Hk.
      repeat split; auto. rewrite length_firstn. lia.
    + apply IH. rewrite length_skipn. lia.
  - constructor; [|now apply IH]. unfold arch_rel, like. auto.
  - constructor; [|now apply IH]. unfold arch_rel, like. auto.
Qed.

Lemma vbin_length (f : scalar -> scalar -> scalar) (a b v : vec) :
  vbin f a b = Ok v -> length v = length a.
Proof.
  unfold vbin. destruct (Nat.eqb_spec (length a) (length b)) as [E|]; [|discriminate].
  intros [= <-]. now apply zip_with_length.
Qed.

Section FedDyn_invariant.

Variable Batch : Type.
Variable OptState : Type.

(** What [aggregate] needs of the server: a well-formed global model with a
    trainable parameter, and a well-formed cloud model of the same
    architecture. *)
Definition server_ok (s : FedDyn.Server Batch OptState) : Prop :=
  wf_module (FedDyn.smodel s) /\ trainable_some (FedDyn.smodel s) /\
  wf_module (FedDyn.cld_mdl s) /\
  Forall2 arch_rel (FedDyn.smodel s) (FedDyn.cld_mdl s).

(** X12.  [__init__] establishes the invariant of the server and [aggregate]
    keeps it, so a round can follow a round: after [aggregate] (with at least
    one reported gradient and example counts that do not sum to 0) the global
    model and the cloud model are well-formed and of one architecture again;
    the ["grads"] messages of the eligible clients are consumed and nothing
    else is; clients, learning rate and weighting mode are untouched. *)
Theorem server_invariant_kept :
  (forall base : FedDyn.Server Batch OptState,
     wf_module (FedDyn.smodel base) -> trainable_some (FedDyn.smodel base) ->
     server_ok (FedDyn.Server__init__ base)) /\
  (forall (self : FedDyn.Server Batch OptState)
          (reports : list (FedDyn.Client Batch OptState * option vec))
          (client_models : list nnModule) (rest : list (FedDyn.Id * FedDyn.Message)),
     server_ok self ->
     Forall (fun cm => Forall2 arch_rel (FedDyn.smodel self) cm) client_models ->
     (length client_models <= length reports)%nat ->
     FedDyn.pending (FedDyn.channel self) = map (grads_msg Batch OptState) reports ++ rest ->
     Forall (fun g => length g = length (flat (FedDyn.smodel self)))
            (present Batch OptState reports) ->
     present Batch OptState reports <> [] ->
     total_examples Batch OptState (map fst reports) <> 0 ->
     exists self',
       FedDyn.aggregate self (map fst reports) client_models = Ok self' /\
       server_ok self' /\
       Forall2 arch_rel (FedDyn.smodel self) (FedDyn.smodel self') /\
       FedDyn.pending (FedDyn.channel self') = rest /\
       FedDyn.clients self' = FedDyn.clients self /\
       FedDyn.lr self' = FedDyn.lr self /\
       FedDyn.weighted self' = FedDyn.weighted self).
Proof.
  split.
  - intros base Hwf Hts. unfold server_ok, FedDyn.Server__init__; simpl.
    auto using arch_rel_refl.
  - intros self reports client_models rest (Hwf & Hts & Hwfc & Hcld) Hcms Hlen Hpend Hgl Hne _.
    destruct (aggregate_spec Batch OptState self reports client_models rest
                Hwf Hts Hwfc Hcld Hcms Hlen Hpend Hgl Hne)
      as (self' & avg & Hagg & Hmodels & Hrel & Hlavg & _ & Hflat & _ & _).
    pose proof (agg_rel_arch _ _ _ _ _ Hrel) as Harch.
    exists self'. split; [exact Hagg|].
    (* what the call is made of *)
    unfold FedDyn.aggregate in Hagg. rewrite Hmodels in Hagg. cbn [bind] in Hagg.
    destruct (FedDyn.channel self) as [pend lg] eqn:Hch. cbn [FedDyn.pending] in Hpend.
    subst pend. rewrite (collect_grads_ok Batch OptState _ reports rest lg Hgl) in Hagg.
    cbn [bind fst snd] in Hagg.
    apply bind_Ok_inv in Hagg. destruct Hagg as (m' & Hload & Hagg).
    apply bind_Ok_inv in Hagg. destruct Hagg as (cld' & Hrec & Hagg).
    injection Hagg as <-. unfold server_ok. cbn [FedDyn.smodel FedDyn.cld_mdl FedDyn.channel FedDyn.pending
                                 FedDyn.clients FedDyn.lr FedDyn.weighted] in *.
    unfold FedDyn.reconstruct_cloud in Hrec. rewrite Hflat in Hrec.
    cbn [FedDyn.to_device bind] in Hrec.
    apply bind_Ok_inv in Hrec. destruct Hrec as (ag & _ & Hrec).
    apply bind_Ok_inv in Hrec. destruct Hrec as (v & Hv & Hrec).
    apply vbin_length in Hv.
    assert (Hlv : (length (flat (FedDyn.cld_mdl self)) <= length v)%nat).
    { rewrite Hv, (arch_rel_flat_length _ _ Harch Hwf),
              (arch_rel_flat_length _ _ Hcld Hwf). apply Nat.le_refl. }
    rewrite load_all_params_unflatten in Hrec; [|exact Hwfc|exact Hlv].
    injection Hrec as <-.
    pose proof (unflatten_arch _ Hwfc v Hlv) as Hcarch.
    assert (Hwf' : wf_module m') by (eapply arch_rel_wf; eauto).
    assert (Hwfc' : wf_module (unflatten (FedDyn.cld_mdl self) v))
      by (eapply arch_rel_wf; eauto).
    assert (Hts' : trainable_some m') by (eapply arch_rel_trainable_some; eauto).
    assert (Harch' : Forall2 arch_rel m' (unflatten (FedDyn.cld_mdl self) v)).
    { apply (arch_rel_trans m' (FedDyn.smodel self));
        [apply arch_rel_sym; [exact Hwf | exact Harch]|].
      apply (arch_rel_trans _ (FedDyn.cld_mdl self)); [exact Hcld | exact Hcarch]. }
    repeat split; auto; try apply Hwf'; try apply Hwfc'.
Qed.

End FedDyn_invariant.

(* ------------------------------------------------------------------ *)
(** ** feddyn.py: the weight exchange, again *)

Lemma count_to_scalar_mul (k c : nat) :
  FedDyn.count_to_scalar (k * c) = FedDyn.count_to_scalar k * FedDyn.count_to_scalar c.
Proof.
  unfold FedDyn.count_to_scalar, Qcmult. apply Q2Qc_eq_iff.
  cbn [this Q2Qc]. rewrite !Qred_correct.
  rewrite Nat2Z.inj_mul, inject_Z_mult. reflexivity.
Qed.

Lemma vsum_counts_scaled (k : nat) (counts : list nat) :
  vsum (map FedDyn.count_to_scalar (map (Nat.mul k) counts)) =
  FedDyn.count_to_scalar k * vsum (map FedDyn.count_to_scalar counts).
Proof.
  induction counts as [|c counts IH]; simpl; [ring|].
  rewrite IH, count_to_scalar_mul. ring.
Qed.

(** X13.  Line 213 looks at proportions only: multiplying every example count
    by the same [k > 0] gives the same weights. *)
Theorem normalize_weights_scale_invariant (k : nat) (counts : list nat) (n_clients : nat) :
  k <> 0%nat -> vsum (map FedDyn.count_to_scalar counts) <> 0 ->
  FedDyn.normalize_weights (map (Nat.mul k) counts) n_clients =
  FedDyn.normalize_weights counts n_clients.
Proof.
  intros Hk Htot. unfold FedDyn.normalize_weights.
  rewrite vsum_counts_scaled, map_map. apply map_ext. intros c.
  rewrite count_to_scalar_mul.
  assert (Hk' : FedDyn.count_to_scalar k <> 0)
    by (intros H; apply count_to_scalar_zero in H; contradiction).
  field. split; assumption.
Qed.

Lemma ex_counts_nonzero :
  vsum (map FedDyn.count_to_scalar [10; 20; 30]%nat) <> 0.
Proof.
  intros H. apply (f_equal Qcanon.this) in H. vm_compute in H. discriminate.
Qed.

Lemma normalize_weights_scale_invariant_witness :
  FedDyn.normalize_weights (map (Nat.mul 2) [10; 20; 30]%nat) 3 =
  FedDyn.normalize_weights [10; 20; 30]%nat 3.
Proof.
  apply (normalize_weights_scale_invariant 2 [10; 20; 30]%nat 3).
  - discriminate.
  - exact ex_counts_nonzero.
Defined.

Section FedDyn_exchange_again.

Variable Batch : Type.
Variable OptState : Type.

Lemma with_weight_twice (c : FedDyn.Client Batch OptState) (w w' : option scalar) :
  FedDyn.with_weight (FedDyn.with_weight c w) w' = FedDyn.with_weight c w'.
Proof. reflexivity. Qed.

Lemma total_examples_with_weight (f : FedDyn.Client Batch OptState -> option scalar)
  (cs : list (FedDyn.Client Batch OptState)) :
  total_examples Batch OptState (map (fun c => FedDyn.with_weight c (f c)) cs) =
  total_examples Batch OptState cs.
Proof.
  unfold total_examples. now rewrite !map_map.
Qed.

(** X14.  Running the weight exchange a second time (a second call of
    [FedDynServer.fit]), with example counts that do not sum to 0, changes
    nothing: every client is sent the weight it already holds, and the pending
    messages are those from before. *)
Theorem weight_exchange_twice (self : FedDyn.Server Batch OptState) :
  no_weight_pending (FedDyn.pending (FedDyn.channel self)) ->
  total_examples Batch OptState (FedDyn.clients self) <> 0 ->
  exists s1 s2,
    FedDyn.weight_exchange self = Ok s1 /\
    FedDyn.weight_exchange s1 = Ok s2 /\
    FedDyn.clients s2 = FedDyn.clients s1 /\
    FedDyn.pending (FedDyn.channel s2) = FedDyn.pending (FedDyn.channel self).
Proof.
  intros Hp0 _.
  pose proof (weight_exchange_ok Batch OptState self Hp0) as H1.
  match type of H1 with _ = Ok ?s => set (s1 := s) in * end.
  assert (Hp1 : no_weight_pending (FedDyn.pending (FedDyn.channel s1))) by exact Hp0.
  pose proof (weight_exchange_ok Batch OptState s1 Hp1) as H2.
  match type of H2 with _ = Ok ?s => set (s2 := s) in * end.
  exists s1, s2. split; [exact H1|]. split; [exact H2|]. split; [|reflexivity].
  subst s2 s1. cbn [FedDyn.clients].
  rewrite map_map. apply map_ext. intros c. rewrite with_weight_twice.
  unfold normalized_weight. rewrite total_examples_with_weight, length_map.
  reflexivity.
Qed.

End FedDyn_exchange_again.

Lemma weight_exchange_twice_witness :
  no_weight_pending (FedDyn.pending (FedDyn.channel ex_dyn_server)) /\
  total_examples unit unit (FedDyn.clients ex_dyn_server) <> 0 /\
  exists s1 s2,
    FedDyn.weight_exchange ex_dyn_server = Ok s1 /\
    FedDyn.weight_exchange s1 = Ok s2 /\
    FedDyn.clients s2 = FedDyn.clients s1.
Proof.
  assert (H : no_weight_pending (FedDyn.pending (FedDyn.channel ex_dyn_server)))
    by constructor.
  assert (Htot : total_examples unit unit (FedDyn.clients ex_dyn_server) <> 0)
    by exact ex_total_nonzero.
  split; [exact H|]. split; [exact Htot|].
  destruct (weight_exchange_twice unit unit ex_dyn_server H Htot)
    as (s1 & s2 & H1 & H2 & H3 & _).
  exists s1, s2. auto.
Defined.

(* ------------------------------------------------------------------ *)
(** ** fedavgm.py: what [aggregate] leaves alone, and its edges *)

Lemma map_result_inv {A B : Type} (R : A -> B -> Prop) (f : A -> result B) (l : list A) :
  forall l', map_result f l = Ok l' ->
  (forall x y, In x l -> f x = Ok y -> R x y) -> Forall2 R l l'.
Proof.
  induction l as [|x l IH]; intros l' H HR; simpl in H.
  - injection H as <-. constructor.
  - destruct (f x) as [y|e] eqn:Hy; cbn [bind] in H; [|discriminate].
    destruct (map_result f l) as [ys|e] eqn:Hys; cbn [bind] in H; [|discriminate].
    injection H as <-. constructor.
    + apply HR; [now left | exact Hy].
    + apply IH; [reflexivity|]. intros x' y' Hin. apply HR. now right.
Qed.

Lemma map_result_raises {A B : Type} (f : A -> result B) (ex : exn) (l : list A) :
  (exists x, In x l /\ f x = Raise ex) ->
  (forall x, In x l -> (exists y, f x = Ok y) \/ f x = Raise ex) ->
  map_result f l = Raise ex.
Proof.
  induction l as [|x l IH]; intros (x0 & Hin & Hx0) Hall; [contradiction|].
  simpl. destruct (Hall x (or_introl eq_refl)) as [(y & Hy)|Hx].
  - rewrite Hy. cbn [bind]. rewrite IH; [reflexivity | | ].
    + destruct Hin as [->|Hin]; [congruence|]. exists x0. auto.
    + intros x' Hx'. apply Hall. now right.
  - now rewrite Hx.
Qed.

Lemma bin_shape (f : scalar -> scalar -> scalar) (a b t : Tensor.t) :
  Tensor.bin f a b = Ok t -> Tensor.shape t = Tensor.shape a.
Proof.
  unfold Tensor.bin. destruct (Tensor.shape_eqb _ _); [|discriminate].
  now intros [= <-].
Qed.

(** X15.  Whenever [aggregate] returns, the global model has the names, kinds
    and shapes it had, every buffer (ignored or not) is exactly what it was,
    the momentum coefficient is kept and the momentum buffer is set. *)
Theorem fedavgm_aggregate_frame (ignore : list string) (s s' : FedAVGM.Server)
  (cs : list (OrderedDict Tensor.t)) (ws : list scalar) :
  FedAVGM.aggregate ignore s cs ws = Ok s' ->
  Forall2 same_layout (FedAVGM.model s) (FedAVGM.model s') /\
  FedAVGM.hyper_momentum s' = FedAVGM.hyper_momentum s /\
  FedAVGM.momentum_vector s' <> None.
Proof.
  unfold FedAVGM.aggregate. intros H.
  apply bind_Ok_inv in H. destruct H as (avg & _ & H).
  apply bind_Ok_inv in H. destruct H as (mv & _ & H).
  apply bind_Ok_inv in H. destruct H as (m' & Happ & H).
  injection H as <-. cbn [FedAVGM.model FedAVGM.hyper_momentum FedAVGM.momentum_vector].
  split; [|split; [reflexivity|discriminate]].
  unfold FedAVGM.apply_momentum in Happ.
  eapply map_result_inv; [exact Happ|].
  intros e e' _ He. unfold same_layout. cbv beta in He.
  destruct (knd e) as [rg|] eqn:Hk.
  - apply bind_Ok_inv in He. destruct He as (mom & _ & He).
    apply bind_Ok_inv in He. destruct He as (v & Hv & He).
    injection He as <-. cbn [key knd value].
    repeat split; [now apply bin_shape in Hv | discriminate].
  - injection He as <-. auto.
Qed.

Lemma fedavgm_aggregate_frame_witness :
  exists s',
    FedAVGM.aggregate ex_ignore ex_server [ex_client (qc 8 1) (qc 7 1)] [qc 1 1] = Ok s' /\
    Forall2 same_layout (FedAVGM.model ex_server) (FedAVGM.model s').
Proof.
  eexists. split; [reflexivity|].
  eapply (fedavgm_aggregate_frame ex_ignore ex_server _
            [ex_client (qc 8 1) (qc 7 1)] [qc 1 1]).
  reflexivity.
Defined.

Lemma od_set_notin {V : Type} (d : OrderedDict V) (k : string) (v : V) :
  ~ In k (od_keys d) -> od_set d k v = d ++ [(k, v)].
Proof.
  induction d as [|[k' v'] d IH]; simpl; intros H; [reflexivity|].
  destruct (String.eqb_spec k' k) as [->|Hne].
  - exfalso; apply H; now left.
  - rewrite IH; [reflexivity|]. intros Hin; apply H; now right.
Qed.

(** The look-up of an entry of the model among the entries that [p] keeps. *)
Lemma filtered_get (p : entry -> bool) (g : nnModule) (e : entry) :
  NoDup (keys_of g) -> In e g ->
  od_get (state_dict (filter p g)) (key e) = if p e then Some (value e) else None.
Proof.
  induction g as [|e0 g IH]; intros Hnd Hin; [contradiction|].
  inversion Hnd as [|? ? Hnotin Hnd']; subst.
  assert (Hsub : forall k, In k (od_keys (state_dict (filter p g))) -> In k (keys_of g)).
  { intros k Hk. unfold od_keys, state_dict in Hk. rewrite map_map in Hk.
    apply in_map_iff in Hk. destruct Hk as (x & <- & Hx).
    apply filter_In in Hx. destruct Hx as [Hx _]. cbn [fst]. now apply (in_map key). }
  destruct Hin as [->|Hin].
  - simpl. destruct (p e) eqn:Hp.
    + simpl. now rewrite String.eqb_refl.
    + apply od_get_notin. intros Hk. apply Hnotin. now apply Hsub.
  - simpl. destruct (p e0).
    + simpl. destruct (String.eqb_spec (key e0) (key e)) as [Heq|Hne].
      * exfalso. apply Hnotin. rewrite Heq. now apply in_map.
      * now apply IH.
    + now apply IH.
Qed.

Section FedAVGM_edges.

Variable ignore : list string.

Definition ignored (e : entry) : bool := FedAVGM.endswith_any (key e) ignore.

(** Lines 65-79 without clients: [avg_model_sd] gets the ignored keys only. *)
Lemma average_no_clients (ws : list scalar) (todo : nnModule) :
  forall done,
  NoDup (keys_of (done ++ todo)) ->
  for_each (od_keys (state_dict todo))
    (FedAVGM.average_key ignore (state_dict (done ++ todo)) [] ws)
    (state_dict (filter ignored done)) =
  Ok (state_dict (filter ignored (done ++ todo))).
Proof.
  induction todo as [|e todo IH]; intros done Hnd.
  - simpl. now rewrite app_nil_r.
  - cbn [state_dict map od_keys fst for_each].
    unfold FedAVGM.average_key at 1.
    assert (Hin : In e (done ++ e :: todo)) by (apply in_or_app; right; now left).
    specialize (IH (done ++ [e])). rewrite <- !app_assoc in IH. cbn [app] in IH.
    rewrite filter_app in IH. cbn [filter] in IH. fold (ignored e).
    destruct (ignored e) eqn:Hig.
    + unfold od_lookup. rewrite (state_dict_get _ e Hnd Hin). cbn [bind].
      rewrite od_set_notin.
      2:{ intros Hk. unfold od_keys, state_dict in Hk. rewrite map_map in Hk.
          apply in_map_iff in Hk. destruct Hk as (x & Hx & Hxin).
          apply filter_In in Hxin. destruct Hxin as [Hxin _]. cbn [fst] in Hx.
          unfold keys_of in Hnd. rewrite map_app in Hnd. cbn [map] in Hnd.
          apply NoDup_remove_2 in Hnd. apply Hnd. apply in_or_app. left.
          rewrite <- Hx. now apply in_map. }
      unfold Tensor.clone.
      replace (state_dict (filter ignored done) ++ [(key e, value e)])
        with (state_dict (filter ignored done ++ [e]))
        by (unfold state_dict; now rewrite map_app).
      apply IH. exact Hnd.
    + cbn [for_each bind fst]. rewrite app_nil_r in IH. apply IH. exact Hnd.
Qed.

Lemma average_model_no_clients (g : nnModule) (ws : list scalar) :
  NoDup (keys_of g) ->
  FedAVGM.average_model ignore g [] ws = Ok (state_dict (filter ignored g)).
Proof.
  intros Hnd. unfold FedAVGM.average_model. cbn [map_result bind].
  exact (average_no_clients ws g [] Hnd).
Qed.

(** A loop over distinct keys whose body stores one value under its key or
    raises [ex], and raises [ex] at one of the keys at least. *)
Lemma for_each_od_set_raises {V : Type}
  (body : OrderedDict V -> string -> result (OrderedDict V)) (d0 : OrderedDict V)
  (ex : exn) (todo : list string) :
  forall d,
  NoDup todo ->
  (forall k, In k todo -> od_get d k = od_get d0 k) ->
  (forall d k, In k todo -> od_get d k = od_get d0 k ->
               (exists t, body d k = Ok (od_set d k t)) \/ body d k = Raise ex) ->
  (exists k, In k todo /\ forall d, body d k = Raise ex) ->
  for_each todo body d = Raise ex.
Proof.
  induction todo as [|k todo IH]; intros d Hnd Hd Hbody (k0 & Hk0 & Hraise);
    [contradiction|].
  inversion Hnd as [|? ? Hnotin Hnd']; subst.
  simpl. destruct (Hbody d k (or_introl eq_refl) (Hd k (or_introl eq_refl)))
    as [(t & Ht)|Hr].
  - rewrite Ht. cbn [bind]. apply IH; auto.
    + intros k' Hk'. rewrite od_get_set_other by (intros ->; contradiction).
      apply Hd. now right.
    + intros d1 k' Hk'. apply Hbody. now right.
    + destruct Hk0 as [->|Hk0]; [rewrite Hraise in Ht; discriminate|].
      exists k0. auto.
  - now rewrite Hr.
Qed.

(** X16.  With no client model ([get_client_models] returns an empty list),
    [aggregate] finds no entry for a parameter whose name is not ignored, in
    [avg_model_sd] (line 87) or in the momentum buffer (line 90), and raises
    [KeyError]. *)
Theorem fedavgm_no_clients_raises (s : FedAVGM.Server) (ws : list scalar)
  (e : entry) (rg : bool) :
  srv_ok s -> In e (FedAVGM.model s) -> knd e = KParameter rg ->
  FedAVGM.endswith_any (key e) ignore = false ->
  FedAVGM.aggregate ignore s [] ws = Raise KeyError.
Proof.
  intros [Hwf Hmv] He Hk Hni. pose proof (proj1 Hwf) as Hnd.
  set (g := FedAVGM.model s) in *.
  set (avg := state_dict (filter ignored g)).
  assert (Hget : forall x, In x g ->
            od_get avg (key x) = if ignored x then Some (value x) else None).
  { intros x Hx. now apply filtered_get. }
  assert (Hwfx : forall x, In x g -> like (value x) (value x)).
  { intros x Hx. apply like_refl. destruct Hwf as [_ Hw].
    rewrite Forall_forall in Hw. now apply Hw. }
  unfold FedAVGM.aggregate. fold g.
  rewrite (average_model_no_clients g ws Hnd). fold avg. cbn [bind].
  destruct (FedAVGM.momentum_vector s) as [mv|] eqn:Hmvs.
  - (* the loop of lines 84-87 *)
    specialize (Hmv mv eq_refl). fold g in Hmv.
    unfold FedAVGM.update_momentum.
    rewrite (for_each_od_set_raises
               (fun mv0 key_ =>
                  old <- od_lookup mv0 key_ ;;
                  a <- od_lookup avg key_ ;;
                  s0 <- Tensor.add (Tensor.scale (FedAVGM.hyper_momentum s) old) a ;;
                  Ok (od_set mv0 key_ s0)) mv KeyError (od_keys (state_dict g)) mv).
    + reflexivity.
    + unfold od_keys, state_dict. rewrite map_map. exact Hnd.
    + reflexivity.
    + intros d k Hkin Hd.
      unfold od_keys, state_dict in Hkin. rewrite map_map in Hkin.
      apply in_map_iff in Hkin. destruct Hkin as (x & <- & Hx). cbn [fst] in *.
      destruct (Hmv x Hx) as (told & Htold & Hlold).
      rewrite Htold in Hd. rewrite (od_lookup_some _ _ _ Hd). cbn [bind].
      unfold od_lookup. rewrite (Hget x Hx).
      destruct (ignored x); [|now right].
      cbn [bind].
      destruct (add_like (value x) (Tensor.scale (FedAVGM.hyper_momentum s) told) (value x))
        as (t & Ht & _); [now apply scale_like | now apply Hwfx |].
      rewrite Ht. cbn [bind]. left. now exists t.
    + exists (key e). split.
      * unfold od_keys, state_dict. rewrite map_map. now apply (in_map key).
      * intros d. unfold od_lookup. destruct (od_get d (key e)); [|reflexivity].
        cbn [bind]. rewrite (Hget e He). unfold ignored. now rewrite Hni.
  - (* lines 89-90 on the buffer of line 82 *)
    cbn [FedAVGM.update_momentum bind].
    unfold FedAVGM.apply_momentum.
    rewrite (map_result_raises _ KeyError); [reflexivity | | ].
    + exists e. split; [exact He|]. rewrite Hk. unfold od_lookup.
      rewrite (Hget e He). unfold ignored. now rewrite Hni.
    + intros x Hx. destruct (knd x) as [rg'|]; [|left; now exists x].
      unfold od_lookup. rewrite (Hget x Hx).
      destruct (ignored x); [|now right].
      cbn [bind].
      destruct (sub_like (value x) (value x) (value x)) as (t & Ht & _);
        [now apply Hwfx | now apply Hwfx |].
      rewrite Ht. cbn [bind]. left. eexists; reflexivity.
Qed.

Lemma vsum_weighted_diff {A : Type} (a : scalar) (f : A -> scalar) (l : list (A * scalar)) :
  vsum (map (fun cw => snd cw * (a - f (fst cw))) l) =
  a * vsum (map snd l) - vsum (map (fun cw => snd cw * f (fst cw)) l).
Proof.
  induction l as [|x l IH]; simpl; [ring|]. rewrite IH. ring.
Qed.

Lemma map_snd_combine_eq {A B : Type} (l : list A) (l' : list B) :
  length l' = length l -> map snd (combine l l') = l'.
Proof.
  revert l'; induction l as [|x l IH]; intros [|y l'] H; simpl in *; try discriminate;
    [reflexivity|].
  rewrite IH by now injection H. reflexivity.
Qed.

(** X17.  Without momentum [aggregate] is FedAvg: on the first aggregation
    (the momentum buffer is still [None], as [__init__] leaves it) or with a
    momentum coefficient of 0, with one weight per client and weights that sum
    to 1, every parameter whose name is not ignored becomes the weighted
    average [sum_i weight_i * client_i] of the client parameters. *)
Theorem fedavgm_without_momentum_is_fedavg (s : FedAVGM.Server)
  (cs : list (OrderedDict Tensor.t)) (ws : list scalar) :
  srv_ok s ->
  FedAVGM.momentum_vector s = None \/ FedAVGM.hyper_momentum s = 0 ->
  round_ok ignore (FedAVGM.model s) (cs, ws) ->
  length ws = length cs -> vsum ws = 1 ->
  exists s',
    FedAVGM.aggregate ignore s cs ws = Ok s' /\
    forall k, In k (od_keys (named_parameters (FedAVGM.model s))) ->
      FedAVGM.endswith_any k ignore = false ->
      forall i, at_sd (state_dict (FedAVGM.model s')) k i =
                vsum (map (fun cw => snd cw * at_sd (fst cw) k i) (combine cs ws)).
Proof.
  intros Hsrv Hmu Hround Hlen Hsum.
  destruct (aggregate_step ignore s (cs, ws) Hsrv Hround)
    as (s' & Hagg & (_ & _ & _ & _ & Hmom & Hpar & _)).
  exists s'. split; [exact Hagg|].
  intros k Hk Hni i. cbn [fst snd] in *.
  rewrite (Hpar k Hk i), (Hmom k (named_parameters_keys_incl _ _ Hk) Hni i).
  assert (H0 : FedAVGM.hyper_momentum s * mom_at (FedAVGM.momentum_vector s) k i = 0).
  { destruct Hmu as [-> | ->]; cbn [mom_at]; ring. }
  rewrite H0. unfold weighted_diff_at.
  rewrite (vsum_weighted_diff (at_sd (state_dict (FedAVGM.model s)) k i)
             (fun c => at_sd c k i)).
  rewrite (map_snd_combine_eq cs ws Hlen), Hsum. ring.
Qed.

(** X18.  An ignored name is no protection for a parameter: on the first
    aggregation [avg_model_sd], hence the momentum buffer, holds the server's
    own value under an ignored key, and lines 89-90 subtract it, so every
    named parameter with an ignored name ends at zero. *)
Theorem fedavgm_ignored_parameter_zeroed (m : nnModule) (mu : scalar)
  (cs : list (OrderedDict Tensor.t)) (ws : list scalar) (e : entry) (rg : bool) :
  wf_module m -> round_ok ignore m (cs, ws) ->
  In e m -> knd e = KParameter rg -> FedAVGM.endswith_any (key e) ignore = true ->
  exists s',
    FedAVGM.aggregate ignore (FedAVGM.__init__ m mu) cs ws = Ok s' /\
    forall i, at_sd (state_dict (FedAVGM.model s')) (key e) i = 0.
Proof.
  intros Hwf (Hcs & Hne & Hlen) He Hk Hig. cbn [fst snd] in *.
  destruct (average_model_ok ignore _ _ _ Hwf Hcs Hne Hlen) as (avg & Havg & Hspec).
  assert (Hlike : dict_like m avg).
  { intros x Hx. destruct (Hspec x Hx) as (t & Ht & Hl & _). exists t; auto. }
  destruct (apply_momentum_ok _ _ Hwf Hlike) as (g' & Happ & HF).
  exists (FedAVGM.mkServer g' (Some avg) mu). split.
  - unfold FedAVGM.aggregate, FedAVGM.__init__.
    cbn [FedAVGM.model FedAVGM.momentum_vector FedAVGM.hyper_momentum].
    rewrite Havg. cbn [bind FedAVGM.update_momentum]. now rewrite Happ.
  - intros i. cbn [FedAVGM.model].
    destruct (Forall2_in_l _ _ _ _ HF He) as (e' & He' & Hk' & _ & _ & Hat).
    rewrite Hk in Hat.
    assert (Hnd' : NoDup (keys_of g')).
    { rewrite (arch_rel_keys _ _ (step_rel_arch _ _ _ HF)). apply Hwf. }
    unfold at_sd at 1. rewrite <- Hk', (state_dict_get g' e' Hnd' He'), Hat.
    destruct (Hspec e He) as (t & Ht & _ & Heq & _).
    unfold at_sd. rewrite Ht, (Heq Hig). ring.
Qed.

End FedAVGM_edges.

Lemma fedavgm_no_clients_raises_witness :
  srv_ok ex_server /\
  FedAVGM.endswith_any "w" ex_ignore = false /\
  FedAVGM.aggregate ex_ignore ex_server [] [] = Raise KeyError.
Proof.
  assert (H1 : srv_ok ex_server).
  { split; [apply wf_moduleb_ok; reflexivity | intros mv Hmv; discriminate Hmv]. }
  split; [exact H1|]. split; [reflexivity|].
  apply (fedavgm_no_clients_raises ex_ignore ex_server []
           (mkEntry "w" (KParameter true) (scalar_tensor (qc 10 1))) true H1).
  - simpl; auto.
  - reflexivity.
  - reflexivity.
Defined.

Lemma fedavgm_without_momentum_is_fedavg_witness :
  srv_ok (FedAVGM.__init__ (FedAVGM.model ex_server) (qc 9 10)) /\
  round_ok ex_ignore (FedAVGM.model ex_server) ([ex_client (qc 8 1) (qc 7 1)], [qc 1 1]) /\
  exists s',
    FedAVGM.aggregate ex_ignore (FedAVGM.__init__ (FedAVGM.model ex_server) (qc 9 10))
      [ex_client (qc 8 1) (qc 7 1)] [qc 1 1] = Ok s' /\
    at_sd (state_dict (FedAVGM.model s')) "w" 0 =
    vsum (map (fun cw => snd cw * at_sd (fst cw) "w" 0)
              (combine [ex_client (qc 8 1) (qc 7 1)] [qc 1 1])).
Proof.
  assert (H1 : srv_ok (FedAVGM.__init__ (FedAVGM.model ex_server) (qc 9 10))).
  { split; [apply wf_moduleb_ok; reflexivity | intros mv Hmv; discriminate Hmv]. }
  pose proof (ex_round_ok (qc 8 1) (qc 7 1)) as H2.
  split; [exact H1|]. split; [exact H2|].
  destruct (fedavgm_without_momentum_is_fedavg ex_ignore
              (FedAVGM.__init__ (FedAVGM.model ex_server) (qc 9 10))
              [ex_client (qc 8 1) (qc 7 1)] [qc 1 1] H1 (or_introl eq_refl) H2 eq_refl)
    as (s' & Hagg & Hval).
  { apply Qc_is_canon. reflexivity. }
  exists s'. split; [exact Hagg|].
  apply Hval; [simpl; auto | reflexivity].
Defined.

Lemma cx_round_ok : round_ok ex_ignore (FedAVGM.model cx_server) ([cx_client], [qc 1 1]).
Proof.
  split; [|split; [discriminate | simpl; lia]].
  constructor; [|constructor].
  intros e [<-|[]] Hni. vm_compute in Hni. discriminate.
Qed.

Lemma fedavgm_ignored_parameter_zeroed_witness :
  wf_module (FedAVGM.model cx_server) /\
  FedAVGM.endswith_any "bn.running_mean" ex_ignore = true /\
  exists s',
    FedAVGM.aggregate ex_ignore (FedAVGM.__init__ (FedAVGM.model cx_server) (qc 9 10))
      [cx_client] [qc 1 1] = Ok s' /\
    at_sd (state_dict (FedAVGM.model s')) "bn.running_mean" 0 = 0.
Proof.
  assert (H1 : wf_module (FedAVGM.model cx_server)) by (apply wf_moduleb_ok; reflexivity).
  split; [exact H1|]. split; [reflexivity|].
  destruct (fedavgm_ignored_parameter_zeroed ex_ignore (FedAVGM.model cx_server) (qc 9 10)
              [cx_client] [qc 1 1]
              (mkEntry "bn.running_mean" (KParameter true) (scalar_tensor (qc 5 1))) true
              H1 cx_round_ok) as (s' & Hagg & Hzero).
  - simpl; auto.
  - reflexivity.
  - reflexivity.
  - exists s'. split; [exact Hagg | apply Hzero].
Defined.

(* ------------------------------------------------------------------ *)
(** ** feddyn.py: examples for the rounds *)

(** A server with a client that has a model and a client that has none; the
    cloud model is at [[6, 6]], the global model at [[0, 0]]. *)
Definition ex_round_server : FedDyn.Server unit unit :=
  FedDyn.mkServer [ex_dyn_client; ex_counted_client 1 20] (FedDyn.mkChannel [] [])
    ex_dyn_model ex_client_model (qc 1 1) true.

Lemma ex_dyn_model_wf : wf_module ex_dyn_model.
Proof. apply wf_moduleb_ok; reflexivity. Qed.

Lemma ex_dyn_model_trainable : trainable_some ex_dyn_model.
Proof. unfold trainable_some; simpl; discriminate. Qed.

Lemma ex_dyn_model_all_trainable : all_trainable ex_dyn_model.
Proof. repeat constructor; discriminate. Qed.

Lemma broadcast_then_first_receive_witness :
  In (ex_counted_client 1 20) (FedDyn.clients ex_round_server) /\
  FedDyn.model (ex_counted_client 1 20) = None /\
  exists ch',
    FedDyn.receive_model (ex_counted_client 1 20)
      (FedDyn.channel (FedDyn.broadcast_model ex_round_server
                         (FedDyn.clients ex_round_server))) =
    Ok (FedDyn.with_prev_grads
          (FedDyn.with_model (ex_counted_client 1 20) (Some ex_dyn_model))
          (Some (repeat 0 2)), ch').
Proof.
  assert (Hin : In (ex_counted_client 1 20) (FedDyn.clients ex_round_server))
    by (simpl; auto).
  split; [exact Hin|]. split; [reflexivity|].
  apply (broadcast_then_first_receive unit unit ex_round_server
           (FedDyn.clients ex_round_server) (ex_counted_client 1 20) Hin eq_refl
           ex_dyn_model_wf ex_dyn_model_trainable).
  constructor.
Defined.

Lemma ex_cloud_arch : Forall2 arch_rel ex_dyn_model ex_client_model.
Proof.
  apply Forall2_cons; [|apply Forall2_nil].
  unfold arch_rel, like, Tensor.wf; simpl; auto.
Qed.

(** A client whose model has a parameter at [[0, 0]] and a buffer at [[5]],
    and a server whose global model is at [[1, 1]] and [[2]] and whose cloud
    model is at [[7, 8]] and [[9]]. *)
Definition ex_bn_model (w1 w2 rm : Z) : nnModule :=
  [ mkEntry "w" (KParameter true) (vector_tensor [qc w1 1; qc w2 1]);
    mkEntry "bn.running_mean" KBuffer (vector_tensor [qc rm 1]) ].

Definition ex_bn_client : FedDyn.Client unit unit :=
  FedDyn.mkClient 0 (FedDyn.mkLoader 4 (fun _ => [tt]) 1)
    (Some (ex_bn_model 0 0 5)) (Some [qc 3 1; qc 4 1]) (Some (qc 1 1))
    (qc 1 10) 1%Z (qc 0 1) (Some tt).

Definition ex_bn_server : FedDyn.Server unit unit :=
  FedDyn.mkServer [ex_bn_client] (FedDyn.mkChannel [] [])
    (ex_bn_model 1 1 2) (ex_bn_model 7 8 9) (qc 1 1) true.

Lemma ex_bn_arch : Forall2 arch_rel (ex_bn_model 0 0 5) (ex_bn_model 7 8 9).
Proof.
  repeat (apply Forall2_cons || apply Forall2_nil);
    unfold arch_rel, like, Tensor.wf; simpl; auto.
Qed.

(** The parameter ends at the cloud model's [[7, 8]], the buffer stays at
    [[5]]. *)
Lemma broadcast_then_later_receive_witness :
  In ex_bn_client (FedDyn.clients ex_bn_server) /\
  FedDyn.model ex_bn_client = Some (ex_bn_model 0 0 5) /\
  wf_module (ex_bn_model 0 0 5) /\
  Forall2 arch_rel (ex_bn_model 0 0 5) (FedDyn.cld_mdl ex_bn_server) /\
  none_pending "model" (FedDyn.pending (FedDyn.channel ex_bn_server)) /\
  exists ch' m',
    FedDyn.receive_model ex_bn_client
      (FedDyn.channel (FedDyn.broadcast_model ex_bn_server (FedDyn.clients ex_bn_server))) =
    Ok (FedDyn.with_model ex_bn_client (Some m'), ch') /\
    option_map (map Qcanon.this) (FedDyn.get_all_params_of m' true) =
      Some [(7 # 1)%Q; (8 # 1)%Q] /\
    option_map (fun t => map Qcanon.this (Tensor.data t))
               (od_get (state_dict m') "bn.running_mean") = Some [(5 # 1)%Q].
Proof.
  assert (Hin : In ex_bn_client (FedDyn.clients ex_bn_server)) by (simpl; auto).
  assert (Hwf : wf_module (ex_bn_model 0 0 5)) by (apply wf_moduleb_ok; reflexivity).
  assert (Hp0 : none_pending "model" (FedDyn.pending (FedDyn.channel ex_bn_server)))
    by constructor.
  split; [exact Hin|]. split; [reflexivity|]. split; [exact Hwf|].
  split; [exact ex_bn_arch|]. split; [exact Hp0|].
  destruct (broadcast_then_later_receive unit unit ex_bn_server
              (FedDyn.clients ex_bn_server) ex_bn_client (ex_bn_model 0 0 5) Hin eq_refl
              Hwf ex_bn_arch Hp0) as (ch' & m' & Hrecv & _ & Hflat & _).
  exists ch', m'. split; [exact Hrecv|]. split.
  - rewrite Hflat. vm_compute. reflexivity.
  - vm_compute in Hrecv. injection Hrecv as <- _. vm_compute. reflexivity.
Defined.

(** A client whose model has a frozen parameter ([emb.weight] of
    [ex_model]). *)
Definition ex_frozen_client : FedDyn.Client unit unit :=
  FedDyn.mkClient 0 (FedDyn.mkLoader 4 (fun _ => [tt]) 1)
    (Some ex_model) (Some (repeat (qc 0 1) 6)) (Some (qc 1 1))
    (qc 1 10) 1%Z (qc 0 1) None.

Lemma fit_partly_frozen_raises_witness :
  wf_module ex_model /\ (1 < FedDyn.trainable_numel ex_model)%nat /\
  snd (FedDyn.fit (fun _ _ => qc 0 1) (fun _ _ => tt) ex_optimizer_step (fun o => o)
         ex_frozen_client 0%Z) = Raise RuntimeError.
Proof.
  assert (H1 : wf_module ex_model) by (apply wf_moduleb_ok; reflexivity).
  assert (H2 : (1 < FedDyn.trainable_numel ex_model)%nat) by (vm_compute; lia).
  split; [exact H1|]. split; [exact H2|].
  apply (fit_partly_frozen_raises unit unit (fun _ _ => qc 0 1) (fun _ _ => tt)
           ex_optimizer_step (fun o => o) ex_frozen_client 0%Z ex_model (qc 1 1)
           (repeat (qc 0 1) 6)
           (mkEntry "emb.weight" (KParameter false)
              (Tensor.mk [1; 3]%nat [qc 7 1; qc 8 1; qc 9 1]))
           eq_refl eq_refl eq_refl H1 H2).
  - simpl; auto.
  - reflexivity.
  - vm_compute; lia.
Defined.

(** A client with no local epoch to run. *)
Definition ex_idle_client : FedDyn.Client unit unit :=
  FedDyn.mkClient 0 (FedDyn.mkLoader 4 (fun _ => [tt]) 1)
    (Some ex_dyn_model) (Some [qc 3 1; qc 4 1]) (Some (qc 1 1))
    (qc 1 10) 0%Z (qc 0 1) None.

Lemma fit_without_epochs_witness :
  FedDyn.weight ex_idle_client = Some (qc 1 1) /\ qc 1 1 <> 0 /\
  FedDyn.prev_grads ex_idle_client = Some [qc 3 1; qc 4 1] /\
  all_trainable ex_dyn_model /\ trainable_some ex_dyn_model /\
  (FedDyn.local_epochs ex_idle_client <= 0)%Z /\
  FedDyn.fit (fun _ _ => qc 0 1) (fun _ _ => tt) ex_optimizer_step (fun o => o)
    ex_idle_client 0%Z =
  (FedDyn.with_optimizer ex_idle_client (Some tt), Raise ZeroDivisionError).
Proof.
  split; [reflexivity|]. split; [exact qc_1_neq_0|]. split; [reflexivity|].
  split; [exact ex_dyn_model_all_trainable|]. split; [exact ex_dyn_model_trainable|].
  split; [simpl; lia|].
  apply (fit_without_epochs unit unit (fun _ _ => qc 0 1) (fun _ _ => tt)
           ex_optimizer_step (fun o => o) ex_idle_client 0%Z ex_dyn_model (qc 1 1)
           [qc 3 1; qc 4 1] eq_refl eq_refl qc_1_neq_0 eq_refl
           ex_dyn_model_all_trainable ex_dyn_model_trainable eq_refl).
  - lia.
  - simpl; lia.
Defined.



(** Two clients, the second without a model and without gradient: the one
    gradient [[0, 0]] is collected and counted, and both ["model"] messages,
    the second with [None], stay pending. *)
Lemma send_model_then_collect_grads_witness :
  none_pending "grads" (FedDyn.pending (FedDyn.mkChannel [] [])) /\
  Forall (fun g => length g = 2%nat)
    (present unit unit (map (report_of unit unit) [ex_dyn_client; ex_counted_client 1 20])) /\
  exists ch1 ch2,
    fold_left (fun ch c => FedDyn.send_model c ch) [ex_dyn_client; ex_counted_client 1 20]
      (FedDyn.mkChannel [] []) = ch1 /\
    FedDyn.collect_grads [ex_dyn_client; ex_counted_client 1 20] ch1 =
      Ok (Some [qc 0 1; qc 0 1], 1%nat, ch2) /\
    FedDyn.pending ch2 =
      [ (FedDyn.ServerId,
         FedDyn.mkMessage (FedDyn.PModel (Some ex_dyn_model)) "model" (FedDyn.ClientId 0));
        (FedDyn.ServerId,
         FedDyn.mkMessage (FedDyn.PModel None) "model" (FedDyn.ClientId 1)) ].
Proof.
  assert (H1 : none_pending "grads" (FedDyn.pending (FedDyn.mkChannel [] [])))
    by constructor.
  assert (H2 : Forall (fun g : vec => length g = 2%nat)
                 (present unit unit (map (report_of unit unit)
                    [ex_dyn_client; ex_counted_client 1 20])))
    by (repeat constructor).
  split; [exact H1|]. split; [exact H2|].
  exact (send_model_then_collect_grads unit unit 2 [ex_dyn_client; ex_counted_client 1 20]
           (FedDyn.mkChannel [] []) H1 H2).
Defined.

Lemma ex_silent_total_nonzero :
  total_examples unit unit (map fst [(ex_counted_client 2 30, @None vec)]) <> 0.
Proof.
  intros H. apply (f_equal Qcanon.this) in H. vm_compute in H. discriminate.
Qed.

Lemma aggregate_without_gradient_raises_witness :
  present unit unit [(ex_counted_client 2 30, None)] = [] /\
  FedDyn.aggregate (with_reports ex_dyn_server [(ex_counted_client 2 30, None)])
    (map fst [(ex_counted_client 2 30, @None vec)]) [ex_client_model] =
  Raise AttributeError.
Proof.
  split; [reflexivity|].
  apply (aggregate_without_gradient_raises unit unit
           (with_reports ex_dyn_server [(ex_counted_client 2 30, None)])
           [(ex_counted_client 2 30, None)] [ex_client_model] [] eq_refl eq_refl).
  - exact ex_dyn_model_wf.
  - exact ex_dyn_model_trainable.
  - constructor; [exact ex_cloud_arch | constructor].
  - simpl; lia.
  - exact ex_silent_total_nonzero.
Defined.

Lemma server_invariant_kept_witness :
  server_ok unit unit (FedDyn.Server__init__ ex_dyn_server) /\
  exists self',
    FedDyn.aggregate ex_agg_server (map fst ex_reports) ex_client_models = Ok self' /\
    server_ok unit unit self' /\
    FedDyn.pending (FedDyn.channel self') = [].
Proof.
  destruct ex_agg_hypotheses as (H1 & H2 & H3 & H4 & H5 & H6 & H7 & H8 & H9).
  destruct (server_invariant_kept unit unit) as [Hinit Hkeep].
  split; [exact (Hinit ex_dyn_server ex_dyn_model_wf ex_dyn_model_trainable)|].
  destruct (Hkeep ex_agg_server ex_reports ex_client_models []
              (conj H1 (conj H2 (conj H3 H4))) H5 H6 H7 H8 H9 ex_total_nonzero)
    as (self' & Hagg & Hok & _ & Hpend & _).
  exists self'. auto.
Defined.

(* ------------------------------------------------------------------ *)
(** ** feddyn.py: [FedDynServer.fit], the weight exchange and the rounds *)

(** What stays pending when a message is taken was pending before. *)
Lemma take_first_sub (r s : FedDyn.Id) (t : string) (P : FedDyn.Id * FedDyn.Message -> Prop)
  (q rest : list (FedDyn.Id * FedDyn.Message)) (m : FedDyn.Message) :
  FedDyn.take_first r s t q = Some (m, rest) -> Forall P q -> Forall P rest.
Proof.
  revert rest; induction q as [|x q IH]; intros rest H HP; [discriminate|].
  cbn [FedDyn.take_first] in H. inversion HP as [|? ? Hx Hq]; subst.
  destruct (FedDyn.matches r s t x).
  - injection H as _ <-. exact Hq.
  - destruct (FedDyn.take_first r s t q) as [[m' rest']|] eqn:E; [|discriminate].
    injection H as <- <-. constructor; [exact Hx | now apply IH].
Qed.

(** A message that is received is logged, and nothing becomes pending. *)
Lemma receive_inv (r s : FedDyn.Id) (t : string) (ch ch' : FedDyn.Channel)
  (m : FedDyn.Message) :
  FedDyn.receive r s t ch = Ok (m, ch') ->
  FedDyn.log ch' = FedDyn.log ch ++ [FedDyn.Received r s t] /\
  forall P, Forall P (FedDyn.pending ch) -> Forall P (FedDyn.pending ch').
Proof.
  unfold FedDyn.receive.
  destruct (FedDyn.take_first r s t (FedDyn.pending ch)) as [[m' rest]|] eqn:E;
    [|discriminate].
  intros [= <- <-]. split; [reflexivity|].
  intros P HP. exact (take_first_sub _ _ _ P _ _ _ E HP).
Qed.

(** The messages of the rounds: the model broadcast to the eligible clients;
    for each of them the model received, and its model and its gradient
    surrogate sent; the client models received by the server; the gradients
    received by the server. *)
Definition update_events (i : nat) : list FedDyn.event :=
  [ FedDyn.Received (FedDyn.ClientId i) FedDyn.ServerId "model";
    FedDyn.Sent (FedDyn.ClientId i) FedDyn.ServerId "model";
    FedDyn.Sent (FedDyn.ClientId i) FedDyn.ServerId "grads" ].

Definition round_events (eligible : list nat) : list FedDyn.event :=
  map (fun i => FedDyn.Sent FedDyn.ServerId (FedDyn.ClientId i) "model") eligible ++
  flat_map update_events eligible ++
  map (fun i => FedDyn.Received FedDyn.ServerId (FedDyn.ClientId i) "model") eligible ++
  map (fun i => FedDyn.Received FedDyn.ServerId (FedDyn.ClientId i) "grads") eligible.

(** A message of a round is of type ["model"] or ["grads"]. *)
Definition round_type (ev : FedDyn.event) : Prop :=
  event_type ev = "model"%string \/ event_type ev = "grads"%string.

Lemma round_events_types (eligible : list nat) : Forall round_type (round_events eligible).
Proof.
  unfold round_events. rewrite !Forall_app. repeat split.
  - apply Forall_forall. intros ev Hev. apply in_map_iff in Hev.
    destruct Hev as (i & <- & _). now left.
  - apply Forall_forall. intros ev Hev. apply in_flat_map in Hev.
    destruct Hev as (i & _ & [<-|[<-|[<-|[]]]]); [left|left|right]; reflexivity.
  - apply Forall_forall. intros ev Hev. apply in_map_iff in Hev.
    destruct Hev as (i & <- & _). now left.
  - apply Forall_forall. intros ev Hev. apply in_map_iff in Hev.
    destruct Hev as (i & <- & _). now right.
Qed.

Section FedDyn_rounds.

Variable Batch : Type.
Variable OptState : Type.
Variable loss_fn : nnModule -> Batch -> scalar.
Variable optimizer_cfg : nnModule -> scalar -> OptState.
Variable optimizer_step :
  OptState -> (nnModule -> result scalar) -> nnModule -> nnModule * OptState.
Variable scheduler_step : OptState -> OptState.
Variable selected : nat -> scalar -> nat -> bool.

(** What a round leaves of a client: who it is, its data and its weight. *)
Definition same_client (c c' : FedDyn.Client Batch OptState) : Prop :=
  FedDyn.index c' = FedDyn.index c /\ FedDyn.train_set c' = FedDyn.train_set c /\
  FedDyn.weight c' = FedDyn.weight c.

Lemma same_client_refl (c : FedDyn.Client Batch OptState) : same_client c c.
Proof. unfold same_client. auto. Qed.

Lemma same_client_trans (c1 c2 c3 : FedDyn.Client Batch OptState) :
  same_client c1 c2 -> same_client c2 c3 -> same_client c1 c3.
Proof. unfold same_client. intuition congruence. Qed.

Lemma same_clients_refl (cs : list (FedDyn.Client Batch OptState)) :
  Forall2 same_client cs cs.
Proof. induction cs; constructor; auto using same_client_refl. Qed.

Lemma same_clients_trans (cs1 cs2 cs3 : list (FedDyn.Client Batch OptState)) :
  Forall2 same_client cs1 cs2 -> Forall2 same_client cs2 cs3 -> Forall2 same_client cs1 cs3.
Proof.
  intros H; revert cs3. induction H as [|c1 c2 cs1 cs2 Hc _ IH]; intros cs3 H3.
  - inversion H3. constructor.
  - inversion H3; subst. constructor; [eapply same_client_trans; eauto | now apply IH].
Qed.

Lemma same_clients_index (cs cs' : list (FedDyn.Client Batch OptState)) :
  Forall2 same_client cs cs' ->
  map (@FedDyn.index _ _) cs' = map (@FedDyn.index _ _) cs.
Proof.
  induction 1 as [|c c' cs cs' (Hi & _) _ IH]; simpl; congruence.
Qed.

Lemma same_clients_weight (cs cs' : list (FedDyn.Client Batch OptState)) :
  Forall2 same_client cs cs' ->
  map (@FedDyn.weight _ _) cs' = map (@FedDyn.weight _ _) cs.
Proof.
  induction 1 as [|c c' cs cs' (_ & _ & Hw) _ IH]; simpl; congruence.
Qed.

(** The indices of the eligible clients of a round. *)
Definition eligible_indices (cs : list (FedDyn.Client Batch OptState)) (rnd : nat)
  (perc : scalar) : list nat :=
  map (@FedDyn.index _ _) (FedDyn.get_eligible_clients selected cs rnd perc).

Lemma eligible_indices_filter (cs : list (FedDyn.Client Batch OptState)) (rnd : nat)
  (perc : scalar) :
  eligible_indices cs rnd perc = filter (selected rnd perc) (map (@FedDyn.index _ _) cs).
Proof.
  unfold eligible_indices, FedDyn.get_eligible_clients.
  induction cs as [|c cs IH]; simpl; [reflexivity|].
  destruct (selected rnd perc (FedDyn.index c)); simpl; congruence.
Qed.

Lemma same_clients_eligible (cs cs' : list (FedDyn.Client Batch OptState)) (rnd : nat)
  (perc : scalar) :
  Forall2 same_client cs cs' -> eligible_indices cs' rnd perc = eligible_indices cs rnd perc.
Proof.
  intros H. rewrite !eligible_indices_filter. now rewrite (same_clients_index _ _ H).
Qed.

(** [receive_model] logs the receipt and leaves the weight alone. *)
Lemma receive_model_inv (c c' : FedDyn.Client Batch OptState) (ch ch' : FedDyn.Channel) :
  FedDyn.receive_model c ch = Ok (c', ch') ->
  same_client c c' /\
  FedDyn.log ch' =
    FedDyn.log ch ++ [FedDyn.Received (FedDyn.ClientId (FedDyn.index c)) FedDyn.ServerId "model"] /\
  forall P, Forall P (FedDyn.pending ch) -> Forall P (FedDyn.pending ch').
Proof.
  unfold FedDyn.receive_model. intros H.
  apply bind_Ok_inv in H. destruct H as ([msg ch1] & Hrecv & H).
  destruct (receive_inv _ _ _ _ _ _ Hrecv) as [Hlog Hpend].
  cbn [fst snd] in H.
  destruct (FedDyn.payload msg) as [n|w|model_ cld|mo|g]; try discriminate.
  destruct (FedDyn.model c) as [m|].
  - apply bind_Ok_inv in H. destruct H as (m' & _ & H). injection H as <- <-.
    split; [unfold same_client; cbn; auto|]. split; assumption.
  - apply bind_Ok_inv in H. destruct H as (pg & _ & H). injection H as <- <-.
    split; [unfold same_client; cbn; auto|]. split; assumption.
Qed.

(** [fit] leaves the weight alone, whatever it returns. *)
Lemma fit_same_client (c : FedDyn.Client Batch OptState) (override : Z) :
  same_client c
    (fst (FedDyn.fit loss_fn optimizer_cfg optimizer_step scheduler_step c override)).
Proof.
  unfold FedDyn.fit.
  destruct (FedDyn.model c) as [m|]; [|apply same_client_refl].
  destruct (FedDyn.weight c) as [w|] eqn:Hw; [|apply same_client_refl].
  destruct (FedDyn.to_device (FedDyn.get_all_params_of m true)) as [sp|e];
    [|apply same_client_refl].
  destruct (FedDyn.train_epochs _ _ _ _ _ _ _ _ _ _ _ _) as [[m2 opt2] [rl|e]];
    [|unfold same_client; cbn; auto].
  destruct (FedDyn.update_prev_grads _ _ _ _) as [pg'|e]; [|unfold same_client; cbn; auto].
  destruct (_ =? 0)%Z; unfold same_client; cbn; auto.
Qed.

Lemma send_model_log (c : FedDyn.Client Batch OptState) (ch : FedDyn.Channel) :
  FedDyn.log (FedDyn.send_model c ch) =
  FedDyn.log ch ++
  [ FedDyn.Sent (FedDyn.ClientId (FedDyn.index c)) FedDyn.ServerId "model";
    FedDyn.Sent (FedDyn.ClientId (FedDyn.index c)) FedDyn.ServerId "grads" ].
Proof.
  unfold FedDyn.send_model, FedDyn.send. cbn. now rewrite <- app_assoc.
Qed.

Lemma send_model_pending (c : FedDyn.Client Batch OptState) (ch : FedDyn.Channel) :
  no_weight_pending (FedDyn.pending ch) ->
  no_weight_pending (FedDyn.pending (FedDyn.send_model c ch)).
Proof.
  intros H. unfold FedDyn.send_model, FedDyn.send, no_weight_pending. cbn.
  rewrite !Forall_app. repeat split; [exact H | |];
    (constructor; [cbn; discriminate | constructor]).
Qed.

(** The local update of a client logs its three messages and leaves its
    weight alone. *)
Lemma local_update_inv (c c' : FedDyn.Client Batch OptState) (ch ch' : FedDyn.Channel) :
  FedDyn.local_update loss_fn optimizer_cfg optimizer_step scheduler_step c ch =
    Ok (c', ch') ->
  same_client c c' /\
  FedDyn.log ch' = FedDyn.log ch ++ update_events (FedDyn.index c) /\
  (no_weight_pending (FedDyn.pending ch) -> no_weight_pending (FedDyn.pending ch')).
Proof.
  unfold FedDyn.local_update. intros H.
  apply bind_Ok_inv in H. destruct H as ([c1 ch1] & Hrecv & H).
  destruct (receive_model_inv _ _ _ _ Hrecv) as (Hsame & Hlog & Hpend).
  cbn [fst snd] in H.
  pose proof (fit_same_client c1 0%Z) as Hfit.
  destruct (FedDyn.fit loss_fn optimizer_cfg optimizer_step scheduler_step c1 0%Z)
    as [c2 [loss|e]]; [|discriminate].
  cbn [fst] in Hfit. injection H as <- <-.
  split; [eapply same_client_trans; eauto|]. split.
  - rewrite send_model_log, Hlog, <- app_assoc.
    destruct Hfit as (Hi & _). destruct Hsame as (Hi1 & _).
    rewrite Hi, Hi1. reflexivity.
  - intros Hnw. apply send_model_pending. apply Hpend. exact Hnw.
Qed.

Lemma local_updates_inv (rnd : nat) (perc : scalar)
  (cs : list (FedDyn.Client Batch OptState)) :
  forall cs' ch ch',
  FedDyn.local_updates loss_fn optimizer_cfg optimizer_step scheduler_step selected
    cs rnd perc ch = Ok (cs', ch') ->
  Forall2 same_client cs cs' /\
  FedDyn.log ch' = FedDyn.log ch ++ flat_map update_events (eligible_indices cs rnd perc) /\
  (no_weight_pending (FedDyn.pending ch) -> no_weight_pending (FedDyn.pending ch')).
Proof.
  induction cs as [|c cs IH]; intros cs' ch ch' H.
  - cbn in H. injection H as <- <-. split; [constructor|].
    split; [cbn; now rewrite app_nil_r | auto].
  - cbn [FedDyn.local_updates] in H.
    unfold eligible_indices, FedDyn.get_eligible_clients. cbn [filter].
    destruct (selected rnd perc (FedDyn.index c)) eqn:Hsel.
    + apply bind_Ok_inv in H. destruct H as ([c1 ch1] & Hupd & H).
      apply bind_Ok_inv in H. destruct H as ([cs1 ch2] & Hrest & H).
      cbn [fst snd] in *. injection H as <- <-.
      destruct (local_update_inv _ _ _ _ Hupd) as (Hsame & Hlog & Hpend).
      destruct (IH _ _ _ Hrest) as (Hsames & Hlogs & Hpends).
      split; [constructor; assumption|]. split.
      * rewrite Hlogs, Hlog. cbn [map flat_map]. rewrite <- !app_assoc. reflexivity.
      * auto.
    + apply bind_Ok_inv in H. destruct H as ([cs1 ch2] & Hrest & H).
      cbn [fst snd] in *. injection H as <- <-.
      destruct (IH _ _ _ Hrest) as (Hsames & Hlogs & Hpends).
      split; [constructor; [apply same_client_refl | assumption]|].
      split; assumption.
Qed.

Lemma get_client_models_inv (el : list (FedDyn.Client Batch OptState)) :
  forall ch ms ch',
  FedDyn.get_client_models el ch = Ok (ms, ch') ->
  FedDyn.log ch' =
    FedDyn.log ch ++
    map (fun i => FedDyn.Received FedDyn.ServerId (FedDyn.ClientId i) "model")
        (map (@FedDyn.index _ _) el) /\
  (no_weight_pending (FedDyn.pending ch) -> no_weight_pending (FedDyn.pending ch')).
Proof.
  unfold FedDyn.get_client_models.
  assert (H : forall acc ch ms ch',
    for_each el
      (fun st (client : FedDyn.Client Batch OptState) =>
         r <- FedDyn.receive FedDyn.ServerId (FedDyn.ClientId (FedDyn.index client))
                "model" (snd st) ;;
         match FedDyn.payload (fst r) with
         | FedDyn.PModel (Some m) => Ok (fst st ++ [m], snd r)
         | FedDyn.PModel None => Raise AttributeError
         | _ => Raise TypeError
         end) (acc, ch) = Ok (ms, ch') ->
    FedDyn.log ch' =
      FedDyn.log ch ++
      map (fun i => FedDyn.Received FedDyn.ServerId (FedDyn.ClientId i) "model")
          (map (@FedDyn.index _ _) el) /\
    (no_weight_pending (FedDyn.pending ch) -> no_weight_pending (FedDyn.pending ch'))).
  { induction el as [|c el IH]; intros acc ch ms ch' H.
    - cbn in H. injection H as _ <-. split; [cbn; now rewrite app_nil_r | auto].
    - cbn [for_each] in H.
      apply bind_Ok_inv in H. destruct H as ([acc1 ch1] & Hstep & H).
      cbn [fst snd] in Hstep.
      apply bind_Ok_inv in Hstep. destruct Hstep as ([msg ch0] & Hrecv & Hstep).
      destruct (receive_inv _ _ _ _ _ _ Hrecv) as [Hlog Hpend].
      cbn [fst snd] in Hstep.
      destruct (FedDyn.payload msg) as [n|w|model_ cld|[mo|]|g]; try discriminate.
      injection Hstep as <- <-.
      destruct (IH _ _ _ _ H) as [Hlogs Hpends]. split.
      + rewrite Hlogs, Hlog. cbn [map]. now rewrite <- app_assoc.
      + intros Hnw. apply Hpends. apply Hpend. exact Hnw. }
  intros ch ms ch'. apply H.
Qed.

Lemma collect_grads_inv (el : list (FedDyn.Client Batch OptState)) :
  forall ch ag cnt ch',
  FedDyn.collect_grads el ch = Ok (ag, cnt, ch') ->
  FedDyn.log ch' =
    FedDyn.log ch ++
    map (fun i => FedDyn.Received FedDyn.ServerId (FedDyn.ClientId i) "grads")
        (map (@FedDyn.index _ _) el) /\
  (no_weight_pending (FedDyn.pending ch) -> no_weight_pending (FedDyn.pending ch')).
Proof.
  unfold FedDyn.collect_grads.
  assert (H : forall ag0 cnt0 ch ag cnt ch',
    for_each el
      (fun st (client : FedDyn.Client Batch OptState) =>
         let '(avg_grad, grad_count, ch0) := st in
         r <- FedDyn.receive FedDyn.ServerId (FedDyn.ClientId (FedDyn.index client))
                "grads" ch0 ;;
         match FedDyn.payload (fst r) with
         | FedDyn.PGrads None => Ok (avg_grad, grad_count, snd r)
         | FedDyn.PGrads (Some pg) =>
             match avg_grad with
             | None => Ok (Some pg, S grad_count, snd r)
             | Some a => s <- vadd a pg ;; Ok (Some s, S grad_count, snd r)
             end
         | _ => Raise TypeError
         end) (ag0, cnt0, ch) = Ok (ag, cnt, ch') ->
    FedDyn.log ch' =
      FedDyn.log ch ++
      map (fun i => FedDyn.Received FedDyn.ServerId (FedDyn.ClientId i) "grads")
          (map (@FedDyn.index _ _) el) /\
    (no_weight_pending (FedDyn.pending ch) -> no_weight_pending (FedDyn.pending ch'))).
  { induction el as [|c el IH]; intros ag0 cnt0 ch ag cnt ch' H.
    - cbn in H. injection H as _ _ <-. split; [cbn; now rewrite app_nil_r | auto].
    - cbn [for_each] in H.
      apply bind_Ok_inv in H. destruct H as ([[ag1 cnt1] ch1] & Hstep & H).
      apply bind_Ok_inv in Hstep. destruct Hstep as ([msg ch0] & Hrecv & Hstep).
      destruct (receive_inv _ _ _ _ _ _ Hrecv) as [Hlog Hpend].
      cbn [fst snd] in Hstep.
      assert (E : ch1 = ch0).
      { destruct (FedDyn.payload msg) as [n|w|model_ cld|mo|[pg|]]; try discriminate.
        - destruct ag0 as [a|].
          + apply bind_Ok_inv in Hstep. destruct Hstep as (s & _ & Hstep).
            now injection Hstep.
          + now injection Hstep.
        - now injection Hstep. }
      subst ch1.
      destruct (IH _ _ _ _ _ _ H) as [Hlogs Hpends]. split.
      + rewrite Hlogs, Hlog. cbn [map]. now rewrite <- app_assoc.
      + intros Hnw. apply Hpends. apply Hpend. exact Hnw. }
  intros ch ag cnt ch'. apply H.
Qed.

(** [aggregate] receives the gradients and leaves the clients alone. *)
Lemma aggregate_inv (s s' : FedDyn.Server Batch OptState)
  (el : list (FedDyn.Client Batch OptState)) (cms : list nnModule) :
  FedDyn.aggregate s el cms = Ok s' ->
  FedDyn.clients s' = FedDyn.clients s /\
  FedDyn.log (FedDyn.channel s') =
    FedDyn.log (FedDyn.channel s) ++
    map (fun i => FedDyn.Received FedDyn.ServerId (FedDyn.ClientId i) "grads")
        (map (@FedDyn.index _ _) el) /\
  (no_weight_pending (FedDyn.pending (FedDyn.channel s)) ->
   no_weight_pending (FedDyn.pending (FedDyn.channel s'))).
Proof.
  unfold FedDyn.aggregate. intros H.
  apply bind_Ok_inv in H. destruct H as (agg & _ & H).
  apply bind_Ok_inv in H. destruct H as ([[ag cnt] ch1] & Hcol & H).
  apply bind_Ok_inv in H. destruct H as (m' & _ & H).
  apply bind_Ok_inv in H. destruct H as (cld' & _ & H).
  injection H as <-. cbn [FedDyn.clients FedDyn.channel snd].
  destruct (collect_grads_inv _ _ _ _ _ Hcol) as [Hlog Hpend].
  split; [reflexivity|]. split; assumption.
Qed.

(** A round logs the messages of [round_events] for its eligible clients and
    leaves every client's weight alone. *)
Lemma round_inv (s s' : FedDyn.Server Batch OptState) (rnd : nat) (perc : scalar) :
  FedDyn.round loss_fn optimizer_cfg optimizer_step scheduler_step selected s rnd perc =
    Ok s' ->
  Forall2 same_client (FedDyn.clients s) (FedDyn.clients s') /\
  FedDyn.log (FedDyn.channel s') =
    FedDyn.log (FedDyn.channel s) ++
    round_events (eligible_indices (FedDyn.clients s) rnd perc) /\
  (no_weight_pending (FedDyn.pending (FedDyn.channel s)) ->
   no_weight_pending (FedDyn.pending (FedDyn.channel s'))).
Proof.
  unfold FedDyn.round. intros H.
  apply bind_Ok_inv in H. destruct H as ([cs2 ch2] & Hupd & H).
  apply bind_Ok_inv in H. destruct H as ([cms ch3] & Hget & H).
  cbn [fst snd] in *.
  destruct (local_updates_inv _ _ _ _ _ _ Hupd) as (Hsame & Hlog2 & Hpend2).
  destruct (get_client_models_inv _ _ _ _ Hget) as (Hlog3 & Hpend3).
  destruct (aggregate_inv _ _ _ _ H) as (Hcs & Hlog4 & Hpend4).
  cbn [FedDyn.clients FedDyn.channel FedDyn.broadcast_model] in *.
  rewrite broadcast_ok in Hlog2, Hpend2. cbn [FedDyn.log FedDyn.pending] in Hlog2, Hpend2.
  cbn [FedDyn.sender FedDyn.msg_type] in Hlog2.
  fold (eligible_indices (FedDyn.clients s) rnd perc) in Hlog2, Hpend2.
  fold (eligible_indices cs2 rnd perc) in Hlog3, Hlog4.
  rewrite (same_clients_eligible _ _ rnd perc Hsame) in Hlog3, Hlog4.
  split; [rewrite Hcs; exact Hsame|]. split.
  - rewrite Hlog4, Hlog3, Hlog2. unfold round_events. now rewrite <- !app_assoc.
  - intros Hnw. apply Hpend4, Hpend3, Hpend2.
    unfold no_weight_pending. rewrite Forall_app. split; [exact Hnw|].
    apply Forall_forall. intros rm Hrm. apply in_map_iff in Hrm.
    destruct Hrm as (i & <- & _). cbn. discriminate.
Qed.

(** The messages of the rounds [rnd], ..., [rnd + n - 1]. *)
Definition run_events (indices : list nat) (perc : scalar) (n rnd : nat)
  : list FedDyn.event :=
  flat_map (fun r => round_events (filter (selected r perc) indices)) (seq rnd n).

Lemma run_events_types (indices : list nat) (perc : scalar) (n rnd : nat) :
  Forall round_type (run_events indices perc n rnd).
Proof.
  apply Forall_forall. intros ev Hev. apply in_flat_map in Hev.
  destruct Hev as (r & _ & Hev).
  exact (proj1 (Forall_forall _ _) (round_events_types _) ev Hev).
Qed.

Lemma Server_fit_inv (n : nat) :
  forall (s s' : FedDyn.Server Batch OptState) (rnd : nat) (perc : scalar),
  FedDyn.Server_fit loss_fn optimizer_cfg optimizer_step scheduler_step selected
    s n rnd perc = Ok s' ->
  Forall2 same_client (FedDyn.clients s) (FedDyn.clients s') /\
  FedDyn.log (FedDyn.channel s') =
    FedDyn.log (FedDyn.channel s) ++
    run_events (map (@FedDyn.index _ _) (FedDyn.clients s)) perc n rnd /\
  (no_weight_pending (FedDyn.pending (FedDyn.channel s)) ->
   no_weight_pending (FedDyn.pending (FedDyn.channel s'))).
Proof.
  induction n as [|n IH]; intros s s' rnd perc H.
  - cbn in H. injection H as <-. split; [apply same_clients_refl|].
    split; [unfold run_events; cbn; now rewrite app_nil_r | auto].
  - cbn [FedDyn.Server_fit] in H.
    apply bind_Ok_inv in H. destruct H as (s1 & Hround & H).
    destruct (round_inv _ _ _ _ Hround) as (Hsame & Hlog & Hpend).
    destruct (IH _ _ _ _ H) as (Hsames & Hlogs & Hpends).
    split; [eapply same_clients_trans; eauto|]. split.
    + rewrite Hlogs, Hlog, (same_clients_index _ _ Hsame), eligible_indices_filter.
      unfold run_events. cbn [seq flat_map]. now rewrite <- app_assoc.
    + auto.
Qed.

(** The rounds of a run, one by one. *)
Lemma Server_fit_split (a b : nat) :
  forall (s : FedDyn.Server Batch OptState) (rnd : nat) (perc : scalar),
  FedDyn.Server_fit loss_fn optimizer_cfg optimizer_step scheduler_step selected
    s (a + b) rnd perc =
  (s1 <- FedDyn.Server_fit loss_fn optimizer_cfg optimizer_step scheduler_step selected
           s a rnd perc ;;
   FedDyn.Server_fit loss_fn optimizer_cfg optimizer_step scheduler_step selected
     s1 b (rnd + a) perc).
Proof.
  induction a as [|a IH]; intros s rnd perc.
  - cbn. now rewrite Nat.add_0_r.
  - cbn [Nat.add FedDyn.Server_fit].
    destruct (FedDyn.round _ _ _ _ _ s rnd perc) as [s1|e]; [|reflexivity].
    cbn [bind]. rewrite IH. now rewrite Nat.add_succ_r.
Qed.

Lemma Server_fit_rounds (n : nat) (s s' : FedDyn.Server Batch OptState) (perc : scalar) :
  FedDyn.Server_fit loss_fn optimizer_cfg optimizer_step scheduler_step selected
    s n 0 perc = Ok s' ->
  forall r, (r < n)%nat ->
  exists s_r s_r',
    FedDyn.Server_fit loss_fn optimizer_cfg optimizer_step scheduler_step selected
      s r 0 perc = Ok s_r /\
    FedDyn.round loss_fn optimizer_cfg optimizer_step scheduler_step selected s_r r perc =
      Ok s_r'.
Proof.
  intros H r Hr.
  replace n with (r + S (n - r - 1))%nat in H by lia.
  rewrite Server_fit_split in H.
  apply bind_Ok_inv in H. destruct H as (s_r & Hsr & H).
  cbn [FedDyn.Server_fit Nat.add] in H.
  apply bind_Ok_inv in H. destruct H as (s_r' & Hround & _).
  exists s_r, s_r'. split; assumption.
Qed.

Lemma exchange_events_types (cs : list (FedDyn.Client Batch OptState)) :
  Forall (fun ev => event_type ev = "weight"%string) (exchange_events Batch OptState cs).
Proof.
  unfold exchange_events. rewrite !Forall_app. repeat split;
    apply Forall_forall; intros ev Hev; apply in_map_iff in Hev;
    destruct Hev as (c & <- & _); reflexivity.
Qed.

(** C9, amended.  [FedDynServer.fit] runs the weight exchange once, before
    the first round, and to its end: every count sent and received, every
    weight sent and received, every client holding its normalised weight, no
    weight message left pending; the receipt of its weight by each client is
    among the messages of the exchange.  Every round of the call comes after
    it: at the start of round [r] the log is that of the exchange followed by
    the messages of the rounds before, every client still holds the weight of
    the exchange and no weight message is pending; the round adds the
    messages of [round_events] for its eligible clients, all of type
    ["model"] or ["grads"], none of type ["weight"], and leaves the weights
    as they are.  When the call returns, each of its [n_rounds] rounds is
    such a round. *)
Theorem weight_exchange_precedes_rounds (self : FedDyn.Server Batch OptState)
  (n_rounds : nat) (eligible_perc : scalar) :
  no_weight_pending (FedDyn.pending (FedDyn.channel self)) ->
  total_examples Batch OptState (FedDyn.clients self) <> 0 ->
  exists s1,
    FedDyn.weight_exchange self = Ok s1 /\
    FedDyn.server_fit loss_fn optimizer_cfg optimizer_step scheduler_step selected
      self n_rounds eligible_perc =
    FedDyn.Server_fit loss_fn optimizer_cfg optimizer_step scheduler_step selected
      s1 n_rounds 0 eligible_perc /\
    FedDyn.clients s1 =
      map (fun c => FedDyn.with_weight c
                      (Some (normalized_weight Batch OptState (FedDyn.clients self) c)))
          (FedDyn.clients self) /\
    FedDyn.pending (FedDyn.channel s1) = FedDyn.pending (FedDyn.channel self) /\
    FedDyn.log (FedDyn.channel s1) =
      FedDyn.log (FedDyn.channel self) ++ exchange_events Batch OptState (FedDyn.clients self) /\
    Forall (fun ev => event_type ev = "weight"%string)
           (exchange_events Batch OptState (FedDyn.clients self)) /\
    (forall c, In c (FedDyn.clients self) ->
       In (FedDyn.Received (FedDyn.ClientId (FedDyn.index c)) FedDyn.ServerId "weight")
          (exchange_events Batch OptState (FedDyn.clients self))) /\
    (forall r s_r s_r',
       FedDyn.Server_fit loss_fn optimizer_cfg optimizer_step scheduler_step selected
         s1 r 0 eligible_perc = Ok s_r ->
       FedDyn.round loss_fn optimizer_cfg optimizer_step scheduler_step selected
         s_r r eligible_perc = Ok s_r' ->
       map (@FedDyn.weight _ _) (FedDyn.clients s_r) =
         map (fun c => Some (normalized_weight Batch OptState (FedDyn.clients self) c))
             (FedDyn.clients self) /\
       no_weight_pending (FedDyn.pending (FedDyn.channel s_r)) /\
       FedDyn.log (FedDyn.channel s_r) =
         FedDyn.log (FedDyn.channel self) ++
         exchange_events Batch OptState (FedDyn.clients self) ++
         run_events (map (@FedDyn.index _ _) (FedDyn.clients self)) eligible_perc r 0 /\
       FedDyn.log (FedDyn.channel s_r') =
         FedDyn.log (FedDyn.channel s_r) ++
         round_events (filter (selected r eligible_perc)
                              (map (@FedDyn.index _ _) (FedDyn.clients self))) /\
       Forall round_type
         (run_events (map (@FedDyn.index _ _) (FedDyn.clients self)) eligible_perc r 0 ++
          round_events (filter (selected r eligible_perc)
                               (map (@FedDyn.index _ _) (FedDyn.clients self)))) /\
       map (@FedDyn.weight _ _) (FedDyn.clients s_r') =
         map (@FedDyn.weight _ _) (FedDyn.clients s_r)) /\
    (forall s',
       FedDyn.server_fit loss_fn optimizer_cfg optimizer_step scheduler_step selected
         self n_rounds eligible_perc = Ok s' ->
       forall r, (r < n_rounds)%nat ->
       exists s_r s_r',
         FedDyn.Server_fit loss_fn optimizer_cfg optimizer_step scheduler_step selected
           s1 r 0 eligible_perc = Ok s_r /\
         FedDyn.round loss_fn optimizer_cfg optimizer_step scheduler_step selected
           s_r r eligible_perc = Ok s_r').
Proof.
  intros Hp0 _. pose proof (weight_exchange_ok Batch OptState self Hp0) as Hex.
  match type of Hex with _ = Ok ?s => set (s1 := s) in * end.
  exists s1. split; [exact Hex|].
  assert (Hfit : FedDyn.server_fit loss_fn optimizer_cfg optimizer_step scheduler_step
                   selected self n_rounds eligible_perc =
                 FedDyn.Server_fit loss_fn optimizer_cfg optimizer_step scheduler_step
                   selected s1 n_rounds 0 eligible_perc).
  { unfold FedDyn.server_fit. rewrite Hex. reflexivity. }
  split; [exact Hfit|].
  assert (Hidx : map (@FedDyn.index _ _) (FedDyn.clients s1) =
                 map (@FedDyn.index _ _) (FedDyn.clients self)).
  { subst s1. cbn [FedDyn.clients]. rewrite map_map. reflexivity. }
  assert (Hws : map (@FedDyn.weight _ _) (FedDyn.clients s1) =
                map (fun c => Some (normalized_weight Batch OptState (FedDyn.clients self) c))
                    (FedDyn.clients self)).
  { subst s1. cbn [FedDyn.clients]. rewrite map_map. reflexivity. }
  split; [reflexivity|]. split; [reflexivity|]. split; [reflexivity|].
  split; [apply exchange_events_types|]. split.
  { intros c Hc. unfold exchange_events. do 3 (apply in_or_app; right).
    apply in_map_iff. exists c. auto. }
  split.
  - intros r s_r s_r' Hsr Hround.
    destruct (Server_fit_inv _ _ _ _ _ Hsr) as (Hsame & Hlog & Hpend).
    destruct (round_inv _ _ _ _ Hround) as (Hsame' & Hlog' & _).
    rewrite Hidx in Hlog.
    rewrite eligible_indices_filter, (same_clients_index _ _ Hsame), Hidx in Hlog'.
    split; [rewrite (same_clients_weight _ _ Hsame); exact Hws|].
    split; [apply Hpend; exact Hp0|].
    split; [rewrite Hlog; subst s1; cbn [FedDyn.channel FedDyn.log];
            now rewrite <- app_assoc|].
    split; [exact Hlog'|].
    split; [apply Forall_app; split;
            [apply run_events_types | apply round_events_types]|].
    apply (same_clients_weight _ _ Hsame').
  - intros s' Hs' r Hr. rewrite Hfit in Hs'.
    exact (Server_fit_rounds _ _ _ _ Hs' r Hr).
Qed.

End FedDyn_rounds.

(** *** Two rounds with the three clients of 10, 20 and 30 examples, all of
    them eligible in every round *)

Definition ex_selected (rnd : nat) (eligible_perc : scalar) (i : nat) : bool := true.

Definition ex_round (s : FedDyn.Server unit unit) (rnd : nat)
  : result (FedDyn.Server unit unit) :=
  FedDyn.round (fun _ _ => qc 0 1) (fun _ _ => tt) ex_optimizer_step (fun o => o)
               ex_selected s rnd (qc 1 1).

Definition ex_server_fit (s : FedDyn.Server unit unit) (n_rounds : nat)
  : result (FedDyn.Server unit unit) :=
  FedDyn.server_fit (fun _ _ => qc 0 1) (fun _ _ => tt) ex_optimizer_step (fun o => o)
                    ex_selected s n_rounds (qc 1 1).

(** What the examples read off a run: the types of the logged messages and
    the weights the clients hold. *)
Definition log_view (s : FedDyn.Server unit unit) : list string * list (option Q) :=
  (map event_type (FedDyn.log (FedDyn.channel s)),
   map (fun c => option_map Qcanon.this (FedDyn.weight c)) (FedDyn.clients s)).

Definition observe_log (r : result (FedDyn.Server unit unit))
  : option (list string * list (option Q)) :=
  match r with
  | Ok s => Some (log_view s)
  | Raise _ => None
  end.

Lemma observe_log_ok (r : result (FedDyn.Server unit unit))
  (y : list string * list (option Q)) :
  observe_log r = Some y -> exists s, r = Ok s /\ log_view s = y.
Proof.
  destruct r as [s|e]; [|discriminate]. intros [= H]. exists s. auto.
Qed.

(** The types of the messages of one round of the example. *)
Definition ex_round_types : list string :=
  ["model"; "model"; "model";
   "model"; "model"; "grads"; "model"; "model"; "grads"; "model"; "model"; "grads";
   "model"; "model"; "model"; "grads"; "grads"; "grads"]%string.

Lemma ex_run_computed :
  observe_log (FedDyn.weight_exchange ex_dyn_server) =
    Some (repeat "weight"%string 12, [Some (1 # 2)%Q; Some (1 # 1)%Q; Some (3 # 2)%Q]) /\
  observe_log (s1 <- FedDyn.weight_exchange ex_dyn_server ;; ex_round s1 0) =
    Some (repeat "weight"%string 12 ++ ex_round_types,
          [Some (1 # 2)%Q; Some (1 # 1)%Q; Some (3 # 2)%Q]) /\
  observe_log (s1 <- FedDyn.weight_exchange ex_dyn_server ;;
               s2 <- ex_round s1 0 ;; ex_round s2 1) =
    Some (repeat "weight"%string 12 ++ ex_round_types ++ ex_round_types,
          [Some (1 # 2)%Q; Some (1 # 1)%Q; Some (3 # 2)%Q]).
Proof. vm_compute. repeat split. Qed.

Lemma ex_run_ok :
  exists s1 s2 s3,
    FedDyn.weight_exchange ex_dyn_server = Ok s1 /\
    ex_round s1 0 = Ok s2 /\ ex_round s2 1 = Ok s3 /\
    log_view s1 =
      (repeat "weight"%string 12, [Some (1 # 2)%Q; Some (1 # 1)%Q; Some (3 # 2)%Q]) /\
    log_view s2 =
      (repeat "weight"%string 12 ++ ex_round_types,
       [Some (1 # 2)%Q; Some (1 # 1)%Q; Some (3 # 2)%Q]) /\
    log_view s3 =
      (repeat "weight"%string 12 ++ ex_round_types ++ ex_round_types,
       [Some (1 # 2)%Q; Some (1 # 1)%Q; Some (3 # 2)%Q]).
Proof.
  destruct ex_run_computed as (H1 & H2 & H3).
  destruct (observe_log_ok _ _ H1) as (s1 & Hs1 & Hv1).
  rewrite Hs1 in H2, H3. cbn [bind] in H2, H3.
  destruct (observe_log_ok _ _ H2) as (s2 & Hs2 & Hv2).
  rewrite Hs2 in H3. cbn [bind] in H3.
  destruct (observe_log_ok _ _ H3) as (s3 & Hs3 & Hv3).
  exists s1, s2, s3. repeat split; assumption.
Qed.

(** C9, as stated, fails in the second round of a run: the twelve messages of
    the weight exchange are all logged before the first round, the call of
    [fit] with two rounds is the exchange followed by the two rounds, and the
    second round, like the first, logs eighteen messages of type ["model"] or
    ["grads"] and none of type ["weight"]: in that round no count is reported,
    no weight is sent or received, and no client's weight is set; each client
    trains with the weight it was given before the first round. *)
Lemma weight_exchange_not_in_every_round :
  exists s1 s2 s3,
    FedDyn.weight_exchange ex_dyn_server = Ok s1 /\
    ex_round s1 0 = Ok s2 /\ ex_round s2 1 = Ok s3 /\
    ex_server_fit ex_dyn_server 2 = Ok s3 /\
    map event_type (FedDyn.log (FedDyn.channel s1)) = repeat "weight"%string 12 /\
    map event_type (FedDyn.log (FedDyn.channel s2)) =
      map event_type (FedDyn.log (FedDyn.channel s1)) ++ ex_round_types /\
    map event_type (FedDyn.log (FedDyn.channel s3)) =
      map event_type (FedDyn.log (FedDyn.channel s2)) ++ ex_round_types /\
    ~ In "weight"%string ex_round_types /\
    map (fun c => option_map Qcanon.this (FedDyn.weight c)) (FedDyn.clients s2) =
      [Some (1 # 2)%Q; Some (1 # 1)%Q; Some (3 # 2)%Q] /\
    map (fun c => option_map Qcanon.this (FedDyn.weight c)) (FedDyn.clients s3) =
      [Some (1 # 2)%Q; Some (1 # 1)%Q; Some (3 # 2)%Q].
Proof.
  destruct ex_run_ok as (s1 & s2 & s3 & Hs1 & Hs2 & Hs3 & Hv1 & Hv2 & Hv3).
  unfold log_view in Hv1, Hv2, Hv3.
  injection Hv1 as Hl1 Hw1. injection Hv2 as Hl2 Hw2. injection Hv3 as Hl3 Hw3.
  exists s1, s2, s3.
  split; [exact Hs1|]. split; [exact Hs2|]. split; [exact Hs3|]. split.
  { unfold ex_server_fit, FedDyn.server_fit. rewrite Hs1. cbn [bind FedDyn.Server_fit].
    unfold ex_round in Hs2, Hs3. rewrite Hs2. cbn [bind]. rewrite Hs3. reflexivity. }
  split; [exact Hl1|]. split; [rewrite Hl2, Hl1; reflexivity|].
  split; [rewrite Hl3, Hl2; reflexivity|].
  split; [|split; assumption].
  unfold ex_round_types. cbn [In]. intuition discriminate.
Qed.

(** The same run: the second round starts after the exchange and the first
    round, with the weights [0.5, 1.0, 1.5] of the exchange. *)
Lemma weight_exchange_precedes_rounds_witness :
  no_weight_pending (FedDyn.pending (FedDyn.channel ex_dyn_server)) /\
  total_examples unit unit (FedDyn.clients ex_dyn_server) <> 0 /\
  exists s1 s2 s3,
    FedDyn.weight_exchange ex_dyn_server = Ok s1 /\
    FedDyn.Server_fit (fun _ _ => qc 0 1) (fun _ _ => tt) ex_optimizer_step (fun o => o)
      ex_selected s1 1 0 (qc 1 1) = Ok s2 /\
    ex_round s2 1 = Ok s3 /\
    ex_server_fit ex_dyn_server 2 = Ok s3 /\
    map (fun c => option_map Qcanon.this (FedDyn.weight c)) (FedDyn.clients s2) =
      [Some (1 # 2)%Q; Some (1 # 1)%Q; Some (3 # 2)%Q] /\
    no_weight_pending (FedDyn.pending (FedDyn.channel s2)) /\
    FedDyn.log (FedDyn.channel s2) =
      exchange_events unit unit (FedDyn.clients ex_dyn_server) ++
      round_events [0; 1; 2]%nat /\
    FedDyn.log (FedDyn.channel s3) =
      FedDyn.log (FedDyn.channel s2) ++ round_events [0; 1; 2]%nat.
Proof.
  assert (H : no_weight_pending (FedDyn.pending (FedDyn.channel ex_dyn_server)))
    by constructor.
  split; [exact H|]. split; [exact ex_dyn_total_nonzero|].
  destruct (weight_exchange_precedes_rounds unit unit (fun _ _ => qc 0 1) (fun _ _ => tt)
              ex_optimizer_step (fun o => o) ex_selected ex_dyn_server 2 (qc 1 1)
              H ex_dyn_total_nonzero)
    as (s1 & Hex & Hfit & _ & _ & _ & _ & _ & Hrounds & _).
  destruct ex_run_ok as (s1' & s2 & s3 & Hs1 & Hs2 & Hs3 & _).
  rewrite Hex in Hs1. injection Hs1 as <-.
  unfold ex_round in Hs2.
  assert (Hrun : FedDyn.Server_fit (fun _ _ => qc 0 1) (fun _ _ => tt) ex_optimizer_step
                   (fun o => o) ex_selected s1 1 0 (qc 1 1) = Ok s2).
  { cbn [FedDyn.Server_fit]. rewrite Hs2. reflexivity. }
  destruct (Hrounds 1%nat s2 s3 Hrun Hs3) as (Hw & Hnw & Hlog2 & Hlog3 & _ & _).
  exists s1, s2, s3.
  split; [exact Hex|]. split; [exact Hrun|]. split; [exact Hs3|]. split.
  { unfold ex_server_fit. rewrite Hfit. cbn [FedDyn.Server_fit].
    rewrite Hs2. cbn [bind]. unfold ex_round in Hs3. rewrite Hs3. reflexivity. }
  split.
  { rewrite <- (map_map (@FedDyn.weight _ _) (option_map Qcanon.this)), Hw.
    vm_compute. reflexivity. }
  split; [exact Hnw|]. split.
  - rewrite Hlog2.
    change (run_events ex_selected (map (@FedDyn.index _ _) (FedDyn.clients ex_dyn_server))
              (qc 1 1) 1 0) with (round_events [0; 1; 2]%nat ++ []).
    now rewrite app_nil_r.
  - exact Hlog3.
Defined.
